(** * Account rotation for the google-antigravity-auth extension

    A shallow embedding of the account store ([AccountManager],
    account-manager.ts), the rotator ([AccountRotator], rotator.ts) and the
    response interceptor and refresh sweep of the extension's index.ts,
    then of the chat commands (commands.ts), the forced refresh, the
    [refreshOAuth] hook, the first rotator and the provider built on it,
    followed by the properties of the rotation engine and of that further
    code.

    Conventions of the embedding:
    - a JavaScript [number] holding a timestamp, a duration or a priority is a
      [Z]; the two counters ([requestCount], [failureCount]) are [nat];
    - an optional field is an [option]; [x || d] and the truthiness tests of
      the source are written out ([or_default], [truthyZ], [truthyB]);
    - the [Map<string, AntigravityAccount>] of the manager is an association
      list in insertion order ([Map.set] on a present key keeps its place);
    - [Date.now()] is a read of a clock oracle: every call of the source is
      one read, so two reads inside one operation may differ;
    - logging and the JSON file behind [load]/[save] are left out. *)

From Stdlib Require Import String ZArith Lia Bool PeanoNat List.
Import ListNotations.
Open Scope string_scope.
Open Scope list_scope.
Open Scope nat_scope.

(** ** Data model (types.ts) *)

Inductive RotationStrategy := RoundRobin | Priority | LeastUsed | Failover.

Record AntigravityAccount := mkAccount {
  email : string;
  accessToken : string;
  refreshToken : string;
  expiresAt : Z;
  projectId : option string;
  priority : option Z;
  lastUsed : option Z;
  requestCount : option nat;
  failureCount : option nat;
  isRateLimited : option bool;
  rateLimitedUntil : option Z;
  lastRefreshed : option Z
}.

(** [Partial<AntigravityAccount>] as the callers build it: a key that is
    absent is [None]; [rateLimitedUntil: undefined] is a key that is present
    and holds undefined, [Some None]. *)
Record Patch := mkPatch {
  p_accessToken : option string;
  p_expiresAt : option Z;
  p_priority : option Z;
  p_lastUsed : option Z;
  p_requestCount : option nat;
  p_failureCount : option nat;
  p_isRateLimited : option bool;
  p_rateLimitedUntil : option (option Z);
  p_lastRefreshed : option Z
}.

Definition noPatch : Patch :=
  mkPatch None None None None None None None None None.

Definition over {A : Type} (old : A) (new : option A) : A :=
  match new with Some v => v | None => old end.

Definition overOpt {A : Type} (old : option A) (new : option A) : option A :=
  match new with Some v => Some v | None => old end.

(** [{ ...account, ...updates }] *)
Definition spread (a : AntigravityAccount) (u : Patch) : AntigravityAccount :=
  {| email := email a;
     accessToken := over (accessToken a) (p_accessToken u);
     refreshToken := refreshToken a;
     expiresAt := over (expiresAt a) (p_expiresAt u);
     projectId := projectId a;
     priority := overOpt (priority a) (p_priority u);
     lastUsed := overOpt (lastUsed a) (p_lastUsed u);
     requestCount := overOpt (requestCount a) (p_requestCount u);
     failureCount := overOpt (failureCount a) (p_failureCount u);
     isRateLimited := overOpt (isRateLimited a) (p_isRateLimited u);
     rateLimitedUntil := over (rateLimitedUntil a) (p_rateLimitedUntil u);
     lastRefreshed := overOpt (lastRefreshed a) (p_lastRefreshed u) |}.

(** JavaScript truthiness of the optional fields. *)
Definition truthyB (b : option bool) : bool :=
  match b with Some true => true | _ => false end.

Definition truthyZ (z : option Z) : bool :=
  match z with Some v => negb (v =? 0)%Z | None => false end.

(** [x || d] on an optional number. *)
Definition or_default (z : option Z) (d : Z) : Z :=
  match z with Some v => if (v =? 0)%Z then d else v | None => d end.

(** [x || 0] on an optional counter. *)
Definition or_zero (n : option nat) : nat :=
  match n with Some v => v | None => 0 end.

(** ** The world: the manager's map, the rotator's fields and the clock *)

Definition Store := list (string * AntigravityAccount).

Record World := mkWorld {
  accounts : Store;
  strategy : RotationStrategy;
  currentRoundRobinIndex : nat;
  clock : nat -> Z;
  reads : nat
}.

Definition with_accounts (s : Store) (w : World) : World :=
  mkWorld s (strategy w) (currentRoundRobinIndex w) (clock w) (reads w).

Definition with_index (i : nat) (w : World) : World :=
  mkWorld (accounts w) (strategy w) i (clock w) (reads w).

Definition with_strategy (s : RotationStrategy) (w : World) : World :=
  mkWorld (accounts w) s (currentRoundRobinIndex w) (clock w) (reads w).

Definition tick (w : World) : World :=
  mkWorld (accounts w) (strategy w) (currentRoundRobinIndex w) (clock w)
          (S (reads w)).

(** A small state monad over the world. *)
Definition M (A : Type) : Type := World -> A * World.

Definition ret {A : Type} (a : A) : M A := fun w => (a, w).

Definition bind {A B : Type} (m : M A) (k : A -> M B) : M B :=
  fun w => let (a, w') := m w in k a w'.

Notation "'let*' x ':=' m 'in' k" := (bind m (fun x => k))
  (at level 10, x name, m at level 100, k at level 200).

(** [Date.now()] *)
Definition dateNow : M Z := fun w => (clock w (reads w), tick w).

(** The time the next [Date.now()] returns. *)
Definition now (w : World) : Z := clock w (reads w).

(** ** AccountManager (account-manager.ts) *)

(** [Map.get] *)
Fixpoint map_get (k : string) (s : Store) : option AntigravityAccount :=
  match s with
  | [] => None
  | (k', a) :: rest => if String.eqb k k' then Some a else map_get k rest
  end.

(** [Map.set]: a present key keeps its position, a new key goes last. *)
Fixpoint map_set (k : string) (v : AntigravityAccount) (s : Store) : Store :=
  match s with
  | [] => [(k, v)]
  | (k', a) :: rest =>
      if String.eqb k k' then (k', v) :: rest else (k', a) :: map_set k v rest
  end.

(** [Array.from(this.accounts.values())] *)
Definition map_values (s : Store) : list AntigravityAccount := map snd s.

Definition getAccount (e : string) : M (option AntigravityAccount) :=
  fun w => (map_get e (accounts w), w).

Definition updateAccount (e : string) (updates : Patch) : M unit :=
  fun w =>
    match map_get e (accounts w) with
    | Some account =>
        (tt, with_accounts (map_set e (spread account updates) (accounts w)) w)
    | None => (tt, w)
    end.

Definition getAll : M (list AntigravityAccount) :=
  fun w => (map_values (accounts w), w).

(** [addAccount]: stored under the account's own email, with the defaults
    of the statistics filled in. *)
Definition addAccount (account : AntigravityAccount) : M unit :=
  fun w =>
    let stored :=
      {| email := email account;
         accessToken := accessToken account;
         refreshToken := refreshToken account;
         expiresAt := expiresAt account;
         projectId := projectId account;
         priority := Some (match priority account with Some p => p | None => 1%Z end);
         lastUsed := lastUsed account;
         requestCount := Some (or_zero (requestCount account));
         failureCount := Some (or_zero (failureCount account));
         isRateLimited := Some false;
         rateLimitedUntil := rateLimitedUntil account;
         lastRefreshed := lastRefreshed account |} in
    (tt, with_accounts (map_set (email account) stored (accounts w)) w).

(** ** AccountRotator (rotator.ts) *)

Definition CIRCUIT_BREAKER_THRESHOLD : nat := 3.
Definition RATE_LIMIT_COOLDOWN_MS : Z := (60 * 1000)%Z.
Definition MAX_401_RETRIES : nat := 3.

Definition setStrategy (s : RotationStrategy) : M unit :=
  fun w => (tt, with_strategy s w).

(** The test of the loop of [clearExpiredRateLimits]. *)
Definition expired (t : Z) (a : AntigravityAccount) : bool :=
  truthyB (isRateLimited a) && truthyZ (rateLimitedUntil a)
  && (match rateLimitedUntil a with Some u => (u <=? t)%Z | None => false end).

Definition clearPatch : Patch :=
  mkPatch None None None None None (Some 0) (Some false) (Some None) None.

(** [for (const account of accounts) { ... }] over the snapshot. *)
Fixpoint clearLoop (t : Z) (snapshot : list AntigravityAccount) (cleared : nat)
  : M nat :=
  match snapshot with
  | [] => ret cleared
  | account :: rest =>
      if expired t account then
        let* _ := updateAccount (email account) clearPatch in
        clearLoop t rest (S cleared)
      else clearLoop t rest cleared
  end.

Definition clearExpiredRateLimits : M nat :=
  let* snapshot := getAll in
  let* t := dateNow in
  clearLoop t snapshot 0.

(** [Array.prototype.sort(compareFn)]: a stable sort; [compareFn a b <= 0]
    keeps [a] before [b]. *)
Fixpoint sort_insert {A : Type} (compareFn : A -> A -> Z) (x : A) (l : list A)
  : list A :=
  match l with
  | [] => [x]
  | y :: ys =>
      if (compareFn x y <=? 0)%Z then x :: y :: ys
      else y :: sort_insert compareFn x ys
  end.

Fixpoint array_sort {A : Type} (compareFn : A -> A -> Z) (l : list A) : list A :=
  match l with
  | [] => []
  | x :: xs => sort_insert compareFn x (array_sort compareFn xs)
  end.

(** The selectors are only called on a non-empty array; [sorted[0]] and
    [accounts[i]] are [head] and [nth_error]. *)
Definition selectRoundRobin (available : list AntigravityAccount)
  : M (option AntigravityAccount) :=
  fun w =>
    let i := if length available <=? currentRoundRobinIndex w
             then 0 else currentRoundRobinIndex w in
    (nth_error available i, with_index (S i mod length available) w).

Definition effPriority (a : AntigravityAccount) : Z := or_default (priority a) 1.

Definition selectPriority (available : list AntigravityAccount)
  : option AntigravityAccount :=
  head (array_sort (fun a b => (effPriority b - effPriority a)%Z) available).

Definition selectLeastUsed (available : list AntigravityAccount)
  : option AntigravityAccount :=
  head (array_sort
          (fun a b => (Z.of_nat (or_zero (requestCount a))
                       - Z.of_nat (or_zero (requestCount b)))%Z) available).

Definition selectFailover (available : list AntigravityAccount)
  : option AntigravityAccount :=
  head available.

Definition isAvailable (a : AntigravityAccount) : bool :=
  negb (truthyB (isRateLimited a)).

Definition getNextAccount : M (option AntigravityAccount) :=
  let* _ := clearExpiredRateLimits in
  let* accts := getAll in
  let available := List.filter isAvailable accts in
  if length available =? 0 then
    let rateLimited :=
      List.filter (fun a => truthyB (isRateLimited a)
                            && truthyZ (rateLimitedUntil a)) accts in
    (* the wait time that is logged reads the clock *)
    let* _ := (if 0 <? length rateLimited
               then let* _ := dateNow in ret tt else ret tt) in
    ret None
  else
    fun w =>
      match strategy w with
      | RoundRobin => selectRoundRobin available w
      | Priority => (selectPriority available, w)
      | LeastUsed => (selectLeastUsed available, w)
      | Failover => (selectFailover available, w)
      end.

Definition reportSuccess (e : string) : M unit :=
  let* account := getAccount e in
  match account with
  | Some a =>
      let* t := dateNow in
      updateAccount e
        (mkPatch None None None (Some t) (Some (or_zero (requestCount a) + 1))
                 (Some 0) (Some false) (Some None) None)
  | None => ret tt
  end.

Definition reportFailure (e : string) (isRateLimit : bool) (cooldownMs : Z)
  : M bool :=
  let* account := getAccount e in
  match account with
  | None => ret false
  | Some a =>
      let newFailureCount := or_zero (failureCount a) + 1 in
      let circuitBroken := CIRCUIT_BREAKER_THRESHOLD <=? newFailureCount in
      let* used := dateNow in
      let* updates :=
        (if isRateLimit || circuitBroken then
           let* t := dateNow in
           ret (mkPatch None None None (Some used) None (Some newFailureCount)
                        (Some true) (Some (Some (t + cooldownMs)%Z)) None)
         else
           ret (mkPatch None None None (Some used) None (Some newFailureCount)
                        None None None)) in
      let* _ := updateAccount e updates in
      ret circuitBroken
  end.

Definition handle429 (currentEmail : string) (retryAfterMs : option Z)
  : M (option AntigravityAccount) :=
  let cooldown := or_default retryAfterMs RATE_LIMIT_COOLDOWN_MS in
  let* _ := reportFailure currentEmail true cooldown in
  getNextAccount.

Definition handle401 (currentEmail : string)
  : M (bool * option AntigravityAccount) :=
  let* account := getAccount currentEmail in
  match account with
  | None =>
      let* newAccount := getNextAccount in
      ret (false, newAccount)
  | Some a =>
      let failureCount' := or_zero (failureCount a) + 1 in
      let* t := dateNow in
      let* _ := updateAccount currentEmail
                  (mkPatch None None None (Some t) None (Some failureCount')
                           None None None) in
      if failureCount' <? MAX_401_RETRIES then ret (true, None)
      else
        let* _ := reportFailure currentEmail false RATE_LIMIT_COOLDOWN_MS in
        let* newAccount := getNextAccount in
        ret (false, newAccount)
  end.

Definition handle403 (currentEmail : string) : M (option AntigravityAccount) :=
  let longCooldown := (60 * 60 * 1000)%Z in
  let* t := dateNow in
  let* _ := updateAccount currentEmail
              (mkPatch None None None None None (Some CIRCUIT_BREAKER_THRESHOLD)
                       (Some true) (Some (Some (t + longCooldown)%Z)) None) in
  getNextAccount.

(** Returns [(shouldRetry, delay)]. *)
Definition handle5xx (currentEmail : string) : M (bool * Z) :=
  let* account := getAccount currentEmail in
  let failureCount' :=
    or_zero (match account with Some a => failureCount a | None => None end) + 1 in
  if failureCount' <? CIRCUIT_BREAKER_THRESHOLD then
    let* _ := updateAccount currentEmail
                (mkPatch None None None None None (Some failureCount')
                         None None None) in
    let delay := (2 ^ Z.of_nat (failureCount' - 1) * 1000)%Z in
    ret (true, delay)
  else
    let* _ := reportFailure currentEmail false RATE_LIMIT_COOLDOWN_MS in
    ret (false, 0%Z).

Definition needsRefresh (t thresholdMs : Z) (a : AntigravityAccount) : bool :=
  negb (truthyB (isRateLimited a))
  && negb (expiresAt a =? 0)%Z
  && (expiresAt a - t <? thresholdMs)%Z.

Definition getAccountsNeedingRefresh (thresholdMs : Z)
  : M (list AntigravityAccount) :=
  let* accts := getAll in
  let* t := dateNow in
  ret (List.filter (needsRefresh t thresholdMs) accts).

Definition updateAccountTokens (e : string) (access : string) (expires : Z)
  : M unit :=
  let* t := dateNow in
  updateAccount e
    (mkPatch (Some access) (Some expires) None None None (Some 0)
             None None (Some t)).

(** ** Response interceptor and refresh sweep (index.ts of the extension) *)

Definition TOKEN_REFRESH_INTERVAL_MS : Z := (30 * 60 * 1000)%Z.
Definition TOKEN_EXPIRY_THRESHOLD_MS : Z := (5 * 60 * 1000)%Z.

Inductive Action := Continue | Retry | Switch | Fail.

Record Response := mkResponse {
  action : Action;
  newCredentials : option AntigravityAccount;
  delay : option Z
}.

Definition switchOrFail (newAccount : option AntigravityAccount) : Response :=
  match newAccount with
  | Some a => mkResponse Switch (Some a) None
  | None => mkResponse Fail None None
  end.

Definition handleResponse (status : Z) (currentEmail : string)
    (retryAfterMs : option Z) : M Response :=
  if (200 <=? status)%Z && (status <? 300)%Z then
    let* _ := reportSuccess currentEmail in
    ret (mkResponse Continue None None)
  else if (status =? 429)%Z then
    let* newAccount := handle429 currentEmail retryAfterMs in
    ret (switchOrFail newAccount)
  else if (status =? 401)%Z then
    let* result := handle401 currentEmail in
    if fst result then ret (mkResponse Retry None (Some 1000%Z))
    else ret (switchOrFail (snd result))
  else if (status =? 403)%Z then
    let* newAccount := handle403 currentEmail in
    ret (switchOrFail newAccount)
  else if (500 <=? status)%Z && (status <? 600)%Z then
    let* result := handle5xx currentEmail in
    if fst result then ret (mkResponse Retry None (Some (snd result)))
    else
      let* newAccount := getNextAccount in
      ret (switchOrFail newAccount)
  else
    let* _ := reportFailure currentEmail false RATE_LIMIT_COOLDOWN_MS in
    ret (mkResponse Continue None None).

Section RefreshSweep.

(** The credential refresher of cli-auth.js, an external collaborator:
    [Some (access, expires)] when the exchange succeeds, [None] when it
    throws. *)
Variable refreshAccessToken : string -> option (string * Z).

(** The body of the loop of the sweep, for one selected account:
    [try { refresh; updateAccountTokens } catch { reportFailure }]. *)
Definition refreshOne (account : AntigravityAccount) : M unit :=
  match refreshAccessToken (refreshToken account) with
  | Some (access, expires) => updateAccountTokens (email account) access expires
  | None =>
      let* _ := reportFailure (email account) false RATE_LIMIT_COOLDOWN_MS in
      ret tt
  end.

(** [for (const account of accounts) { ... }] *)
Fixpoint refreshLoop (selected : list AntigravityAccount) : M unit :=
  match selected with
  | [] => ret tt
  | account :: rest =>
      let* _ := refreshOne account in
      refreshLoop rest
  end.

(** One tick of the sweep. *)
Definition refreshAllTokens : M unit :=
  let* selected := getAccountsNeedingRefresh TOKEN_EXPIRY_THRESHOLD_MS in
  if length selected =? 0 then ret tt else refreshLoop selected.

(** What the sweep leaves of an account [before] it has selected. *)
Definition refreshed (before after : AntigravityAccount) : Prop :=
  match refreshAccessToken (refreshToken before) with
  | Some (access, expires) =>
      accessToken after = access /\ expiresAt after = expires
      /\ failureCount after = Some 0
  | None =>
      failureCount after = Some (or_zero (failureCount before) + 1)
      /\ accessToken after = accessToken before
      /\ expiresAt after = expiresAt before
  end.

End RefreshSweep.

(** * Vocabulary of the properties *)

(** The keys of the map are distinct, and every account is stored under its
    own email ([load] and [addAccount] use [acc.email] as the key, and no
    patch of the source carries an email). *)
Fixpoint distinct (ks : list string) : bool :=
  match ks with
  | [] => true
  | k :: rest => negb (existsb (String.eqb k) rest) && distinct rest
  end.

Definition store_ok (s : Store) : bool :=
  distinct (map fst s)
  && forallb (fun ka => String.eqb (email (snd ka)) (fst ka)) s.

Definition keyed (s : Store) : Prop :=
  Forall (fun ka => email (snd ka) = fst ka) s.

(** Sample accounts and worlds used by the examples below. *)
Definition sampleAccount (e : string) (prio : Z) : AntigravityAccount :=
  mkAccount e "access" "refresh" 9000000 None (Some prio) None (Some 0)
            (Some 0) (Some false) None None.

Definition sampleClock (n : nat) : Z := (1000000 + Z.of_nat n)%Z.

Definition sampleWorld (s : Store) (strat : RotationStrategy) : World :=
  mkWorld s strat 0 sampleClock 0.

Definition alice : AntigravityAccount := sampleAccount "alice@example.com" 1.
Definition bob : AntigravityAccount := sampleAccount "bob@example.com" 5.

Definition twoAccounts : Store :=
  [("alice@example.com", alice); ("bob@example.com", bob)].

(** The account stored under [e] after running [m] from [w]. *)
Definition accountAfter {A : Type} (m : M A) (e : string) (w : World)
  : option AntigravityAccount :=
  map_get e (accounts (snd (m w))).

(** What the loop of [clearExpiredRateLimits] does to one account, and to
    the whole store. *)
Definition clearOne (t : Z) (a : AntigravityAccount) : AntigravityAccount :=
  if expired t a then spread a clearPatch else a.

Definition clearStore (t : Z) (s : Store) : Store :=
  map (fun ka => (fst ka, clearOne t (snd ka))) s.

(** The candidates of a selection started in [w]. *)
Definition candidates (w : World) : list AntigravityAccount :=
  List.filter isAvailable (map_values (clearStore (now w) (accounts w))).

(** An account that is rate limited by a far-away deadline, and one whose
    deadline has passed on [sampleClock]. *)
Definition limitedUntil (e : string) (prio : Z) (failures : nat) (until : Z)
  : AntigravityAccount :=
  mkAccount e "access" "refresh" 9000000 None (Some prio) (Some 400%Z) (Some 7)
            (Some failures) (Some true) (Some until) None.

Definition carol : AntigravityAccount :=
  limitedUntil "carol@example.com" 1 3 500.

(** The result C2 claims: the call is a rate-limit report, or the
    incremented count is exactly the threshold. *)
Definition claimedResult (a : AntigravityAccount) (isRateLimit : bool) : bool :=
  isRateLimit || (or_zero (failureCount a) + 1 =? CIRCUIT_BREAKER_THRESHOLD).

(** Carol's expired rate limit is cleared by a selection under [strat]. *)
Definition carolCleared (strat : RotationStrategy) : Prop :=
  let w := sampleWorld [("carol@example.com", carol)] strat in
  map_get "carol@example.com" (accounts w) = Some carol
  /\ exists a',
      accountAfter getNextAccount "carol@example.com" w = Some a'
      /\ isRateLimited carol = Some true /\ isRateLimited a' = Some false
      /\ rateLimitedUntil carol = Some 500%Z /\ rateLimitedUntil a' = None
      /\ failureCount carol = Some 3 /\ failureCount a' = Some 0.

Definition usedAt (e : string) (prio : Z) (used : Z) : AntigravityAccount :=
  mkAccount e "access" "refresh" 9000000 None (Some prio) (Some used) (Some 0)
            (Some 0) (Some false) None None.

(** The value of the clock read number [i] after the ones already made. *)
Definition readAt (w : World) (i : nat) : Z := clock w (i + reads w).

(** The account a rate-limit report leaves behind. *)
Definition rateLimitedBy (a : AntigravityAccount) (used until : Z)
  : AntigravityAccount :=
  spread a (mkPatch None None None (Some used) None
              (Some (or_zero (failureCount a) + 1)) (Some true)
              (Some (Some until)) None).

(** [m] writes to no account other than the one stored under [e]. *)
Definition touchesOnly {A : Type} (m : M A) (e : string) : Prop :=
  forall w k,
    k <> e -> map_get k (accounts (snd (m w))) = map_get k (accounts w).

(** An account whose token expiry is the timestamp 0. *)
Definition dave : AntigravityAccount :=
  mkAccount "dave@example.com" "access" "refresh" 0 None (Some 1%Z) None
            (Some 0) (Some 0) (Some false) None None.

(** A refresher that always succeeds. *)
Definition alwaysFresh (token : string) : option (string * Z) :=
  Some ("fresh", 9999999%Z).

(** * More of the code *)

(** ** More of the manager and of the rotator *)

Definition isEmptyEmail (e : string) : bool := String.eqb e "".

(** [Map.delete]: the result tells whether the key was there. *)
Fixpoint map_delete (k : string) (s : Store) : bool * Store :=
  match s with
  | [] => (false, [])
  | (k', a) :: rest =>
      if String.eqb k k' then (true, rest)
      else let (found, rest') := map_delete k rest in (found, (k', a) :: rest')
  end.

(** [Map.has] *)
Definition map_has (k : string) (s : Store) : bool :=
  match map_get k s with Some _ => true | None => false end.

(** [AccountManager.removeAccount] *)
Definition removeAccount (e : string) : M bool :=
  fun w =>
    let (result, s') := map_delete e (accounts w) in
    (result, with_accounts s' w).

(** The map [AccountManager.load] builds from the parsed array of the
    accounts file: [clear()], then [set(acc.email, acc)] for every entry
    whose email is truthy (not the empty string). *)
Definition loadEntry (s : Store) (acc : AntigravityAccount) : Store :=
  if isEmptyEmail (email acc) then s else map_set (email acc) acc s.

Definition loadAccounts (json : list AntigravityAccount) : Store :=
  fold_left loadEntry json [].

(** [AccountRotator.getAllAccounts] and [AccountRotator.getAccount]
    delegate to the manager. *)
Definition getAllAccounts : M (list AntigravityAccount) := getAll.

Definition rotatorGetAccount (e : string) : M (option AntigravityAccount) :=
  getAccount e.

(** ** Chat commands (commands.ts)

    The handlers of [registerChatCommands]; [email] is [ctx.args?.trim()],
    the empty string when there is no argument, and the text of the reply
    is kept as a constructor. *)

Inductive Reply :=
| AccountNotFound (e : string)
| SwitchedTo (e : string)
| NoAccountsAvailable
| Rotated (from to : string)
| NoOtherAccounts
| DisableUsage
| Disabled (e : string)
| EnableUsage
| Enabled (e : string).

Definition isEmpty (e : string) : bool := String.eqb e "".

(** [/ag-switch [email]] *)
Definition agSwitch (e : string) : M Reply :=
  if negb (isEmpty e) then
    let* account := rotatorGetAccount e in
    match account with
    | None => ret (AccountNotFound e)
    | Some _ =>
        let* _ := updateAccount e
                    (mkPatch None None (Some 999%Z) None None (Some 0)
                             (Some false) (Some None) None) in
        ret (SwitchedTo e)
    end
  else
    let* current := getNextAccount in
    match current with
    | None => ret NoAccountsAvailable
    | Some c =>
        let* _ := reportFailure (email c) true 5000 in
        let* next := getNextAccount in
        match next with
        | Some n =>
            if negb (String.eqb (email n) (email c))
            then ret (Rotated (email c) (email n))
            else
              let* _ := updateAccount (email c)
                          (mkPatch None None None None None None
                                   (Some false) None None) in
              ret NoOtherAccounts
        | None =>
            let* _ := updateAccount (email c)
                        (mkPatch None None None None None None
                                 (Some false) None None) in
            ret NoOtherAccounts
        end
    end.

(** [/ag-disable <email>] *)
Definition agDisable (e : string) : M Reply :=
  if isEmpty e then ret DisableUsage
  else
    let* account := rotatorGetAccount e in
    match account with
    | None => ret (AccountNotFound e)
    | Some _ =>
        let* t := dateNow in
        let* _ := updateAccount e
                    (mkPatch None None None None None None (Some true)
                             (Some (Some (t + 24 * 60 * 60 * 1000)%Z)) None) in
        ret (Disabled e)
    end.

(** [/ag-enable <email>] *)
Definition agEnable (e : string) : M Reply :=
  if isEmpty e then ret EnableUsage
  else
    let* account := rotatorGetAccount e in
    match account with
    | None => ret (AccountNotFound e)
    | Some _ =>
        let* _ := updateAccount e
                    (mkPatch None None None None None (Some 0) (Some false)
                             (Some None) None) in
        ret (Enabled e)
    end.

Section ForcedRefresh.

(** The credential refresher of cli-auth.js, as in the sweep. *)
Variable refreshAccessToken : string -> option (string * Z).

(** The loop of the exposed [refreshAllTokens] (and of [/ag-refresh]):
    every account is refreshed, and a failure is only noted in the
    result. *)
Fixpoint forceRefreshLoop (all : list AntigravityAccount)
  : M (list (string * bool)) :=
  match all with
  | [] => ret []
  | account :: rest =>
      let* ok :=
        match refreshAccessToken (refreshToken account) with
        | Some (access, expires) =>
            let* _ := updateAccountTokens (email account) access expires in
            ret true
        | None => ret false
        end in
      let* results := forceRefreshLoop rest in
      ret ((email account, ok) :: results)
  end.

Definition forceRefreshAll : M (list (string * bool)) :=
  let* all := getAllAccounts in
  forceRefreshLoop all.

(** The body of that loop for one account. *)
Definition forceOne (account : AntigravityAccount) : M bool :=
  match refreshAccessToken (refreshToken account) with
  | Some (access, expires) =>
      let* _ := updateAccountTokens (email account) access expires in
      ret true
  | None => ret false
  end.

(** What a forced refresh leaves of the account [before]. *)
Definition forceRefreshed (before after : AntigravityAccount) : Prop :=
  match refreshAccessToken (refreshToken before) with
  | Some (access, expires) =>
      accessToken after = access /\ expiresAt after = expires
      /\ failureCount after = Some 0
      /\ isRateLimited after = isRateLimited before
      /\ rateLimitedUntil after = rateLimitedUntil before
      /\ requestCount after = requestCount before
  | None => after = before
  end.

Definition refreshSucceeds (account : AntigravityAccount) : bool :=
  match refreshAccessToken (refreshToken account) with
  | Some _ => true
  | None => false
  end.

End ForcedRefresh.

(** ** The first rotator (rotator.ts next to types.ts) and the provider

    The earlier [AccountRotator]: no clock-driven clearing, no circuit
    breaker.  Its selectors are the ones above. *)

Module Legacy.

Definition getNextAccount : M (option AntigravityAccount) :=
  let* accts := getAll in
  let available := List.filter isAvailable accts in
  if length available =? 0 then ret None
  else
    fun w =>
      match strategy w with
      | RoundRobin => selectRoundRobin available w
      | Priority => (selectPriority available, w)
      | LeastUsed => (selectLeastUsed available, w)
      | Failover => (selectFailover available, w)
      end.

Definition reportSuccess (e : string) : M unit :=
  let* account := getAccount e in
  match account with
  | Some a =>
      let* t := dateNow in
      updateAccount e
        (mkPatch None None None (Some t) (Some (or_zero (requestCount a) + 1))
                 (Some 0) (Some false) None None)
  | None => ret tt
  end.

Definition reportFailure (e : string) (isRateLimit : bool) : M unit :=
  let* account := getAccount e in
  match account with
  | Some a =>
      updateAccount e
        (mkPatch None None None None None
                 (Some (or_zero (failureCount a) + 1))
                 (if isRateLimit then Some true else None) None None)
  | None => ret tt
  end.

(** [n] consecutive failures that are not rate-limit reports. *)
Fixpoint failTimes (n : nat) (e : string) : M unit :=
  match n with
  | 0 => ret tt
  | S n' => let* _ := reportFailure e false in failTimes n' e
  end.

Section Provider.

(** The credential refresher of cli-auth.js. *)
Variable refreshAccessToken : string -> option (string * Z).

(** [AntigravityMultiProvider] (index.ts of providers/antigravity-multi)
    uses of its rotator only [getNextAccount] and the two-argument
    [reportFailure]; it is taken over the first rotator, which it was
    written for.  What [getCredential] hands out: *)
Record Credential := mkCredential {
  c_accessToken : string;
  c_projectId : option string;
  c_email : string
}.

(** The loop of [AntigravityMultiProvider.getCredential]; [remaining] is
    [maxAttempts - attempts]. *)
Fixpoint getCredentialLoop (remaining : nat) : M (option Credential) :=
  match remaining with
  | 0 => ret None
  | S remaining' =>
      let* selected := getNextAccount in
      match selected with
      | None => ret None
      | Some account =>
          let* t := dateNow in
          if (expiresAt account <? t)%Z then
            match refreshAccessToken (refreshToken account) with
            | Some (access, expires) =>
                let* _ := updateAccount (email account)
                            (mkPatch (Some access) (Some expires) None None
                                     None (Some 0) None None None) in
                ret (Some (mkCredential access (projectId account)
                             (email account)))
            | None =>
                let* _ := reportFailure (email account) false in
                getCredentialLoop remaining'
            end
          else
            ret (Some (mkCredential (accessToken account)
                         (projectId account) (email account)))
      end
  end.

Definition getCredential : M (option Credential) := getCredentialLoop 3.

End Provider.

End Legacy.

(** ** [refreshOAuth] of the extension (index.ts) *)

(** The credential the hook returns, or the error it throws; the fields of
    [cred] that are passed through are left out. *)
Inductive OAuthResult :=
| OAuthCredential (access refresh : string) (expires : Z) (e : string)
                  (project : option string)
| NoAvailableAccounts
| RefreshFailed.

Definition credentialOf (a : AntigravityAccount) : OAuthResult :=
  OAuthCredential (accessToken a) (refreshToken a) (expiresAt a) (email a)
                  (projectId a).

Section RefreshOAuth.

Variable refreshAccessToken : string -> option (string * Z).

Definition refreshOAuth : M OAuthResult :=
  let* selected := getNextAccount in
  match selected with
  | None => ret NoAvailableAccounts
  | Some account =>
      let* t := dateNow in
      if (expiresAt account <? t + TOKEN_EXPIRY_THRESHOLD_MS)%Z then
        match refreshAccessToken (refreshToken account) with
        | Some (access, expires) =>
            let* _ := updateAccountTokens (email account) access expires in
            ret (OAuthCredential access (refreshToken account) expires
                   (email account) (projectId account))
        | None =>
            let* circuitBroken :=
              reportFailure (email account) false RATE_LIMIT_COOLDOWN_MS in
            if circuitBroken then
              let* nextAccount := getNextAccount in
              match nextAccount with
              | Some next =>
                  if negb (String.eqb (email next) (email account))
                  then ret (credentialOf next)
                  else ret RefreshFailed
              | None => ret RefreshFailed
              end
            else ret RefreshFailed
        end
      else
        let* _ := reportSuccess (email account) in
        ret (credentialOf account)
  end.

End RefreshOAuth.

(** * Vocabulary of the further properties *)

(** An account whose token expired long ago, and a refresher that always
    fails. *)
Definition stale : AntigravityAccount :=
  mkAccount "alice@example.com" "access" "refresh" 5 None (Some 1%Z) None
            (Some 0) (Some 0) (Some false) None None.

Definition neverFresh (token : string) : option (string * Z) := None.

(** [n] consecutive calls of [getNextAccount], with their results. *)
Fixpoint selectTimes (n : nat) : M (list (option AntigravityAccount)) :=
  match n with
  | 0 => ret []
  | S n' =>
      let* r := getNextAccount in
      let* rs := selectTimes n' in
      ret (r :: rs)
  end.

(** No stored account is rate limited. *)
Definition allAvailable (s : Store) : Prop :=
  forall k a, In (k, a) s -> truthyB (isRateLimited a) = false.

(** [m] relates the store it starts from to the store it leaves by [R]. *)
Definition storeRel (R : Store -> Store -> Prop) {A : Type} (m : M A) : Prop :=
  forall w, R (accounts w) (accounts (snd (m w))).

(** Every account has the same [requestCount] in both stores. *)
Definition sameRequestCounts (s s' : Store) : Prop :=
  forall k,
    option_map requestCount (map_get k s')
    = option_map requestCount (map_get k s).

(** Both stores have the same keys in the same order, and the second one is
    well formed when the first one is. *)
Definition sameKeys (s s' : Store) : Prop :=
  map fst s' = map fst s /\ (store_ok s = true -> store_ok s' = true).

(** * Properties *)

(** ** The store *)

Lemma map_get_set_eq k v s : map_get k (map_set k v s) = Some v.
Proof.
  induction s as [|[k' a] s IH]; simpl.
  - now rewrite String.eqb_refl.
  - destruct (String.eqb k k') eqn:E; simpl; rewrite E; auto.
Qed.

Lemma map_get_set_ne k k' v s :
  k <> k' -> map_get k' (map_set k v s) = map_get k' s.
Proof.
  intros Hne. induction s as [|[k0 a] s IH]; simpl.
  - destruct (String.eqb k' k) eqn:E; auto.
    apply String.eqb_eq in E. congruence.
  - destruct (String.eqb k k0) eqn:E; simpl.
    + apply String.eqb_eq in E. subst k0.
      destruct (String.eqb k' k) eqn:E'; auto.
      apply String.eqb_eq in E'. congruence.
    + now rewrite IH.
Qed.

Lemma map_set_keys k v s :
  map_get k s <> None -> map fst (map_set k v s) = map fst s.
Proof.
  induction s as [|[k' a] s IH]; simpl; [congruence|].
  destruct (String.eqb k k') eqn:E; simpl; auto.
  intros H. now rewrite IH.
Qed.

Lemma distinct_NoDup ks : distinct ks = true <-> NoDup ks.
Proof.
  induction ks as [|k ks IH]; simpl.
  - split; auto using NoDup_nil.
  - rewrite andb_true_iff, negb_true_iff, IH. split.
    + intros [Hex Hnd]. constructor; auto.
      intros Hin. assert (existsb (String.eqb k) ks = true) as Habs; [|congruence].
      apply existsb_exists. exists k. split; auto. apply String.eqb_refl.
    + intros Hnd. inversion Hnd as [|? ? Hnotin Hnd']; subst. split; auto.
      destruct (existsb (String.eqb k) ks) eqn:E; auto.
      apply existsb_exists in E. destruct E as (k' & Hin & Heq).
      apply String.eqb_eq in Heq. subst k'. contradiction.
Qed.

Lemma store_ok_spec s :
  store_ok s = true <-> NoDup (map fst s) /\ keyed s.
Proof.
  unfold store_ok, keyed. rewrite andb_true_iff, distinct_NoDup.
  rewrite forallb_forall, Forall_forall.
  split; intros [Hnd Hk]; split; auto; intros ka Hin.
  - now apply String.eqb_eq, Hk.
  - apply String.eqb_eq. now apply Hk.
Qed.

Lemma map_get_app_fresh k (pre s : Store) :
  ~ In k (map fst pre) -> map_get k (pre ++ s) = map_get k s.
Proof.
  induction pre as [|[k' a] pre IH]; simpl; auto.
  intros Hnotin. destruct (String.eqb k k') eqn:E.
  - apply String.eqb_eq in E. subst. tauto.
  - apply IH. tauto.
Qed.

Lemma map_set_app_fresh k v (pre s : Store) :
  ~ In k (map fst pre) -> map_set k v (pre ++ s) = pre ++ map_set k v s.
Proof.
  induction pre as [|[k' a] pre IH]; simpl; auto.
  intros Hnotin. destruct (String.eqb k k') eqn:E.
  - apply String.eqb_eq in E. subst. tauto.
  - rewrite IH; tauto.
Qed.

Lemma map_get_In k a s : map_get k s = Some a -> In (k, a) s.
Proof.
  induction s as [|[k' a'] s IH]; simpl; [discriminate|].
  destruct (String.eqb k k') eqn:E.
  - apply String.eqb_eq in E. subst k'. intros [= ->]. now left.
  - intros H. right. now apply IH.
Qed.

Lemma In_map_get k a s : NoDup (map fst s) -> In (k, a) s -> map_get k s = Some a.
Proof.
  induction s as [|[k' a'] s IH]; simpl; [tauto|].
  intros Hnd [Heq|Hin]; inversion Hnd as [|? ? Hnotin Hnd']; subst.
  - injection Heq as -> ->. now rewrite String.eqb_refl.
  - destruct (String.eqb k k') eqn:E; auto.
    apply String.eqb_eq in E. subst k'.
    exfalso. apply Hnotin. apply in_map_iff. now exists (k, a).
Qed.

(** ** Outcome reporting *)

Lemma reportFailure_present w e a isRateLimit cooldownMs :
  map_get e (accounts w) = Some a ->
  let n := or_zero (failureCount a) + 1 in
  let broken := CIRCUIT_BREAKER_THRESHOLD <=? n in
  reportFailure e isRateLimit cooldownMs w =
  (broken,
   if isRateLimit || broken then
     with_accounts
       (map_set e
          (spread a (mkPatch None None None (Some (now w)) None (Some n)
                       (Some true)
                       (Some (Some (now (tick w) + cooldownMs)%Z)) None))
          (accounts w))
       (tick (tick w))
   else
     with_accounts
       (map_set e
          (spread a (mkPatch None None None (Some (now w)) None (Some n)
                       None None None))
          (accounts w))
       (tick w)).
Proof.
  intros Hget n broken.
  unfold reportFailure, bind, getAccount, dateNow, ret. rewrite Hget.
  fold n. fold broken.
  destruct (isRateLimit || broken); unfold updateAccount; simpl;
    rewrite Hget; reflexivity.
Qed.

Lemma reportFailure_absent w e isRateLimit cooldownMs :
  map_get e (accounts w) = None ->
  reportFailure e isRateLimit cooldownMs w = (false, w).
Proof.
  intros Hget. unfold reportFailure, bind, getAccount, ret.
  now rewrite Hget.
Qed.

Lemma reportFailure_step w e a isRateLimit cooldownMs :
  map_get e (accounts w) = Some a ->
  exists a',
    accountAfter (reportFailure e isRateLimit cooldownMs) e w = Some a'
    /\ failureCount a' = Some (or_zero (failureCount a) + 1)
    /\ lastUsed a' = Some (now w)
    /\ (if isRateLimit || (3 <=? or_zero (failureCount a) + 1)
        then isRateLimited a' = Some true
             /\ rateLimitedUntil a' = Some (now (tick w) + cooldownMs)%Z
        else isRateLimited a' = isRateLimited a
             /\ rateLimitedUntil a' = rateLimitedUntil a).
Proof.
  intros Hget. unfold accountAfter.
  rewrite (reportFailure_present w e a isRateLimit cooldownMs Hget).
  fold CIRCUIT_BREAKER_THRESHOLD.
  destruct (isRateLimit
            || (CIRCUIT_BREAKER_THRESHOLD <=? or_zero (failureCount a) + 1));
    simpl; rewrite map_get_set_eq; eexists; split; try reflexivity;
    simpl; auto.
Qed.

Lemma reportFailure_keeps w e a isRateLimit cooldownMs :
  map_get e (accounts w) = Some a ->
  exists a',
    accountAfter (reportFailure e isRateLimit cooldownMs) e w = Some a'
    /\ failureCount a' = Some (or_zero (failureCount a) + 1)
    /\ accessToken a' = accessToken a
    /\ expiresAt a' = expiresAt a.
Proof.
  intros Hget. unfold accountAfter.
  rewrite (reportFailure_present w e a isRateLimit cooldownMs Hget).
  destruct (isRateLimit
            || (CIRCUIT_BREAKER_THRESHOLD <=? or_zero (failureCount a) + 1));
    simpl; rewrite map_get_set_eq; eexists; split; try reflexivity;
    simpl; auto.
Qed.

(** C1. For an account present in the store, [reportFailure] stores the
    incremented [failureCount] and sets [lastUsed] to the clock read; it sets
    [isRateLimited = true] and [rateLimitedUntil] = (the next clock read) +
    [cooldownMs] exactly when [isRateLimit] holds or the incremented count is
    at least 3, and leaves both fields as they were otherwise.  Hence three
    consecutive calls leave the account rate limited, and two consecutive
    calls (not themselves rate-limit reports) on an account with no failure
    and no rate limit do not. *)
Theorem reportFailure_circuit_breaker (w : World) (e : string)
    (a : AntigravityAccount) :
  map_get e (accounts w) = Some a ->
  (forall isRateLimit cooldownMs,
      exists a',
        accountAfter (reportFailure e isRateLimit cooldownMs) e w = Some a'
        /\ failureCount a' = Some (or_zero (failureCount a) + 1)
        /\ lastUsed a' = Some (now w)
        /\ (if isRateLimit || (3 <=? or_zero (failureCount a) + 1)
            then isRateLimited a' = Some true
                 /\ rateLimitedUntil a' = Some (now (tick w) + cooldownMs)%Z
            else isRateLimited a' = isRateLimited a
                 /\ rateLimitedUntil a' = rateLimitedUntil a))
  /\ (forall b1 b2 b3 c1 c2 c3,
        exists a3,
          accountAfter (let* _ := reportFailure e b1 c1 in
                        let* _ := reportFailure e b2 c2 in
                        reportFailure e b3 c3) e w = Some a3
          /\ isRateLimited a3 = Some true)
  /\ (or_zero (failureCount a) = 0 -> truthyB (isRateLimited a) = false ->
      forall c1 c2,
        exists a2,
          accountAfter (let* _ := reportFailure e false c1 in
                        reportFailure e false c2) e w = Some a2
          /\ failureCount a2 = Some 2
          /\ truthyB (isRateLimited a2) = false).
Proof.
  intros Hget. split; [|split].
  - intros b c. now apply reportFailure_step.
  - intros b1 b2 b3 c1 c2 c3.
    destruct (reportFailure_step w e a b1 c1 Hget) as (a1 & G1 & F1 & _).
    unfold accountAfter in *. unfold bind.
    destruct (reportFailure e b1 c1 w) as [r1 w1]. simpl in G1.
    destruct (reportFailure_step w1 e a1 b2 c2 G1) as (a2 & G2 & F2 & _).
    unfold accountAfter in G2.
    destruct (reportFailure e b2 c2 w1) as [r2 w2]. simpl in G2.
    destruct (reportFailure_step w2 e a2 b3 c3 G2) as (a3 & G3 & _ & _ & L3).
    exists a3. split; [exact G3|].
    assert (Hb : (3 <=? or_zero (failureCount a2) + 1) = true).
    { rewrite F2. cbn [or_zero]. apply Nat.leb_le. rewrite F1. cbn [or_zero]. lia. }
    rewrite Hb, orb_true_r in L3. tauto.
  - intros Hzero Hfree c1 c2.
    destruct (reportFailure_step w e a false c1 Hget) as (a1 & G1 & F1 & _ & L1).
    unfold accountAfter in *. unfold bind.
    destruct (reportFailure e false c1 w) as [r1 w1]. simpl in G1.
    destruct (reportFailure_step w1 e a1 false c2 G1) as (a2 & G2 & F2 & _ & L2).
    exists a2. split; [exact G2|].
    rewrite Hzero in *. rewrite F1 in *. simpl in *.
    destruct L1 as [L1 _], L2 as [L2 _]. split; [exact F2|].
    now rewrite L2, L1.
Qed.

Lemma reportFailure_circuit_breaker_witness :
  map_get "bob@example.com" (accounts (sampleWorld twoAccounts RoundRobin))
  = Some bob
  /\ exists a3,
      accountAfter (let* _ := reportFailure "bob@example.com" false 60000 in
                    let* _ := reportFailure "bob@example.com" false 60000 in
                    reportFailure "bob@example.com" false 60000)
        "bob@example.com" (sampleWorld twoAccounts RoundRobin) = Some a3
      /\ isRateLimited a3 = Some true.
Proof.
  split; [reflexivity|].
  apply (proj1 (proj2 (reportFailure_circuit_breaker
                         (sampleWorld twoAccounts RoundRobin)
                         "bob@example.com" bob eq_refl))).
Defined.

(** ** Selection *)

Lemma with_accounts_twice s1 s2 w :
  with_accounts s1 (with_accounts s2 w) = with_accounts s1 w.
Proof. reflexivity. Qed.

Lemma clearLoop_spec t (s : Store) :
  forall (pre : Store) c w,
    NoDup (map fst (pre ++ s)) -> keyed s -> accounts w = pre ++ s ->
    clearLoop t (map_values s) c w =
    (c + length (List.filter (expired t) (map_values s)),
     with_accounts (pre ++ clearStore t s) w).
Proof.
  induction s as [|[k a] s IH]; intros pre c w Hnd Hk Hacc.
  - simpl. unfold ret. rewrite Nat.add_0_r. f_equal.
    destruct w; simpl in *. now subst.
  - inversion Hk as [|? ? Hka Hk']; subst. simpl in Hka.
    assert (Hfresh : ~ In k (map fst pre)).
    { rewrite map_app in Hnd. simpl in Hnd.
      apply NoDup_remove_2 in Hnd. intros Hin. apply Hnd.
      apply in_or_app. now left. }
    assert (Hnd' : forall a', NoDup (map fst ((pre ++ [(k, a')]) ++ s))).
    { intros a'. rewrite <- app_assoc. simpl.
      rewrite map_app in *. exact Hnd. }
    simpl. unfold clearOne at 1. destruct (expired t a) eqn:He.
    + unfold bind, updateAccount. rewrite Hka, Hacc.
      rewrite map_get_app_fresh by exact Hfresh. simpl.
      rewrite String.eqb_refl.
      rewrite map_set_app_fresh by exact Hfresh. simpl.
      rewrite String.eqb_refl.
      rewrite (IH (pre ++ [(k, spread a clearPatch)])); auto.
      * rewrite with_accounts_twice, <- app_assoc. simpl.
        f_equal. lia.
      * simpl. now rewrite <- app_assoc.
    + rewrite (IH (pre ++ [(k, a)])); auto.
      * now rewrite <- app_assoc.
      * rewrite Hacc. now rewrite <- app_assoc.
Qed.

Lemma clearExpiredRateLimits_spec w :
  store_ok (accounts w) = true ->
  snd (clearExpiredRateLimits w) =
  with_accounts (clearStore (now w) (accounts w)) (tick w).
Proof.
  intros Hok. apply store_ok_spec in Hok. destruct Hok as [Hnd Hk].
  unfold clearExpiredRateLimits, bind, getAll, dateNow.
  rewrite (clearLoop_spec (clock w (reads w)) (accounts w) [] 0 (tick w));
    auto.
Qed.

Lemma getNextAccount_store w :
  store_ok (accounts w) = true ->
  accounts (snd (getNextAccount w)) = clearStore (now w) (accounts w).
Proof.
  intros Hok. pose proof (clearExpiredRateLimits_spec w Hok) as Hc.
  unfold getNextAccount, bind.
  destruct (clearExpiredRateLimits w) as [n w1]. simpl in Hc. subst w1.
  unfold getAll. cbn [accounts with_accounts].
  destruct (length _ =? 0).
  - destruct (0 <? length _); reflexivity.
  - cbn [strategy with_accounts tick]. destruct (strategy w); reflexivity.
Qed.

Lemma getNextAccount_result w :
  store_ok (accounts w) = true ->
  fst (getNextAccount w) =
  match candidates w with
  | [] => None
  | _ :: _ =>
      match strategy w with
      | RoundRobin =>
          nth_error (candidates w)
            (if length (candidates w) <=? currentRoundRobinIndex w
             then 0 else currentRoundRobinIndex w)
      | Priority => selectPriority (candidates w)
      | LeastUsed => selectLeastUsed (candidates w)
      | Failover => selectFailover (candidates w)
      end
  end.
Proof.
  intros Hok. pose proof (clearExpiredRateLimits_spec w Hok) as Hc.
  unfold getNextAccount, bind.
  destruct (clearExpiredRateLimits w) as [n w1]. simpl in Hc. subst w1.
  unfold getAll. cbn [accounts with_accounts]. fold (candidates w).
  destruct (candidates w) as [|c cs] eqn:Hcand.
  - simpl. destruct (0 <? length _); reflexivity.
  - cbn [length Nat.eqb strategy with_accounts tick].
    destruct (strategy w); reflexivity.
Qed.

Lemma map_get_clearStore t k s :
  map_get k (clearStore t s) = option_map (clearOne t) (map_get k s).
Proof.
  induction s as [|[k' a] s IH]; simpl; auto.
  destruct (String.eqb k k'); auto.
Qed.

Lemma clearStore_keys t s : map fst (clearStore t s) = map fst s.
Proof.
  unfold clearStore. rewrite map_map. reflexivity.
Qed.

Lemma clearStore_id t s :
  (forall k a, In (k, a) s -> expired t a = false) -> clearStore t s = s.
Proof.
  induction s as [|[k a] s IH]; simpl; auto.
  intros H. unfold clearOne. rewrite (H k a) by auto.
  f_equal. apply IH. intros k' a' Hin. apply (H k' a'). auto.
Qed.

(** C2, as stated, fails: a rate-limit report that does not reach the
    threshold returns [false], and a failure beyond the threshold returns
    [true]. *)
Lemma reportFailure_returns_counterexample :
  let w := sampleWorld
             [("alice@example.com", alice); ("carol@example.com", carol)]
             RoundRobin in
  (fst (reportFailure "alice@example.com" true 60000 w) = false
   /\ claimedResult alice true = true)
  /\ (fst (reportFailure "carol@example.com" false 60000 w) = true
      /\ claimedResult carol false = false).
Proof. repeat split; reflexivity. Qed.

(** C2 (amended). [reportFailure] returns [true] exactly when the account is
    present and its incremented [failureCount] is at least the threshold 3,
    whatever [isRateLimit] is; for an absent email it returns [false]. *)
Theorem reportFailure_returns (w : World) (e : string) (isRateLimit : bool)
    (cooldownMs : Z) :
  fst (reportFailure e isRateLimit cooldownMs w) =
  match map_get e (accounts w) with
  | Some a => CIRCUIT_BREAKER_THRESHOLD <=? or_zero (failureCount a) + 1
  | None => false
  end.
Proof.
  destruct (map_get e (accounts w)) as [a|] eqn:Hget.
  - now rewrite (reportFailure_present w e a isRateLimit cooldownMs Hget).
  - now rewrite (reportFailure_absent w e isRateLimit cooldownMs Hget).
Qed.

(** C3, as stated, fails: a selection writes to the store when a rate limit
    has expired, under each of the four strategies. *)
Lemma getNextAccount_writes_counterexample :
  carolCleared RoundRobin /\ carolCleared Priority
  /\ carolCleared LeastUsed /\ carolCleared Failover.
Proof.
  repeat split; try reflexivity; eexists; repeat split; reflexivity.
Qed.

(** C3 (amended). Under every strategy the only write of a selection is the
    lazy clearing of expired rate limits: the keys of the store and their
    order stay; an account whose rate limit has not expired at the clock read
    is identical before and after; an expired one changes in
    [isRateLimited], [rateLimitedUntil] and [failureCount] only; and when no
    rate limit has expired the store is unchanged. *)
Theorem getNextAccount_writes_only_clear (w : World) :
  store_ok (accounts w) = true ->
  let w' := snd (getNextAccount w) in
  map fst (accounts w') = map fst (accounts w)
  /\ (forall k a,
        map_get k (accounts w) = Some a ->
        exists a',
          map_get k (accounts w') = Some a'
          /\ (expired (now w) a = false -> a' = a)
          /\ (expired (now w) a = true ->
              isRateLimited a' = Some false /\ rateLimitedUntil a' = None
              /\ failureCount a' = Some 0)
          /\ email a' = email a /\ accessToken a' = accessToken a
          /\ refreshToken a' = refreshToken a /\ expiresAt a' = expiresAt a
          /\ projectId a' = projectId a /\ priority a' = priority a
          /\ lastUsed a' = lastUsed a /\ requestCount a' = requestCount a
          /\ lastRefreshed a' = lastRefreshed a)
  /\ ((forall k a, In (k, a) (accounts w) -> expired (now w) a = false) ->
      accounts w' = accounts w).
Proof.
  intros Hok w'. subst w'. rewrite (getNextAccount_store w Hok).
  split; [apply clearStore_keys|]. split.
  - intros k a Hget. rewrite map_get_clearStore, Hget. simpl.
    eexists. split; [reflexivity|]. unfold clearOne.
    destruct (expired (now w) a); repeat split; auto; discriminate.
  - apply clearStore_id.
Qed.

Lemma getNextAccount_writes_only_clear_witness :
  store_ok (accounts (sampleWorld twoAccounts Priority)) = true
  /\ accounts (snd (getNextAccount (sampleWorld twoAccounts Priority)))
     = twoAccounts.
Proof.
  split; [reflexivity|].
  apply (proj2 (proj2 (getNextAccount_writes_only_clear
                         (sampleWorld twoAccounts Priority) eq_refl))).
  intros k a [H|[H|[]]]; injection H as <- <-; reflexivity.
Defined.

(** ** Sorting and the selectors *)

Lemma sort_insert_In {A : Type} (compareFn : A -> A -> Z) x y l :
  In y (sort_insert compareFn x l) <-> y = x \/ In y l.
Proof.
  induction l as [|z l IH]; simpl.
  - intuition.
  - destruct (compareFn x z <=? 0)%Z; simpl; [intuition|].
    rewrite IH. intuition.
Qed.

Lemma array_sort_In {A : Type} (compareFn : A -> A -> Z) y l :
  In y (array_sort compareFn l) <-> In y l.
Proof.
  induction l as [|x l IH]; simpl; [tauto|].
  rewrite sort_insert_In, IH. intuition.
Qed.

Lemma array_sort_head {A : Type} (compareFn : A -> A -> Z) x l :
  exists r, head (array_sort compareFn (x :: l)) = Some r /\ In r (x :: l).
Proof.
  destruct (array_sort compareFn (x :: l)) as [|r rest] eqn:E.
  - assert (In x (array_sort compareFn (x :: l))) as Hin
        by (apply array_sort_In; now left).
    rewrite E in Hin. destruct Hin.
  - exists r. split; [reflexivity|].
    apply (array_sort_In compareFn). rewrite E. now left.
Qed.

(** With a comparator [key b - key a] (descending by [key]) the head of the
    sorted array is the first element of maximal key. *)
Lemma array_sort_head_first_max {A : Type} (key : A -> Z) (l : list A) :
  l <> [] ->
  exists l1 r l2,
    l = l1 ++ r :: l2
    /\ head (array_sort (fun a b => key b - key a)%Z l) = Some r
    /\ (forall c, In c l1 -> (key c < key r)%Z)
    /\ (forall c, In c l2 -> (key c <= key r)%Z).
Proof.
  induction l as [|x xs IH]; [congruence|]. intros _.
  destruct xs as [|x' xs'].
  - exists [], x, []. simpl. repeat split; auto; intros c [].
  - destruct IH as (l1 & r & l2 & Hsplit & Hhead & Hlt & Hle); [congruence|].
    remember (x' :: xs') as xs eqn:Hxs.
    cbn [array_sort].
    destruct (array_sort (fun a b => key b - key a)%Z xs)
      as [|r' rest]; [discriminate|].
    injection Hhead as ->.
    cbn [sort_insert]. destruct (key r - key x <=? 0)%Z eqn:E.
    + apply Z.leb_le in E.
      exists [], x, xs. repeat split; auto; [intros c []|].
      intros c Hin. rewrite Hsplit in Hin. apply in_app_or in Hin.
      destruct Hin as [Hin|[<-|Hin]].
      * specialize (Hlt c Hin). lia.
      * lia.
      * specialize (Hle c Hin). lia.
    + apply Z.leb_gt in E.
      exists (x :: l1), r, l2. rewrite Hsplit.
      repeat split; auto. intros c [<-|Hin]; [lia|]. now apply Hlt.
Qed.

Lemma selector_In w c cs :
  exists r,
    match strategy w with
    | RoundRobin =>
        nth_error (c :: cs)
          (if length (c :: cs) <=? currentRoundRobinIndex w
           then 0 else currentRoundRobinIndex w)
    | Priority => selectPriority (c :: cs)
    | LeastUsed => selectLeastUsed (c :: cs)
    | Failover => selectFailover (c :: cs)
    end = Some r
    /\ In r (c :: cs).
Proof.
  destruct (strategy w).
  - destruct (length (c :: cs) <=? currentRoundRobinIndex w) eqn:E.
    + exists c. split; [reflexivity | now left].
    + apply Nat.leb_gt in E.
      destruct (nth_error (c :: cs) (currentRoundRobinIndex w)) as [r|] eqn:Hn.
      * exists r. split; auto. eapply nth_error_In; eauto.
      * apply nth_error_None in Hn. lia.
  - apply array_sort_head.
  - apply array_sort_head.
  - exists c. split; [reflexivity | now left].
Qed.

(** C6, as stated, fails.  With equal priorities the account that comes
    first in the store is returned although the other one was used earlier;
    and a priority of 0 is read as 1, so an account of priority 0 that comes
    first is returned before one of priority 1. *)
Lemma selectPriority_tie_counterexample :
  (let first := usedAt "alice@example.com" 5 2000 in
   let second := usedAt "bob@example.com" 5 1000 in
   let w := sampleWorld [("alice@example.com", first);
                         ("bob@example.com", second)] Priority in
   fst (getNextAccount w) = Some first
   /\ In second (candidates w)
   /\ priority second = priority first
   /\ lastUsed second = Some 1000%Z /\ lastUsed first = Some 2000%Z)
  /\ (let zero := usedAt "alice@example.com" 0 1000 in
      let one := usedAt "bob@example.com" 1 1000 in
      let w := sampleWorld [("alice@example.com", zero);
                            ("bob@example.com", one)] Priority in
      fst (getNextAccount w) = Some zero
      /\ In one (candidates w)
      /\ priority zero = Some 0%Z /\ priority one = Some 1%Z).
Proof.
  split.
  - repeat split; try reflexivity. right. now left.
  - repeat split; try reflexivity. right. now left.
Qed.

(** C6 (amended). Under the priority strategy a selection returns a
    candidate of maximal effective priority ([priority], an absent or zero
    one read as 1) among the accounts that are not rate limited after the
    lazy clearing, and among several of that priority the one that comes
    first in the order of the store; with no candidate it returns null. *)
Theorem selectPriority_first_maximal (w : World) :
  store_ok (accounts w) = true ->
  strategy w = Priority ->
  (candidates w = [] -> fst (getNextAccount w) = None)
  /\ (candidates w <> [] ->
      exists before r after,
        candidates w = before ++ r :: after
        /\ fst (getNextAccount w) = Some r
        /\ (forall c, In c before -> (effPriority c < effPriority r)%Z)
        /\ (forall c, In c after -> (effPriority c <= effPriority r)%Z)).
Proof.
  intros Hok Hstrat. rewrite (getNextAccount_result w Hok), Hstrat. split.
  - now intros ->.
  - intros Hne.
    destruct (array_sort_head_first_max effPriority (candidates w) Hne)
      as (l1 & r & l2 & Hsplit & Hhead & Hlt & Hle).
    exists l1, r, l2. repeat split; auto.
    destruct (candidates w); [congruence|]. exact Hhead.
Qed.

Lemma selectPriority_first_maximal_witness :
  store_ok (accounts (sampleWorld twoAccounts Priority)) = true
  /\ strategy (sampleWorld twoAccounts Priority) = Priority
  /\ candidates (sampleWorld twoAccounts Priority) <> []
  /\ exists before r after,
      candidates (sampleWorld twoAccounts Priority) = before ++ r :: after
      /\ fst (getNextAccount (sampleWorld twoAccounts Priority)) = Some r
      /\ (forall c, In c before -> (effPriority c < effPriority r)%Z)
      /\ (forall c, In c after -> (effPriority c <= effPriority r)%Z).
Proof.
  split; [reflexivity|]. split; [reflexivity|].
  split; [discriminate|].
  apply (proj2 (selectPriority_first_maximal
                  (sampleWorld twoAccounts Priority) eq_refl eq_refl)).
  discriminate.
Defined.

(** The example of the specification: with A of priority 1 and B of
    priority 5, B is returned. *)
Example selectPriority_example :
  fst (getNextAccount (sampleWorld twoAccounts Priority)) = Some bob.
Proof. reflexivity. Qed.

Lemma candidates_In w k a :
  map_get k (accounts w) = Some a ->
  isAvailable (clearOne (now w) a) = true ->
  In (clearOne (now w) a) (candidates w).
Proof.
  intros Hget Hav. unfold candidates. apply filter_In. split; auto.
  unfold map_values. apply in_map_iff.
  exists (k, clearOne (now w) a). split; auto.
  apply map_get_In. now rewrite map_get_clearStore, Hget.
Qed.

Lemma getNextAccount_some w :
  store_ok (accounts w) = true ->
  candidates w <> [] ->
  exists r, fst (getNextAccount w) = Some r /\ In r (candidates w).
Proof.
  intros Hok Hne. rewrite (getNextAccount_result w Hok).
  destruct (candidates w) as [|c cs]; [congruence|].
  apply selector_In.
Qed.

(** C7, as stated, fails for a deadline of 0: the test of the clearing loop
    reads [rateLimitedUntil] for truthiness first, so the account stays rate
    limited and the selection returns null. *)
Lemma expired_limit_counterexample :
  let epoch := limitedUntil "carol@example.com" 1 3 0 in
  let w := sampleWorld [("carol@example.com", epoch)] RoundRobin in
  isRateLimited epoch = Some true
  /\ rateLimitedUntil epoch = Some 0%Z
  /\ (0 <= now w)%Z
  /\ accountAfter getNextAccount "carol@example.com" w = Some epoch
  /\ fst (getNextAccount w) = None.
Proof. repeat split; try reflexivity. discriminate. Qed.

(** C7 (amended). An account with [isRateLimited = true] and a non-zero
    [rateLimitedUntil] at or before the time of the call is cleared by the
    very next selection before the candidates are filtered: its flag is
    false, its deadline is removed, its [failureCount] is 0, it is among the
    candidates, and the selection returns an account. *)
Theorem expired_limit_cleared (w : World) (k : string) (a : AntigravityAccount)
    (t : Z) :
  store_ok (accounts w) = true ->
  map_get k (accounts w) = Some a ->
  isRateLimited a = Some true ->
  rateLimitedUntil a = Some t ->
  t <> 0%Z ->
  (t <= now w)%Z ->
  exists a',
    accountAfter getNextAccount k w = Some a'
    /\ isRateLimited a' = Some false
    /\ rateLimitedUntil a' = None
    /\ failureCount a' = Some 0
    /\ In a' (candidates w)
    /\ fst (getNextAccount w) <> None.
Proof.
  intros Hok Hget Hlim Huntil Hnz Hpast.
  assert (Hexp : expired (now w) a = true).
  { unfold expired. rewrite Hlim, Huntil. simpl.
    apply andb_true_intro. split; [|now apply Z.leb_le].
    apply negb_true_iff. now apply Z.eqb_neq. }
  exists (clearOne (now w) a). unfold accountAfter.
  rewrite (getNextAccount_store w Hok), map_get_clearStore, Hget.
  split; [reflexivity|].
  assert (Hin : In (clearOne (now w) a) (candidates w)).
  { apply (candidates_In w k); auto. unfold clearOne. now rewrite Hexp. }
  unfold clearOne in *. rewrite Hexp in *. repeat split; auto.
  destruct (getNextAccount_some w Hok) as (r & Hr & _).
  - intros Hnil. now rewrite Hnil in Hin.
  - rewrite Hr. discriminate.
Qed.

Lemma expired_limit_cleared_witness :
  let w := sampleWorld [("carol@example.com", carol)] Failover in
  store_ok (accounts w) = true
  /\ map_get "carol@example.com" (accounts w) = Some carol
  /\ (500 <= now w)%Z
  /\ exists a',
      accountAfter getNextAccount "carol@example.com" w = Some a'
      /\ isRateLimited a' = Some false
      /\ rateLimitedUntil a' = None
      /\ failureCount a' = Some 0
      /\ In a' (candidates w)
      /\ fst (getNextAccount w) <> None.
Proof.
  intros w. split; [reflexivity|]. split; [reflexivity|].
  assert (Hpast : (500 <= now w)%Z) by (vm_compute; discriminate).
  split; [exact Hpast|].
  apply (expired_limit_cleared w "carol@example.com" carol 500
           eq_refl eq_refl eq_refl eq_refl);
    [discriminate | exact Hpast].
Defined.

(** ** Status handlers *)

Lemma handle5xx_retry w e a :
  map_get e (accounts w) = Some a ->
  or_zero (failureCount a) + 1 < CIRCUIT_BREAKER_THRESHOLD ->
  handle5xx e w =
  ((true, (2 ^ Z.of_nat (or_zero (failureCount a)) * 1000)%Z),
   with_accounts
     (map_set e
        (spread a (mkPatch None None None None None
                     (Some (or_zero (failureCount a) + 1)) None None None))
        (accounts w)) w).
Proof.
  intros Hget Hlt. unfold handle5xx, bind, getAccount. rewrite Hget.
  apply Nat.ltb_lt in Hlt. rewrite Hlt.
  unfold updateAccount, ret. rewrite Hget.
  now rewrite Nat.add_sub.
Qed.

Lemma handle5xx_trip w e a :
  map_get e (accounts w) = Some a ->
  CIRCUIT_BREAKER_THRESHOLD <= or_zero (failureCount a) + 1 ->
  handle5xx e w =
  ((false, 0%Z), snd (reportFailure e false RATE_LIMIT_COOLDOWN_MS w)).
Proof.
  intros Hget Hge. unfold handle5xx, bind, getAccount. rewrite Hget.
  apply Nat.ltb_ge in Hge. rewrite Hge.
  now destruct (reportFailure e false RATE_LIMIT_COOLDOWN_MS w).
Qed.

Lemma handleResponse_5xx status e retryAfterMs w :
  (500 <= status < 600)%Z ->
  handleResponse status e retryAfterMs w =
  (let* result := handle5xx e in
   if fst result then ret (mkResponse Retry None (Some (snd result)))
   else let* newAccount := getNextAccount in ret (switchOrFail newAccount)) w.
Proof.
  intros [Hlo Hhi]. unfold handleResponse.
  replace (status <? 300)%Z with false by (symmetry; apply Z.ltb_ge; lia).
  rewrite andb_false_r.
  replace (status =? 429)%Z with false by (symmetry; apply Z.eqb_neq; lia).
  replace (status =? 401)%Z with false by (symmetry; apply Z.eqb_neq; lia).
  replace (status =? 403)%Z with false by (symmetry; apply Z.eqb_neq; lia).
  replace (500 <=? status)%Z with true by (symmetry; apply Z.leb_le; lia).
  replace (status <? 600)%Z with true by (symmetry; apply Z.ltb_lt; lia).
  reflexivity.
Qed.

Lemma switchOrFail_not_retry n :
  action (switchOrFail n) <> Retry /\ delay (switchOrFail n) = None.
Proof. destruct n; split; simpl; auto; discriminate. Qed.

(** C4 (what the code does). For a stored account without failures, the
    first two consecutive 5xx outcomes are answered by retries with delays
    of 1000 ms and 2000 ms; the third is not a retry: it carries no delay,
    [handle5xx] reports the failure, and the account is left with
    [failureCount = 3] and [isRateLimited = true].  A delay of 4000 ms is
    never produced. *)
Theorem handle5xx_third_failure_switches (w : World) (e : string)
    (a : AntigravityAccount) (status : Z) :
  map_get e (accounts w) = Some a ->
  or_zero (failureCount a) = 0 ->
  (500 <= status < 600)%Z ->
  (exists r3,
      fst ((let* r1 := handleResponse status e None in
            let* r2 := handleResponse status e None in
            let* r3 := handleResponse status e None in
            ret (r1, r2, r3)) w)
      = (mkResponse Retry None (Some 1000%Z),
         mkResponse Retry None (Some 2000%Z), r3)
      /\ action r3 <> Retry /\ delay r3 = None)
  /\ (exists a3,
        fst ((let* r1 := handle5xx e in
              let* r2 := handle5xx e in
              let* r3 := handle5xx e in
              ret (r1, r2, r3)) w)
        = ((true, 1000%Z), (true, 2000%Z), (false, 0%Z))
        /\ accountAfter (let* _ := handle5xx e in
                         let* _ := handle5xx e in
                         handle5xx e) e w = Some a3
        /\ failureCount a3 = Some 3
        /\ isRateLimited a3 = Some true).
Proof.
  intros Hget Hzero Hrange.
  (* first failure *)
  assert (H1 := handle5xx_retry w e a Hget).
  rewrite Hzero in H1. specialize (H1 ltac:(unfold CIRCUIT_BREAKER_THRESHOLD; lia)).
  set (a1 := spread a _) in H1. set (w1 := with_accounts _ w) in H1.
  assert (Hget1 : map_get e (accounts w1) = Some a1)
    by (subst w1; simpl; apply map_get_set_eq).
  (* second failure *)
  assert (H2 := handle5xx_retry w1 e a1 Hget1).
  assert (Hf1 : or_zero (failureCount a1) = 1) by reflexivity.
  rewrite Hf1 in H2. specialize (H2 ltac:(unfold CIRCUIT_BREAKER_THRESHOLD; lia)).
  set (a2 := spread a1 _) in H2. set (w2 := with_accounts _ w1) in H2.
  assert (Hget2 : map_get e (accounts w2) = Some a2)
    by (subst w2; simpl; apply map_get_set_eq).
  (* third failure *)
  assert (H3 := handle5xx_trip w2 e a2 Hget2).
  assert (Hf2 : or_zero (failureCount a2) = 2) by reflexivity.
  rewrite Hf2 in H3. specialize (H3 ltac:(unfold CIRCUIT_BREAKER_THRESHOLD; lia)).
  destruct (reportFailure_step w2 e a2 false RATE_LIMIT_COOLDOWN_MS Hget2)
    as (a3 & G3 & F3 & _ & L3).
  rewrite Hf2 in F3, L3. simpl in L3. destruct L3 as [L3 _].
  unfold accountAfter in G3.
  split.
  - unfold bind. rewrite !handleResponse_5xx by exact Hrange.
    unfold bind. rewrite H1. cbn [fst snd ret Z.of_nat Z.pow Z.mul].
    rewrite handleResponse_5xx by exact Hrange.
    unfold bind. rewrite H2. cbn [fst snd ret].
    rewrite handleResponse_5xx by exact Hrange.
    unfold bind. rewrite H3. cbn [fst snd ret].
    destruct (getNextAccount _) as [n w4].
    eexists. split; [reflexivity|]. apply switchOrFail_not_retry.
  - exists a3. unfold accountAfter, bind. rewrite H1, H2, H3.
    cbn [fst snd ret]. repeat split; auto.
Qed.

Lemma handle5xx_third_failure_switches_witness :
  let w := sampleWorld twoAccounts RoundRobin in
  map_get "alice@example.com" (accounts w) = Some alice
  /\ or_zero (failureCount alice) = 0
  /\ (500 <= 503 < 600)%Z
  /\ fst ((let* r1 := handle5xx "alice@example.com" in
           let* r2 := handle5xx "alice@example.com" in
           let* r3 := handle5xx "alice@example.com" in
           ret (r1, r2, r3)) w)
     = ((true, 1000%Z), (true, 2000%Z), (false, 0%Z)).
Proof.
  intros w. split; [reflexivity|]. split; [reflexivity|]. split; [lia|].
  destruct (proj2 (handle5xx_third_failure_switches w "alice@example.com"
                     alice 503 eq_refl eq_refl ltac:(lia)))
    as (a3 & H & _).
  exact H.
Defined.

Lemma keyed_map_set k v s :
  keyed s -> email v = k -> keyed (map_set k v s).
Proof.
  intros Hk Hv. induction s as [|[k' a] s IH]; simpl.
  - constructor; auto.
  - pose proof (Forall_inv Hk) as Hka. pose proof (Forall_inv_tail Hk) as Hk'.
    destruct (String.eqb k k') eqn:E.
    + apply String.eqb_eq in E. constructor; auto. simpl. congruence.
    + constructor; auto. apply IH; auto.
Qed.

Lemma email_spread a u : email (spread a u) = email a.
Proof. reflexivity. Qed.

Lemma email_clearOne t a : email (clearOne t a) = email a.
Proof. unfold clearOne. now destruct (expired t a). Qed.

Lemma store_ok_map_set k a u s :
  store_ok s = true -> map_get k s = Some a ->
  store_ok (map_set k (spread a u) s) = true.
Proof.
  intros Hok Hget. apply store_ok_spec in Hok. destruct Hok as [Hnd Hk].
  apply store_ok_spec. split.
  - rewrite map_set_keys; auto. congruence.
  - apply keyed_map_set; auto. rewrite email_spread.
    apply map_get_In in Hget. unfold keyed in Hk.
    rewrite Forall_forall in Hk. exact (Hk (k, a) Hget).
Qed.

Lemma keyed_In k a s : keyed s -> In (k, a) s -> email a = k.
Proof.
  unfold keyed. rewrite Forall_forall. intros Hk Hin. exact (Hk (k, a) Hin).
Qed.

(** Where a candidate of a selection comes from. *)
Lemma candidates_inv w r :
  In r (candidates w) ->
  exists k b,
    In (k, b) (accounts w) /\ r = clearOne (now w) b /\ isAvailable r = true.
Proof.
  unfold candidates, map_values, clearStore. intros Hin.
  apply filter_In in Hin. destruct Hin as [Hin Hav].
  rewrite map_map in Hin. apply in_map_iff in Hin.
  destruct Hin as ([k b] & Heq & Hin). simpl in Heq.
  exists k, b. auto.
Qed.

Lemma handle429_unfold w e a retryAfterMs :
  map_get e (accounts w) = Some a ->
  handle429 e retryAfterMs w =
  getNextAccount
    (with_accounts
       (map_set e
          (rateLimitedBy a (readAt w 0)
             (readAt w 1 + or_default retryAfterMs RATE_LIMIT_COOLDOWN_MS)%Z)
          (accounts w))
       (tick (tick w))).
Proof.
  intros Hget. unfold handle429, bind.
  rewrite (reportFailure_present w e a true _ Hget). reflexivity.
Qed.

Lemma not_expired_before t a until :
  rateLimitedUntil a = Some until -> (t < until)%Z -> expired t a = false.
Proof.
  intros Hu Hlt. unfold expired. rewrite Hu.
  replace (until <=? t)%Z with false by (symmetry; apply Z.leb_gt; lia).
  apply andb_false_r.
Qed.

Section Handle429.

Variables (w : World) (e : string) (a : AntigravityAccount).
Variable retryAfterMs : option Z.

Let cooldown : Z := or_default retryAfterMs RATE_LIMIT_COOLDOWN_MS.
Let limited : AntigravityAccount :=
  rateLimitedBy a (readAt w 0) (readAt w 1 + cooldown)%Z.
Let w1 : World :=
  with_accounts (map_set e limited (accounts w)) (tick (tick w)).

Hypothesis Hok : store_ok (accounts w) = true.
Hypothesis Hget : map_get e (accounts w) = Some a.
(** The cooldown has not run out when the selection reads the clock. *)
Hypothesis Hcool : (readAt w 2 < readAt w 1 + cooldown)%Z.

Lemma handle429_w1_ok : store_ok (accounts w1) = true.
Proof. apply store_ok_map_set; auto. Qed.

Lemma handle429_limited_stays : clearOne (now w1) limited = limited.
Proof.
  unfold clearOne.
  rewrite (not_expired_before (now w1) limited (readAt w 1 + cooldown)%Z);
    auto.
Qed.

Lemma handle429_candidate_other r :
  In r (candidates w1) ->
  exists k b,
    In (k, b) (accounts w) /\ k <> e /\ r = clearOne (readAt w 2) b
    /\ isAvailable r = true /\ email r = k.
Proof.
  intros Hin. apply candidates_inv in Hin.
  destruct Hin as (k & b & Hin & Hr & Hav).
  pose proof handle429_w1_ok as Hok1.
  apply store_ok_spec in Hok1. destruct Hok1 as [Hnd1 Hk1].
  pose proof (In_map_get k b _ Hnd1 Hin) as Hgetk.
  pose proof (keyed_In k b _ Hk1 Hin) as Hemail.
  destruct (String.eqb e k) eqn:E.
  - apply String.eqb_eq in E. rewrite <- E in Hgetk. exfalso.
    unfold w1 in Hgetk. cbn [accounts with_accounts] in Hgetk.
    rewrite map_get_set_eq in Hgetk.
    injection Hgetk as <-. rewrite handle429_limited_stays in Hr.
    subst r. discriminate.
  - apply String.eqb_neq in E.
    unfold w1 in Hgetk. cbn [accounts with_accounts] in Hgetk.
    rewrite map_get_set_ne in Hgetk by exact E.
    exists k, b. repeat split; auto.
    + now apply map_get_In.
    + subst r. now rewrite email_clearOne.
Qed.

Lemma handle429_switch :
  (exists k b, In (k, b) (accounts w) /\ k <> e
               /\ isAvailable (clearOne (readAt w 2) b) = true) ->
  exists r,
    fst (handleResponse 429 e retryAfterMs w) = mkResponse Switch (Some r) None
    /\ email r <> e /\ In r (candidates w1).
Proof.
  intros (k & b & Hin & Hne & Hav).
  destruct (proj1 (store_ok_spec _) Hok) as [Hnd Hk].
  assert (Hgetk : map_get k (accounts w1) = Some b).
  { unfold w1. cbn [accounts with_accounts].
    rewrite map_get_set_ne by auto. now apply In_map_get. }
  pose proof (candidates_In w1 k b Hgetk Hav) as Hcand.
  destruct (getNextAccount_some w1 handle429_w1_ok) as (r & Hr & Hinr).
  { intros Hnil. now rewrite Hnil in Hcand. }
  exists r. unfold handleResponse. simpl. unfold bind.
  rewrite (handle429_unfold w e a retryAfterMs Hget). fold cooldown limited w1.
  destruct (getNextAccount w1) as [n w2]. simpl in Hr. subst n.
  split; [reflexivity|]. split; auto.
  destruct (handle429_candidate_other r Hinr) as (k' & b' & _ & Hne' & _ & _ & He).
  congruence.
Qed.

Lemma handle429_fail :
  (forall k b, In (k, b) (accounts w) -> k <> e ->
               isAvailable (clearOne (readAt w 2) b) = false) ->
  fst (handleResponse 429 e retryAfterMs w) = mkResponse Fail None None.
Proof.
  intros Hnone.
  assert (Hnil : candidates w1 = []).
  { destruct (candidates w1) as [|c cs] eqn:Hc; auto. exfalso.
    destruct (handle429_candidate_other c) as (k & b & Hin & Hne & Hr & Hav & _).
    { rewrite Hc. now left. }
    subst c. rewrite (Hnone k b Hin Hne) in Hav. discriminate. }
  pose proof (getNextAccount_result w1 handle429_w1_ok) as Hres.
  rewrite Hnil in Hres.
  unfold handleResponse. simpl. unfold bind.
  rewrite (handle429_unfold w e a retryAfterMs Hget). fold cooldown limited w1.
  destruct (getNextAccount w1) as [n w2]. simpl in Hres. now subst n.
Qed.

Lemma handle429_marks :
  accountAfter (handleResponse 429 e retryAfterMs) e w = Some limited.
Proof.
  unfold accountAfter, handleResponse. simpl. unfold bind.
  rewrite (handle429_unfold w e a retryAfterMs Hget). fold cooldown limited w1.
  pose proof (getNextAccount_store w1 handle429_w1_ok) as Hst.
  destruct (getNextAccount w1) as [n w2]. unfold ret. cbn [fst snd] in *.
  rewrite Hst.
  rewrite map_get_clearStore.
  replace (map_get e (accounts w1)) with (Some limited)
    by (symmetry; apply map_get_set_eq).
  cbn [option_map]. now rewrite handle429_limited_stays.
Qed.

End Handle429.

(** C5, as stated, fails: with two accounts in the store, the second one
    disabled until a far-away deadline, a 429 on the first one ends in
    [fail], not in a switch. *)
Lemma handle429_two_accounts_counterexample :
  let w := sampleWorld
             [("alice@example.com", alice);
              ("bob@example.com", limitedUntil "bob@example.com" 5 3 99999999999)]
             RoundRobin in
  length (accounts w) = 2
  /\ map_get "alice@example.com" (accounts w) = Some alice
  /\ fst (handleResponse 429 "alice@example.com" None w)
     = mkResponse Fail None None.
Proof. repeat split; reflexivity. Qed.

(** C5 (amended). A 429 for a stored account marks it rate limited, with the
    cooldown [retryAfterMs] when that is supplied and not zero and the 60 s
    default otherwise.  As long as the cooldown has not run out when the
    selection reads the clock, the answer is a switch to an account other
    than the failing one whenever some other account is available (not rate
    limited once expired limits are cleared), and [fail] when no other
    account is available, in particular when the failing account is the only
    one. *)
Theorem handle429_rate_limits_and_switches (w : World) (e : string)
    (a : AntigravityAccount) (retryAfterMs : option Z) :
  let cooldown := or_default retryAfterMs RATE_LIMIT_COOLDOWN_MS in
  store_ok (accounts w) = true ->
  map_get e (accounts w) = Some a ->
  (readAt w 2 < readAt w 1 + cooldown)%Z ->
  (exists a',
      accountAfter (handleResponse 429 e retryAfterMs) e w = Some a'
      /\ isRateLimited a' = Some true
      /\ rateLimitedUntil a' = Some (readAt w 1 + cooldown)%Z
      /\ failureCount a' = Some (or_zero (failureCount a) + 1))
  /\ ((exists k b, In (k, b) (accounts w) /\ k <> e
                   /\ isAvailable (clearOne (readAt w 2) b) = true) ->
      exists r,
        fst (handleResponse 429 e retryAfterMs w)
        = mkResponse Switch (Some r) None
        /\ email r <> e)
  /\ ((forall k b, In (k, b) (accounts w) -> k <> e ->
                   isAvailable (clearOne (readAt w 2) b) = false) ->
      fst (handleResponse 429 e retryAfterMs w) = mkResponse Fail None None)
  /\ (accounts w = [(e, a)] ->
      fst (handleResponse 429 e retryAfterMs w) = mkResponse Fail None None).
Proof.
  intros cooldown Hok Hget Hcool. split; [|split; [|split]].
  - eexists. split; [exact (handle429_marks w e a retryAfterMs Hok Hget Hcool)|].
    repeat split.
  - intros Hother.
    destruct (handle429_switch w e a retryAfterMs Hok Hget Hcool Hother)
      as (r & Hr & Hne & _).
    exists r. auto.
  - exact (handle429_fail w e a retryAfterMs Hok Hget Hcool).
  - intros Honly. apply (handle429_fail w e a retryAfterMs Hok Hget Hcool).
    intros k b Hin Hne. rewrite Honly in Hin.
    destruct Hin as [Heq|[]]. congruence.
Qed.

Lemma handle429_rate_limits_and_switches_witness :
  let w := sampleWorld twoAccounts RoundRobin in
  store_ok (accounts w) = true
  /\ map_get "alice@example.com" (accounts w) = Some alice
  /\ (readAt w 2 < readAt w 1 + or_default None RATE_LIMIT_COOLDOWN_MS)%Z
  /\ exists r,
      fst (handleResponse 429 "alice@example.com" None w)
      = mkResponse Switch (Some r) None
      /\ email r <> "alice@example.com".
Proof.
  intros w.
  assert (Hcool : (readAt w 2
                   < readAt w 1 + or_default None RATE_LIMIT_COOLDOWN_MS)%Z)
    by (vm_compute; reflexivity).
  split; [reflexivity|]. split; [reflexivity|]. split; [exact Hcool|].
  apply (proj1 (proj2 (handle429_rate_limits_and_switches
                         w "alice@example.com" alice None
                         eq_refl eq_refl Hcool))).
  exists "bob@example.com", bob. split; [right; now left|].
  split; [discriminate | reflexivity].
Defined.

Lemma handleResponse_other status e retryAfterMs w :
  ~ (200 <= status < 300)%Z ->
  status <> 429%Z -> status <> 401%Z -> status <> 403%Z ->
  ~ (500 <= status < 600)%Z ->
  handleResponse status e retryAfterMs w =
  (mkResponse Continue None None,
   snd (reportFailure e false RATE_LIMIT_COOLDOWN_MS w)).
Proof.
  intros H2xx H429 H401 H403 H5xx. unfold handleResponse.
  replace ((200 <=? status)%Z && (status <? 300)%Z) with false.
  2:{ symmetry. apply andb_false_iff.
      destruct (Z.leb_spec 200 status); [right|left; reflexivity].
      apply Z.ltb_ge. lia. }
  replace (status =? 429)%Z with false by (symmetry; now apply Z.eqb_neq).
  replace (status =? 401)%Z with false by (symmetry; now apply Z.eqb_neq).
  replace (status =? 403)%Z with false by (symmetry; now apply Z.eqb_neq).
  replace ((500 <=? status)%Z && (status <? 600)%Z) with false.
  2:{ symmetry. apply andb_false_iff.
      destruct (Z.leb_spec 500 status); [right|left; reflexivity].
      apply Z.ltb_ge. lia. }
  unfold bind, ret.
  now destruct (reportFailure e false RATE_LIMIT_COOLDOWN_MS w).
Qed.

(** C8. For a status that is not 2xx, 429, 401, 403 or 5xx the interceptor
    does to the world what [reportFailure(currentEmail, false)] does and
    answers [continue], with no replacement account and no delay; no
    selection takes place. *)
Theorem handleResponse_unclassified (status : Z) (e : string)
    (retryAfterMs : option Z) (w : World) :
  ~ (200 <= status < 300)%Z ->
  status <> 429%Z -> status <> 401%Z -> status <> 403%Z ->
  ~ (500 <= status < 600)%Z ->
  handleResponse status e retryAfterMs w =
  (mkResponse Continue None None,
   snd (reportFailure e false RATE_LIMIT_COOLDOWN_MS w))
  /\ currentRoundRobinIndex (snd (handleResponse status e retryAfterMs w))
     = currentRoundRobinIndex w.
Proof.
  intros H2xx H429 H401 H403 H5xx.
  rewrite handleResponse_other by assumption. split; [reflexivity|].
  cbn [snd]. destruct (map_get e (accounts w)) as [a|] eqn:Hget.
  - rewrite (reportFailure_present w e a false _ Hget).
    cbn [snd]. now destruct (_ || _).
  - now rewrite (reportFailure_absent w e false _ Hget).
Qed.

Lemma handleResponse_unclassified_witness :
  let w := sampleWorld twoAccounts RoundRobin in
  (~ (200 <= 404 < 300)%Z) /\ (~ (500 <= 404 < 600)%Z)
  /\ handleResponse 404 "alice@example.com" None w =
     (mkResponse Continue None None,
      snd (reportFailure "alice@example.com" false RATE_LIMIT_COOLDOWN_MS w)).
Proof.
  intros w. split; [lia|]. split; [lia|].
  apply (proj1 (handleResponse_unclassified 404 "alice@example.com" None w
                  ltac:(lia) ltac:(discriminate) ltac:(discriminate)
                  ltac:(discriminate) ltac:(lia))).
Defined.

(** ** Unknown accounts *)

(** C10, as stated, fails.  No operation of the rotator raises an error:
    for an email that is not in the store [reportFailure] returns [false],
    and the 429 handler answers with a switch to another account, after a
    selection that has cleared carol's expired rate limit, so the store has
    changed as well. *)
Lemma unknown_account_counterexample :
  let w := sampleWorld [("carol@example.com", carol)] RoundRobin in
  map_get "ghost@example.com" (accounts w) = None
  /\ fst (reportFailure "ghost@example.com" false 60000 w) = false
  /\ fst (handleResponse 429 "ghost@example.com" None w)
     = mkResponse Switch (Some (clearOne (now w) carol)) None
  /\ accounts (snd (handleResponse 429 "ghost@example.com" None w))
     <> accounts w.
Proof. repeat split; try reflexivity. discriminate. Qed.

(** C10 (amended). For an email that is not in the store, [reportSuccess],
    [reportFailure] and [updateAccount] do nothing and raise nothing: the
    world is unchanged and [reportFailure] returns [false]; the interceptor
    answers a 2xx or an unclassified status for such an email with
    [continue], the world unchanged. *)
Theorem unknown_account_is_ignored (w : World) (e : string) :
  map_get e (accounts w) = None ->
  reportSuccess e w = (tt, w)
  /\ (forall isRateLimit cooldownMs,
        reportFailure e isRateLimit cooldownMs w = (false, w))
  /\ (forall updates, updateAccount e updates w = (tt, w))
  /\ (forall status retryAfterMs,
        (200 <= status < 300)%Z ->
        handleResponse status e retryAfterMs w
        = (mkResponse Continue None None, w))
  /\ (forall status retryAfterMs,
        ~ (200 <= status < 300)%Z ->
        status <> 429%Z -> status <> 401%Z -> status <> 403%Z ->
        ~ (500 <= status < 600)%Z ->
        handleResponse status e retryAfterMs w
        = (mkResponse Continue None None, w)).
Proof.
  intros Hget.
  assert (Hs : reportSuccess e w = (tt, w)).
  { unfold reportSuccess, bind, getAccount. now rewrite Hget. }
  assert (Hf : forall b c, reportFailure e b c w = (false, w))
    by (intros; now apply reportFailure_absent).
  split; [exact Hs|]. split; [exact Hf|]. split; [|split].
  - intros u. unfold updateAccount. now rewrite Hget.
  - intros status r [Hlo Hhi]. unfold handleResponse.
    replace (200 <=? status)%Z with true by (symmetry; apply Z.leb_le; lia).
    replace (status <? 300)%Z with true by (symmetry; apply Z.ltb_lt; lia).
    simpl. unfold bind. now rewrite Hs.
  - intros status r H1 H2 H3 H4 H5.
    rewrite handleResponse_other by assumption. now rewrite Hf.
Qed.

Lemma unknown_account_is_ignored_witness :
  let w := sampleWorld twoAccounts RoundRobin in
  map_get "ghost@example.com" (accounts w) = None
  /\ reportSuccess "ghost@example.com" w = (tt, w).
Proof.
  intros w. split; [reflexivity|].
  apply (proj1 (unknown_account_is_ignored w "ghost@example.com" eq_refl)).
Defined.

(** ** Refresh sweep *)

Lemma touchesOnly_ret {A : Type} (x : A) e : touchesOnly (ret x) e.
Proof. intros w k _. reflexivity. Qed.

Lemma touchesOnly_bind {A B : Type} (m : M A) (f : A -> M B) e :
  touchesOnly m e -> (forall x, touchesOnly (f x) e) ->
  touchesOnly (bind m f) e.
Proof.
  intros Hm Hf w k Hne. unfold bind.
  specialize (Hm w k Hne). destruct (m w) as [x w']. simpl in Hm.
  now rewrite (Hf x w' k Hne).
Qed.

Lemma touchesOnly_dateNow e : touchesOnly dateNow e.
Proof. intros w k _. reflexivity. Qed.

Lemma touchesOnly_getAccount e' e : touchesOnly (getAccount e') e.
Proof. intros w k _. reflexivity. Qed.

Lemma touchesOnly_updateAccount e u : touchesOnly (updateAccount e u) e.
Proof.
  intros w k Hne. unfold updateAccount.
  destruct (map_get e (accounts w)); simpl; auto.
  apply map_get_set_ne. congruence.
Qed.

Lemma touchesOnly_reportFailure e b c : touchesOnly (reportFailure e b c) e.
Proof.
  unfold reportFailure. apply touchesOnly_bind; [apply touchesOnly_getAccount|].
  intros [a|]; [|apply touchesOnly_ret].
  apply touchesOnly_bind; [apply touchesOnly_dateNow|]. intros used.
  apply touchesOnly_bind.
  - destruct (b || _); [|apply touchesOnly_ret].
    apply touchesOnly_bind; [apply touchesOnly_dateNow|].
    intros t. apply touchesOnly_ret.
  - intros u. apply touchesOnly_bind; [apply touchesOnly_updateAccount|].
    intros _. apply touchesOnly_ret.
Qed.

Lemma touchesOnly_updateAccountTokens e access expires :
  touchesOnly (updateAccountTokens e access expires) e.
Proof.
  unfold updateAccountTokens.
  apply touchesOnly_bind; [apply touchesOnly_dateNow|].
  intros t. apply touchesOnly_updateAccount.
Qed.

Section SweepProperties.

Variable refreshAccessToken : string -> option (string * Z).

Lemma refreshLoop_cons account rest w :
  refreshLoop refreshAccessToken (account :: rest) w =
  refreshLoop refreshAccessToken rest (snd (refreshOne refreshAccessToken account w)).
Proof.
  cbn [refreshLoop]. unfold bind.
  now destruct (refreshOne refreshAccessToken account w).
Qed.

Lemma touchesOnly_refreshOne account :
  touchesOnly (refreshOne refreshAccessToken account) (email account).
Proof.
  unfold refreshOne.
  destruct (refreshAccessToken (refreshToken account)) as [[access expires]|].
  - apply touchesOnly_updateAccountTokens.
  - apply touchesOnly_bind; [apply touchesOnly_reportFailure|].
    intros _. apply touchesOnly_ret.
Qed.

Lemma refreshLoop_frame selected :
  forall w k,
    ~ In k (map email selected) ->
    map_get k (accounts (snd (refreshLoop refreshAccessToken selected w)))
    = map_get k (accounts w).
Proof.
  induction selected as [|account rest IH]; intros w k Hnotin; [reflexivity|].
  rewrite refreshLoop_cons. rewrite IH.
  - apply touchesOnly_refreshOne. intros ->. apply Hnotin. now left.
  - intros Hin. apply Hnotin. now right.
Qed.

Lemma getAccountsNeedingRefresh_spec thresholdMs w :
  getAccountsNeedingRefresh thresholdMs w =
  (List.filter (needsRefresh (now w) thresholdMs) (map_values (accounts w)),
   tick w).
Proof. reflexivity. Qed.

Lemma needsRefresh_spec t thresholdMs a :
  needsRefresh t thresholdMs a = true <->
  truthyB (isRateLimited a) = false /\ expiresAt a <> 0%Z
  /\ (expiresAt a - t < thresholdMs)%Z.
Proof.
  unfold needsRefresh.
  rewrite !andb_true_iff, !negb_true_iff, Z.eqb_neq, Z.ltb_lt. tauto.
Qed.

Lemma values_emails s : keyed s -> map email (map_values s) = map fst s.
Proof.
  unfold keyed, map_values. induction s as [|[k a] s IH]; simpl; auto.
  intros Hk. pose proof (Forall_inv Hk) as Hka. simpl in Hka.
  rewrite Hka, IH; auto. exact (Forall_inv_tail Hk).
Qed.

Lemma NoDup_map_filter {A B : Type} (f : A -> B) (p : A -> bool) l :
  NoDup (map f l) -> NoDup (map f (List.filter p l)).
Proof.
  induction l as [|x l IH]; simpl; auto.
  intros Hnd. inversion Hnd as [|? ? Hnotin Hnd']; subst.
  destruct (p x); simpl; auto.
  constructor; auto. intros Hin. apply Hnotin.
  apply in_map_iff in Hin. destruct Hin as (y & Hy & Hin).
  apply filter_In in Hin. apply in_map_iff. exists y. tauto.
Qed.

Lemma refreshOne_effect s w :
  map_get (email s) (accounts w) = Some s ->
  exists s',
    map_get (email s) (accounts (snd (refreshOne refreshAccessToken s w)))
    = Some s'
    /\ refreshed refreshAccessToken s s'.
Proof.
  intros Hget. unfold refreshOne, refreshed.
  destruct (refreshAccessToken (refreshToken s)) as [[access expires]|].
  - unfold updateAccountTokens, bind, dateNow, updateAccount. simpl.
    rewrite Hget. simpl. rewrite map_get_set_eq.
    eexists. split; [reflexivity|]. repeat split.
  - destruct (reportFailure_keeps w (email s) s false RATE_LIMIT_COOLDOWN_MS
                Hget) as (s' & G & F & Ha & Hx).
    unfold accountAfter in G. unfold bind.
    destruct (reportFailure (email s) false RATE_LIMIT_COOLDOWN_MS w)
      as [r w'].
    exists s'. auto.
Qed.

Lemma refreshLoop_effect selected :
  forall w s,
    NoDup (map email selected) -> In s selected ->
    map_get (email s) (accounts w) = Some s ->
    exists s',
      map_get (email s)
        (accounts (snd (refreshLoop refreshAccessToken selected w)))
      = Some s'
      /\ refreshed refreshAccessToken s s'.
Proof.
  induction selected as [|x rest IH]; intros w s Hnd Hin Hget; [destruct Hin|].
  simpl in Hnd. inversion Hnd as [|? ? Hnotin Hnd']; subst.
  rewrite refreshLoop_cons. destruct Hin as [->|Hin].
  - destruct (refreshOne_effect s w Hget) as (s' & Hget' & Href).
    exists s'. split; auto.
    now rewrite refreshLoop_frame.
  - apply IH; auto.
    rewrite touchesOnly_refreshOne; auto.
    intros Heq. apply Hnotin. rewrite <- Heq. now apply in_map.
Qed.

End SweepProperties.

(** C9, as stated, fails for an expiry of 0: the filter reads [expiresAt]
    for truthiness first, so the account is inside the window and not rate
    limited, yet it is not selected and the sweep does not refresh it. *)
Lemma refresh_window_counterexample :
  let w := sampleWorld [("dave@example.com", dave)] RoundRobin in
  (expiresAt dave - now w < TOKEN_EXPIRY_THRESHOLD_MS)%Z
  /\ truthyB (isRateLimited dave) = false
  /\ fst (getAccountsNeedingRefresh TOKEN_EXPIRY_THRESHOLD_MS w) = []
  /\ accounts (snd (refreshAllTokens alwaysFresh w)) = accounts w.
Proof. repeat split; reflexivity. Qed.

(** C9 (amended). A tick of the sweep selects exactly the stored accounts
    that are not rate limited and have a non-zero [expiresAt] with
    [expiresAt - now < thresholdMs]; it refreshes those (new token and
    expiry and [failureCount] 0 when the refresher succeeds, one more
    failure when it throws), and every account outside that selection is
    the same before and after the sweep. *)
Theorem refresh_sweep_window
    (refreshAccessToken : string -> option (string * Z)) (w : World) :
  store_ok (accounts w) = true ->
  (forall thresholdMs a,
      In a (fst (getAccountsNeedingRefresh thresholdMs w)) <->
      In a (map_values (accounts w))
      /\ truthyB (isRateLimited a) = false
      /\ expiresAt a <> 0%Z
      /\ (expiresAt a - now w < thresholdMs)%Z)
  /\ (forall k a,
        map_get k (accounts w) = Some a ->
        needsRefresh (now w) TOKEN_EXPIRY_THRESHOLD_MS a = false ->
        map_get k (accounts (snd (refreshAllTokens refreshAccessToken w)))
        = Some a)
  /\ (forall k a,
        map_get k (accounts w) = Some a ->
        needsRefresh (now w) TOKEN_EXPIRY_THRESHOLD_MS a = true ->
        exists a',
          map_get k (accounts (snd (refreshAllTokens refreshAccessToken w)))
          = Some a'
          /\ refreshed refreshAccessToken a a').
Proof.
  intros Hok. destruct (proj1 (store_ok_spec _) Hok) as [Hnd Hk].
  set (selected := List.filter (needsRefresh (now w) TOKEN_EXPIRY_THRESHOLD_MS)
                     (map_values (accounts w))).
  assert (Hrun : snd (refreshAllTokens refreshAccessToken w)
                 = snd (refreshLoop refreshAccessToken selected (tick w))).
  { unfold refreshAllTokens, bind.
    rewrite getAccountsNeedingRefresh_spec. fold selected.
    destruct selected; reflexivity. }
  assert (Hsel : forall k a, map_get k (accounts w) = Some a ->
                   needsRefresh (now w) TOKEN_EXPIRY_THRESHOLD_MS a = true ->
                   In a selected /\ email a = k).
  { intros k a Hget Hneed. apply map_get_In in Hget. split.
    - apply filter_In. split; auto.
      unfold map_values. apply in_map_iff. now exists (k, a).
    - exact (keyed_In k a _ Hk Hget). }
  split; [|split].
  - intros th a. rewrite getAccountsNeedingRefresh_spec. cbn [fst].
    rewrite filter_In, needsRefresh_spec. tauto.
  - intros k a Hget Hout. rewrite Hrun, refreshLoop_frame; auto.
    intros Hin. apply in_map_iff in Hin. destruct Hin as (s & Hs & Hin).
    apply filter_In in Hin. destruct Hin as [Hin Hneed].
    unfold map_values in Hin. apply in_map_iff in Hin.
    destruct Hin as ([k' s'] & Heq & Hin). simpl in Heq. subst s'.
    pose proof (keyed_In k' s _ Hk Hin) as He.
    assert (Hkk : k' = k) by congruence. rewrite Hkk in Hin.
    pose proof (In_map_get k s _ Hnd Hin) as Hget'.
    assert (Hsa : s = a) by congruence. rewrite Hsa in Hneed. congruence.
  - intros k a Hget Hneed. destruct (Hsel k a Hget Hneed) as [Hin He].
    rewrite Hrun. rewrite <- He in *.
    apply refreshLoop_effect; auto.
    apply NoDup_map_filter. unfold map_values in *.
    fold (map_values (accounts w)). now rewrite values_emails.
Qed.

Lemma refresh_sweep_window_witness :
  let w := sampleWorld twoAccounts RoundRobin in
  store_ok (accounts w) = true
  /\ map_get "bob@example.com" (accounts (snd (refreshAllTokens alwaysFresh w)))
     = Some bob.
Proof.
  intros w. split; [reflexivity|].
  apply (proj1 (proj2 (refresh_sweep_window alwaysFresh w eq_refl)));
    reflexivity.
Defined.

(** * Further properties of the code *)

(** ** AccountManager *)

Lemma map_set_absent k v s :
  map_get k s = None -> map_set k v s = s ++ [(k, v)].
Proof.
  induction s as [|[k' a] s IH]; simpl; auto.
  destruct (String.eqb k k'); [discriminate|].
  intros H. now rewrite IH.
Qed.

Lemma map_get_None_keys k s : map_get k s = None <-> ~ In k (map fst s).
Proof.
  induction s as [|[k' a] s IH]; simpl; [tauto|].
  destruct (String.eqb k k') eqn:E.
  - apply String.eqb_eq in E. subst. split; [discriminate|tauto].
  - apply String.eqb_neq in E. rewrite IH. split; [|tauto].
    intros H [Heq|Hin]; [congruence|tauto].
Qed.

Lemma NoDup_snoc {A : Type} (x : A) l :
  NoDup l -> ~ In x l -> NoDup (l ++ [x]).
Proof.
  induction l as [|y l IH]; simpl; intros Hnd Hnotin.
  - constructor; auto.
  - inversion Hnd as [|? ? Hy Hnd']; subst. constructor.
    + intros Hin. apply in_app_or in Hin. destruct Hin as [Hin|[Heq|[]]];
        [tauto|]. subst. tauto.
    + apply IH; tauto.
Qed.

Lemma store_ok_map_set_own k v s :
  store_ok s = true -> email v = k -> store_ok (map_set k v s) = true.
Proof.
  intros Hok Hv. apply store_ok_spec in Hok. destruct Hok as [Hnd Hk].
  apply store_ok_spec. split; [|now apply keyed_map_set].
  destruct (map_get k s) as [a|] eqn:Hget.
  - rewrite map_set_keys; auto. congruence.
  - rewrite (map_set_absent k v s Hget), map_app. simpl.
    apply NoDup_snoc; auto. now apply map_get_None_keys.
Qed.

(** X1. [updateAccount] merges the patch into the stored account and
    touches nothing else: the keys of the map and their order are kept (an
    absent email is not inserted, the world is left as it is), every other
    account is unchanged, and a well-formed store stays well formed. *)
Theorem updateAccount_merges (w : World) (e : string) (updates : Patch) :
  let w' := snd (updateAccount e updates w) in
  map fst (accounts w') = map fst (accounts w)
  /\ (forall a, map_get e (accounts w) = Some a ->
                map_get e (accounts w') = Some (spread a updates))
  /\ (map_get e (accounts w) = None -> w' = w)
  /\ (forall k, k <> e -> map_get k (accounts w') = map_get k (accounts w))
  /\ (store_ok (accounts w) = true -> store_ok (accounts w') = true)
  /\ strategy w' = strategy w
  /\ currentRoundRobinIndex w' = currentRoundRobinIndex w.
Proof.
  unfold updateAccount.
  destruct (map_get e (accounts w)) as [a|] eqn:Hget; cbn [snd].
  - split; [apply map_set_keys; simpl; congruence|].
    split; [intros a' [= <-]; apply map_get_set_eq|].
    split; [discriminate|].
    split; [intros k Hne; apply map_get_set_ne; congruence|].
    split; [intros Hok; now apply store_ok_map_set|].
    split; reflexivity.
  - repeat split; auto. discriminate.
Qed.

Lemma updateAccount_merges_witness :
  let w := sampleWorld twoAccounts RoundRobin in
  map_get "alice@example.com" (accounts w) = Some alice
  /\ map_get "alice@example.com"
       (accounts (snd (updateAccount "alice@example.com" clearPatch w)))
     = Some (spread alice clearPatch).
Proof.
  intros w. split; [reflexivity|].
  apply (proj1 (proj2 (updateAccount_merges w "alice@example.com" clearPatch))).
  reflexivity.
Defined.

(** X2. [addAccount] followed by [getAccount] returns the account that was
    added, with the defaults filled in and [isRateLimited] forced to false.
    A new email goes to the end of the map; an email that is already stored
    keeps its position and its old record is replaced as a whole, so its
    counters restart at what the argument carries (0 when absent).  Other
    accounts are unchanged and a well-formed store stays well formed. *)
Theorem addAccount_then_getAccount (w : World) (account : AntigravityAccount) :
  let w' := snd (addAccount account w) in
  exists stored,
    fst (getAccount (email account) w') = Some stored
    /\ email stored = email account
    /\ accessToken stored = accessToken account
    /\ refreshToken stored = refreshToken account
    /\ expiresAt stored = expiresAt account
    /\ priority stored
       = Some (match priority account with Some p => p | None => 1%Z end)
    /\ requestCount stored = Some (or_zero (requestCount account))
    /\ failureCount stored = Some (or_zero (failureCount account))
    /\ isRateLimited stored = Some false
    /\ rateLimitedUntil stored = rateLimitedUntil account
    /\ (map_get (email account) (accounts w) = None ->
        accounts w' = accounts w ++ [(email account, stored)])
    /\ (map_get (email account) (accounts w) <> None ->
        map fst (accounts w') = map fst (accounts w))
    /\ (forall k, k <> email account ->
                  map_get k (accounts w') = map_get k (accounts w))
    /\ (store_ok (accounts w) = true -> store_ok (accounts w') = true).
Proof.
  unfold addAccount, getAccount. cbn [fst snd accounts with_accounts].
  eexists. split; [apply map_get_set_eq|]. cbn.
  repeat split.
  - intros Hnone. now apply map_set_absent.
  - intros Hsome. now apply map_set_keys.
  - intros k Hne. apply map_get_set_ne. congruence.
  - intros Hok. now apply store_ok_map_set_own.
Qed.

Lemma addAccount_then_getAccount_witness :
  let w := sampleWorld twoAccounts RoundRobin in
  let again := limitedUntil "alice@example.com" 7 2 99999999 in
  map_get "alice@example.com" (accounts w) <> None
  /\ map fst (accounts (snd (addAccount again w))) = map fst (accounts w).
Proof.
  intros w again.
  assert (Hsome : map_get "alice@example.com" (accounts w) <> None)
    by discriminate.
  split; [exact Hsome|].
  destruct (addAccount_then_getAccount w again)
    as (stored & _ & _ & _ & _ & _ & _ & _ & _ & _ & _ & _ & Hkeys & _).
  exact (Hkeys Hsome).
Defined.

Lemma map_delete_spec k s :
  fst (map_delete k s) = map_has k s
  /\ (forall k', k' <> k ->
                 map_get k' (snd (map_delete k s)) = map_get k' s)
  /\ (map_get k s = None -> snd (map_delete k s) = s)
  /\ (forall x, In x (snd (map_delete k s)) -> In x s)
  /\ (NoDup (map fst s) -> map_get k (snd (map_delete k s)) = None)
  /\ length (snd (map_delete k s))
     = (if map_has k s then length s - 1 else length s).
Proof.
  unfold map_has. induction s as [|[k0 a] s IH]; simpl.
  - repeat split; auto.
  - destruct IH as (IH1 & IH2 & IH3 & IH4 & IH5 & IH6).
    destruct (String.eqb k k0) eqn:E; simpl.
    + apply String.eqb_eq in E. subst k0.
      split; [reflexivity|]. split.
      { intros k' Hne. apply String.eqb_neq in Hne. now rewrite Hne. }
      split; [discriminate|]. split; [auto|]. split.
      { intros Hnd. inversion Hnd; subst. now apply map_get_None_keys. }
      lia.
    + destruct (map_delete k s) as [found rest] eqn:Hd. simpl in *.
      split; [exact IH1|]. split.
      { intros k' Hne. destruct (String.eqb k' k0); auto. }
      split; [intros H; now rewrite IH3|]. split.
      { intros x [Hx|Hx]; auto. }
      split.
      { intros Hnd. inversion Hnd; subst. rewrite E. auto. }
      rewrite IH6. destruct (map_get k s) as [b|] eqn:Hg; auto.
      apply map_get_In in Hg. destruct s; [destruct Hg|simpl; lia].
Qed.

Lemma map_delete_NoDup k s :
  NoDup (map fst s) -> NoDup (map fst (snd (map_delete k s))).
Proof.
  induction s as [|[k0 a] s IH]; simpl; auto.
  intros Hnd. inversion Hnd as [|? ? Hnotin Hnd']; subst.
  destruct (String.eqb k k0); simpl; auto.
  specialize (IH Hnd').
  pose proof (proj1 (proj2 (proj2 (proj2 (map_delete_spec k s))))) as Hsub.
  destruct (map_delete k s) as [found rest]. simpl in *.
  constructor; auto. intros Hin. apply Hnotin.
  apply in_map_iff in Hin. destruct Hin as ([k1 b] & Heq & Hin).
  simpl in Heq. subst k1. apply in_map_iff. exists (k0, b). split; auto.
Qed.

(** X3. [removeAccount] returns [true] exactly when the email was stored.
    Afterwards the email is absent, every other account is unchanged, the
    store has one entry less (none less for an absent email, which leaves
    the store as it is), and a well-formed store stays well formed. *)
Theorem removeAccount_removes (w : World) (e : string) :
  store_ok (accounts w) = true ->
  let w' := snd (removeAccount e w) in
  fst (removeAccount e w) = map_has e (accounts w)
  /\ map_get e (accounts w') = None
  /\ (forall k, k <> e -> map_get k (accounts w') = map_get k (accounts w))
  /\ length (accounts w')
     = (if map_has e (accounts w) then length (accounts w) - 1
        else length (accounts w))
  /\ (map_get e (accounts w) = None -> accounts w' = accounts w)
  /\ store_ok (accounts w') = true.
Proof.
  intros Hok. destruct (proj1 (store_ok_spec _) Hok) as [Hnd Hk].
  destruct (map_delete_spec e (accounts w)) as (H1 & H2 & H3 & H4 & H5 & H6).
  pose proof (map_delete_NoDup e (accounts w) Hnd) as Hnd'.
  unfold removeAccount.
  destruct (map_delete e (accounts w)) as [found rest]. simpl in *.
  repeat split; auto.
  apply store_ok_spec. split; auto.
  unfold keyed in *. rewrite Forall_forall in *. auto.
Qed.

Lemma removeAccount_removes_witness :
  let w := sampleWorld twoAccounts RoundRobin in
  store_ok (accounts w) = true
  /\ fst (removeAccount "alice@example.com" w) = true
  /\ map_get "alice@example.com"
       (accounts (snd (removeAccount "alice@example.com" w))) = None.
Proof.
  intros w. split; [reflexivity|].
  destruct (removeAccount_removes w "alice@example.com" eq_refl)
    as (H1 & H2 & _).
  split; [exact H1 | exact H2].
Defined.

(** ** Outcome reporting and selection *)

Lemma not_limited_not_expired t a :
  truthyB (isRateLimited a) = false -> expired t a = false.
Proof. intros H. unfold expired. now rewrite H. Qed.

Lemma candidates_after w w' k a :
  accounts w' = clearStore (now w) (accounts w) ->
  (In a (candidates w) ->
   truthyB (isRateLimited a) = false /\ In a (map_values (accounts w')))
  /\ (map_get k (accounts w') = Some a ->
      truthyB (isRateLimited a) = false -> In a (candidates w)).
Proof.
  intros Hacc. unfold candidates. rewrite <- Hacc. split.
  - intros Hin. apply filter_In in Hin. destruct Hin as [Hin Hav].
    split; auto. unfold isAvailable in Hav. now apply negb_true_iff in Hav.
  - intros Hget Hfree. apply filter_In. split.
    + unfold map_values. apply in_map_iff. exists (k, a). split; auto.
      now apply map_get_In.
    + unfold isAvailable. now rewrite Hfree.
Qed.

Lemma candidates_In_free w k a :
  map_get k (accounts w) = Some a ->
  truthyB (isRateLimited a) = false -> In a (candidates w).
Proof.
  intros Hget Hfree.
  assert (Hsame : clearOne (now w) a = a).
  { unfold clearOne. now rewrite not_limited_not_expired. }
  rewrite <- Hsame. apply (candidates_In w k); auto.
  rewrite Hsame. unfold isAvailable. now rewrite Hfree.
Qed.

(** X4. [reportSuccess] on a stored account counts one more request, resets
    [failureCount] to 0, sets [lastUsed] to the clock read and removes any
    rate limit, leaving the tokens and every other account as they were; in
    a well-formed store the account is then a candidate of the next
    selection, whatever failures it had before. *)
Theorem reportSuccess_resets (w : World) (e : string) (a : AntigravityAccount) :
  map_get e (accounts w) = Some a ->
  let w' := snd (reportSuccess e w) in
  exists a',
    map_get e (accounts w') = Some a'
    /\ requestCount a' = Some (or_zero (requestCount a) + 1)
    /\ failureCount a' = Some 0
    /\ lastUsed a' = Some (now w)
    /\ isRateLimited a' = Some false
    /\ rateLimitedUntil a' = None
    /\ accessToken a' = accessToken a /\ refreshToken a' = refreshToken a
    /\ expiresAt a' = expiresAt a /\ priority a' = priority a
    /\ (forall k, k <> e -> map_get k (accounts w') = map_get k (accounts w))
    /\ (store_ok (accounts w) = true -> In a' (candidates w')).
Proof.
  intros Hget w'.
  set (a' := spread a (mkPatch None None None (Some (now w))
                         (Some (or_zero (requestCount a) + 1)) (Some 0)
                         (Some false) (Some None) None)).
  assert (Hw : w' = with_accounts (map_set e a' (accounts w)) (tick w)).
  { unfold w', reportSuccess, bind, getAccount, dateNow, updateAccount.
    rewrite Hget. cbn [accounts tick snd with_accounts]. now rewrite Hget. }
  assert (Hget' : map_get e (accounts w') = Some a').
  { rewrite Hw. apply map_get_set_eq. }
  exists a'. split; [exact Hget'|].
  repeat split.
  - intros k Hne. rewrite Hw. apply map_get_set_ne. congruence.
  - intros Hok. now apply (candidates_In_free w' e).
Qed.

Lemma reportSuccess_resets_witness :
  let w := sampleWorld [("carol@example.com",
                         limitedUntil "carol@example.com" 1 3 99999999)]
             Failover in
  map_get "carol@example.com" (accounts w)
  = Some (limitedUntil "carol@example.com" 1 3 99999999)
  /\ exists a',
      map_get "carol@example.com"
        (accounts (snd (reportSuccess "carol@example.com" w))) = Some a'
      /\ requestCount a' = Some 8 /\ isRateLimited a' = Some false.
Proof.
  intros w. split; [reflexivity|].
  destruct (reportSuccess_resets w "carol@example.com"
              (limitedUntil "carol@example.com" 1 3 99999999) eq_refl)
    as (a' & Hget & Hreq & _ & _ & Hlim & _).
  exists a'. split; [exact Hget|]. split; [exact Hreq | exact Hlim].
Defined.

Lemma clearExpiredRateLimits_full w :
  store_ok (accounts w) = true ->
  clearExpiredRateLimits w =
  (length (List.filter (expired (now w)) (map_values (accounts w))),
   with_accounts (clearStore (now w) (accounts w)) (tick w)).
Proof.
  intros Hok. apply store_ok_spec in Hok. destruct Hok as [Hnd Hk].
  unfold clearExpiredRateLimits, bind, getAll, dateNow.
  rewrite (clearLoop_spec (clock w (reads w)) (accounts w) [] 0 (tick w));
    auto.
Qed.

Lemma available_after_clear t a :
  isAvailable (clearOne t a) = isAvailable a || expired t a.
Proof.
  unfold clearOne, isAvailable.
  destruct (expired t a) eqn:E; [|now rewrite orb_false_r].
  simpl. now rewrite orb_true_r.
Qed.

Lemma expired_not_available t a : expired t a = true -> isAvailable a = false.
Proof.
  unfold expired, isAvailable. intros H.
  apply andb_true_iff in H. destruct H as [H _].
  apply andb_true_iff in H. destruct H as [H _]. now rewrite H.
Qed.

Lemma count_available_clear t s :
  length (List.filter isAvailable (map_values (clearStore t s)))
  = length (List.filter isAvailable (map_values s))
    + length (List.filter (expired t) (map_values s)).
Proof.
  induction s as [|[k a] s IH]; simpl; auto.
  rewrite available_after_clear.
  destruct (expired t a) eqn:E.
  - rewrite (expired_not_available t a E). simpl. rewrite IH. lia.
  - rewrite orb_false_r. destruct (isAvailable a); simpl; rewrite IH; lia.
Qed.

(** X5. In a well-formed store [clearExpiredRateLimits] returns the number
    of accounts whose rate limit has expired at the clock read, and the
    number of available accounts grows by exactly that number; it changes
    neither the keys nor the strategy nor the round-robin cursor. *)
Theorem clearExpiredRateLimits_counts (w : World) :
  store_ok (accounts w) = true ->
  let cleared := fst (clearExpiredRateLimits w) in
  let w' := snd (clearExpiredRateLimits w) in
  cleared = length (List.filter (expired (now w)) (map_values (accounts w)))
  /\ length (List.filter isAvailable (map_values (accounts w')))
     = length (List.filter isAvailable (map_values (accounts w))) + cleared
  /\ map fst (accounts w') = map fst (accounts w)
  /\ strategy w' = strategy w
  /\ currentRoundRobinIndex w' = currentRoundRobinIndex w.
Proof.
  intros Hok. rewrite (clearExpiredRateLimits_full w Hok).
  cbn [fst snd accounts with_accounts].
  split; [reflexivity|]. split; [apply count_available_clear|].
  split; [apply clearStore_keys|]. split; reflexivity.
Qed.

Lemma clearExpiredRateLimits_counts_witness :
  let w := sampleWorld [("carol@example.com", carol);
                        ("bob@example.com", bob)] RoundRobin in
  store_ok (accounts w) = true
  /\ fst (clearExpiredRateLimits w) = 1.
Proof.
  intros w. split; [reflexivity|].
  rewrite (proj1 (clearExpiredRateLimits_counts w eq_refl)). reflexivity.
Defined.

Lemma getNextAccount_in_candidates w r :
  store_ok (accounts w) = true ->
  fst (getNextAccount w) = Some r -> In r (candidates w).
Proof.
  intros Hok Hres. rewrite (getNextAccount_result w Hok) in Hres.
  destruct (candidates w) as [|c cs]; [discriminate|].
  destruct (selector_In w c cs) as (r' & Hsel & Hin).
  rewrite Hsel in Hres. now injection Hres as <-.
Qed.

(** X6. In a well-formed store [getNextAccount] returns null exactly when,
    once expired rate limits are cleared, every stored account is rate
    limited; an account it returns is not rate limited and is the record
    stored under its own email when the call returns. *)
Theorem getNextAccount_sound (w : World) :
  store_ok (accounts w) = true ->
  let w' := snd (getNextAccount w) in
  (fst (getNextAccount w) = None <->
   forall k a, map_get k (accounts w') = Some a ->
               truthyB (isRateLimited a) = true)
  /\ (forall r, fst (getNextAccount w) = Some r ->
                truthyB (isRateLimited r) = false
                /\ map_get (email r) (accounts w') = Some r).
Proof.
  intros Hok w'. pose proof (getNextAccount_store w Hok) as Hacc.
  fold w' in Hacc.
  assert (Hok' : store_ok (accounts w') = true).
  { rewrite Hacc. apply store_ok_spec.
    destruct (proj1 (store_ok_spec _) Hok) as [Hnd Hk]. split.
    - now rewrite clearStore_keys.
    - unfold keyed, clearStore in *. rewrite Forall_forall in *.
      intros ka Hin. apply in_map_iff in Hin.
      destruct Hin as ([k b] & <- & Hin). simpl.
      rewrite email_clearOne. exact (Hk (k, b) Hin). }
  destruct (proj1 (store_ok_spec _) Hok') as [Hnd' Hk'].
  split.
  - split.
    + intros Hnone k a Hget.
      destruct (truthyB (isRateLimited a)) eqn:Hlim; auto. exfalso.
      pose proof (proj2 (candidates_after w w' k a Hacc) Hget Hlim) as Hin.
      destruct (getNextAccount_some w Hok) as (r & Hr & _).
      * intros Hnil. now rewrite Hnil in Hin.
      * congruence.
    + intros Hall. destruct (fst (getNextAccount w)) as [r|] eqn:Hres; auto.
      exfalso. pose proof (getNextAccount_in_candidates w r Hok Hres) as Hin.
      destruct (proj1 (candidates_after w w' "" r Hacc) Hin) as [Hfree Hval].
      unfold map_values in Hval. apply in_map_iff in Hval.
      destruct Hval as ([k b] & Heq & Hinb). simpl in Heq. subst b.
      rewrite (Hall k r (In_map_get k r _ Hnd' Hinb)) in Hfree. discriminate.
  - intros r Hres.
    pose proof (getNextAccount_in_candidates w r Hok Hres) as Hin.
    destruct (proj1 (candidates_after w w' "" r Hacc) Hin) as [Hfree Hval].
    split; auto.
    unfold map_values in Hval. apply in_map_iff in Hval.
    destruct Hval as ([k b] & Heq & Hinb). simpl in Heq. subst b.
    rewrite (keyed_In k r _ Hk' Hinb). now apply In_map_get.
Qed.

Lemma getNextAccount_sound_witness :
  let w := sampleWorld twoAccounts LeastUsed in
  store_ok (accounts w) = true
  /\ truthyB (isRateLimited alice) = false
  /\ map_get (email alice) (accounts (snd (getNextAccount w))) = Some alice.
Proof.
  intros w. split; [reflexivity|].
  apply (proj2 (getNextAccount_sound w eq_refl) alice). reflexivity.
Defined.

(** ** The strategies *)

Lemma filter_all {A : Type} (p : A -> bool) l :
  (forall x, In x l -> p x = true) -> List.filter p l = l.
Proof.
  induction l as [|x l IH]; simpl; auto.
  intros H. rewrite (H x) by auto. f_equal. apply IH. auto.
Qed.

Lemma filter_none {A : Type} (p : A -> bool) l :
  (forall x, In x l -> p x = false) -> List.filter p l = [].
Proof.
  induction l as [|x l IH]; simpl; auto.
  intros H. rewrite (H x) by auto. apply IH. auto.
Qed.

Lemma roundRobin_step w :
  store_ok (accounts w) = true ->
  strategy w = RoundRobin ->
  allAvailable (accounts w) ->
  accounts w <> [] ->
  let values := map_values (accounts w) in
  let i := if length values <=? currentRoundRobinIndex w
           then 0 else currentRoundRobinIndex w in
  getNextAccount w =
  (nth_error values i, with_index (S i mod length values) (tick w)).
Proof.
  intros Hok Hstrat Hall Hne values i.
  assert (Hclear : clearStore (now w) (accounts w) = accounts w).
  { apply clearStore_id. intros k a Hin.
    apply not_limited_not_expired. exact (Hall k a Hin). }
  assert (Hcand : List.filter isAvailable values = values).
  { apply filter_all. intros a Hin. unfold values, map_values in Hin.
    apply in_map_iff in Hin. destruct Hin as ([k b] & <- & Hin).
    unfold isAvailable. simpl. now rewrite (Hall k b Hin). }
  unfold getNextAccount, bind.
  rewrite (clearExpiredRateLimits_full w Hok), Hclear.
  unfold getAll. cbn [accounts with_accounts tick]. fold values.
  rewrite Hcand.
  destruct values as [|v vs] eqn:Hv.
  - unfold values, map_values in Hv. destruct (accounts w); [congruence|].
    discriminate.
  - cbn [length Nat.eqb strategy with_accounts tick]. rewrite Hstrat.
    unfold selectRoundRobin. cbn [currentRoundRobinIndex]. fold i.
    destruct w; reflexivity.
Qed.

Lemma roundRobin_run n :
  forall w,
    store_ok (accounts w) = true ->
    strategy w = RoundRobin ->
    allAvailable (accounts w) ->
    accounts w <> [] ->
    let values := map_values (accounts w) in
    let i := if length values <=? currentRoundRobinIndex w
             then 0 else currentRoundRobinIndex w in
    fst (selectTimes n w)
    = map (fun j => nth_error values ((i + j) mod length values)) (seq 0 n)
    /\ accounts (snd (selectTimes n w)) = accounts w.
Proof.
  induction n as [|n IH]; intros w Hok Hstrat Hall Hne values i.
  - split; reflexivity.
  - cbn [selectTimes]. unfold bind.
    rewrite (roundRobin_step w Hok Hstrat Hall Hne). fold values. fold i.
    set (w1 := with_index (S i mod length values) (tick w)).
    assert (Hlen : length values <> 0).
    { unfold values, map_values. rewrite length_map.
      destruct (accounts w); [congruence|discriminate]. }
    assert (Hi : i < length values).
    { unfold i. destruct (length values <=? currentRoundRobinIndex w) eqn:E.
      - lia.
      - now apply Nat.leb_gt in E. }
    destruct (IH w1 Hok Hstrat Hall Hne) as [Hres Hacc].
    destruct (selectTimes n w1) as [rs w2]. cbn [fst snd ret] in *.
    split; [|exact Hacc].
    rewrite Hres. cbn [seq map accounts w1 with_index tick].
    fold values. f_equal.
    + rewrite Nat.add_0_r. now rewrite Nat.mod_small.
    + rewrite <- seq_shift, map_map. apply map_ext. intros j.
      cbn [currentRoundRobinIndex w1 with_index].
      assert (Hcur : S i mod length values < length values)
        by (apply Nat.mod_upper_bound; exact Hlen).
      replace (length values <=? S i mod length values) with false
        by (symmetry; apply Nat.leb_gt; exact Hcur).
      f_equal. rewrite Nat.Div0.add_mod_idemp_l. f_equal. lia.
Qed.

(** X7. Round robin over a well-formed store of N accounts none of which is
    rate limited: the j-th of any number of consecutive selections returns
    the account at position (i + j) mod N of the store, where i is the
    cursor (0 when the cursor is beyond the end); the store is not written;
    so N selections from cursor 0 return every account once, in the order
    of the store, and the next N selections repeat them. *)
Theorem roundRobin_cycles (w : World) (n : nat) :
  store_ok (accounts w) = true ->
  strategy w = RoundRobin ->
  allAvailable (accounts w) ->
  accounts w <> [] ->
  let values := map_values (accounts w) in
  let i := if length values <=? currentRoundRobinIndex w
           then 0 else currentRoundRobinIndex w in
  fst (selectTimes n w)
  = map (fun j => nth_error values ((i + j) mod length values)) (seq 0 n)
  /\ accounts (snd (selectTimes n w)) = accounts w
  /\ (currentRoundRobinIndex w = 0 ->
      fst (selectTimes (length values + length values) w)
      = map Some values ++ map Some values).
Proof.
  intros Hok Hstrat Hall Hne values i.
  destruct (roundRobin_run n w Hok Hstrat Hall Hne) as [Hres Hacc].
  split; [exact Hres|]. split; [exact Hacc|].
  intros Hzero.
  destruct (roundRobin_run (length values + length values) w
              Hok Hstrat Hall Hne) as [Hres2 _].
  fold values in Hres2. rewrite Hres2.
  assert (Hi0 : (if length values <=? currentRoundRobinIndex w
                 then 0 else currentRoundRobinIndex w) = 0).
  { rewrite Hzero. now destruct (length values <=? 0). }
  rewrite Hi0. cbn [Nat.add].
  assert (Hlen : length values <> 0).
  { unfold values, map_values. rewrite length_map.
    destruct (accounts w); [congruence|discriminate]. }
  rewrite seq_app, map_app. f_equal.
  - apply nth_error_ext. intros k.
    rewrite !nth_error_map, nth_error_seq.
    destruct (k <? length values) eqn:E; cbn [option_map Nat.add].
    + apply Nat.ltb_lt in E. rewrite Nat.mod_small by exact E.
      destruct (nth_error values k) eqn:Hk; [reflexivity|].
      apply nth_error_None in Hk. lia.
    + apply Nat.ltb_ge in E.
      now rewrite (proj2 (nth_error_None values k)) by exact E.
  - apply nth_error_ext. intros k.
    rewrite !nth_error_map, nth_error_seq.
    destruct (k <? length values) eqn:E; cbn [option_map Nat.add].
    + apply Nat.ltb_lt in E.
      replace (length values + k) with (k + 1 * length values) by lia.
      rewrite Nat.Div0.mod_add, Nat.mod_small by exact E.
      destruct (nth_error values k) eqn:Hk; [reflexivity|].
      apply nth_error_None in Hk. lia.
    + apply Nat.ltb_ge in E.
      now rewrite (proj2 (nth_error_None values k)) by exact E.
Qed.

Lemma twoAccounts_allAvailable : allAvailable twoAccounts.
Proof.
  intros k a [H|[H|[]]]; injection H as <- <-; reflexivity.
Qed.

Lemma roundRobin_cycles_witness :
  let w := sampleWorld twoAccounts RoundRobin in
  store_ok (accounts w) = true
  /\ strategy w = RoundRobin
  /\ accounts w <> []
  /\ fst (selectTimes 4 w) = [Some alice; Some bob; Some alice; Some bob].
Proof.
  intros w. split; [reflexivity|]. split; [reflexivity|].
  assert (Hne : accounts w <> []) by discriminate.
  split; [exact Hne|].
  rewrite (proj1 (roundRobin_cycles w 4 eq_refl eq_refl
                    twoAccounts_allAvailable Hne)).
  reflexivity.
Defined.

Lemma sort_insert_ext {A : Type} (f g : A -> A -> Z) x l :
  (forall a b, f a b = g a b) -> sort_insert f x l = sort_insert g x l.
Proof.
  intros H. induction l as [|y l IH]; simpl; auto.
  rewrite H, IH. reflexivity.
Qed.

Lemma array_sort_ext {A : Type} (f g : A -> A -> Z) l :
  (forall a b, f a b = g a b) -> array_sort f l = array_sort g l.
Proof.
  intros H. induction l as [|x l IH]; simpl; auto.
  rewrite IH. now apply sort_insert_ext.
Qed.

(** X8. Under the least-used strategy a selection returns a candidate with
    the lowest [requestCount] (an absent one read as 0), and among several
    of that count the one that comes first in the order of the store; with
    no candidate it returns null. *)
Theorem selectLeastUsed_first_minimal (w : World) :
  store_ok (accounts w) = true ->
  strategy w = LeastUsed ->
  (candidates w = [] -> fst (getNextAccount w) = None)
  /\ (candidates w <> [] ->
      exists before r after,
        candidates w = before ++ r :: after
        /\ fst (getNextAccount w) = Some r
        /\ (forall c, In c before ->
                      or_zero (requestCount r) < or_zero (requestCount c))
        /\ (forall c, In c after ->
                      or_zero (requestCount r) <= or_zero (requestCount c))).
Proof.
  intros Hok Hstrat. rewrite (getNextAccount_result w Hok), Hstrat. split.
  - now intros ->.
  - intros Hne.
    destruct (array_sort_head_first_max
                (fun a => (- Z.of_nat (or_zero (requestCount a)))%Z)
                (candidates w) Hne)
      as (l1 & r & l2 & Hsplit & Hhead & Hlt & Hle).
    exists l1, r, l2. split; [exact Hsplit|]. split.
    + destruct (candidates w); [congruence|].
      unfold selectLeastUsed. rewrite <- Hhead. f_equal.
      apply array_sort_ext. intros x y. lia.
    + split; intros c Hin; [specialize (Hlt c Hin)|specialize (Hle c Hin)];
        lia.
Qed.

Lemma selectLeastUsed_first_minimal_witness :
  let w := sampleWorld twoAccounts LeastUsed in
  store_ok (accounts w) = true /\ strategy w = LeastUsed
  /\ candidates w <> []
  /\ exists before r after,
      candidates w = before ++ r :: after
      /\ fst (getNextAccount w) = Some r
      /\ (forall c, In c before ->
                    or_zero (requestCount r) < or_zero (requestCount c))
      /\ (forall c, In c after ->
                    or_zero (requestCount r) <= or_zero (requestCount c)).
Proof.
  intros w. split; [reflexivity|]. split; [reflexivity|].
  split; [discriminate|].
  apply (proj2 (selectLeastUsed_first_minimal w eq_refl eq_refl)).
  discriminate.
Defined.

Lemma filter_head_split {A : Type} (p : A -> bool) l r :
  head (List.filter p l) = Some r ->
  exists before after,
    l = before ++ r :: after /\ p r = true
    /\ (forall c, In c before -> p c = false).
Proof.
  induction l as [|x l IH]; simpl; [discriminate|].
  destruct (p x) eqn:E; simpl.
  - intros [= <-]. exists [], l. repeat split; auto. intros c [].
  - intros H. destruct (IH H) as (before & after & -> & Hr & Hb).
    exists (x :: before), after. repeat split; auto.
    intros c [<-|Hin]; auto.
Qed.

(** X9. Under the failover strategy a selection returns the first account in
    the order of the store that is not rate limited once expired limits are
    cleared: every account stored before it is rate limited; it returns
    null when there is none. *)
Theorem selectFailover_first_available (w : World) :
  store_ok (accounts w) = true ->
  strategy w = Failover ->
  let stored := map_values (accounts (snd (getNextAccount w))) in
  match fst (getNextAccount w) with
  | Some r =>
      exists before after,
        stored = before ++ r :: after
        /\ truthyB (isRateLimited r) = false
        /\ (forall c, In c before -> truthyB (isRateLimited c) = true)
  | None => forall c, In c stored -> truthyB (isRateLimited c) = true
  end.
Proof.
  intros Hok Hstrat stored. unfold stored.
  rewrite (getNextAccount_store w Hok), (getNextAccount_result w Hok), Hstrat.
  unfold candidates.
  set (l := map_values (clearStore (now w) (accounts w))).
  destruct (List.filter isAvailable l) as [|c cs] eqn:Hf.
  - intros c Hin. destruct (truthyB (isRateLimited c)) eqn:E; auto.
    assert (In c (List.filter isAvailable l)) as Habs.
    { apply filter_In. split; auto. unfold isAvailable. now rewrite E. }
    rewrite Hf in Habs. destruct Habs.
  - unfold selectFailover. cbn [head].
    destruct (filter_head_split isAvailable l c) as (before & after & Hl & Hc & Hb).
    { now rewrite Hf. }
    exists before, after. split; [exact Hl|]. split.
    + unfold isAvailable in Hc. now apply negb_true_iff in Hc.
    + intros x Hin. specialize (Hb x Hin). unfold isAvailable in Hb.
      now apply negb_false_iff in Hb.
Qed.

Lemma selectFailover_first_available_witness :
  let w := sampleWorld
             [("carol@example.com",
               limitedUntil "carol@example.com" 9 3 99999999);
              ("bob@example.com", bob)] Failover in
  store_ok (accounts w) = true /\ strategy w = Failover
  /\ fst (getNextAccount w) = Some bob
  /\ exists before after,
      map_values (accounts (snd (getNextAccount w))) = before ++ bob :: after
      /\ truthyB (isRateLimited bob) = false
      /\ (forall c, In c before -> truthyB (isRateLimited c) = true).
Proof.
  intros w. split; [reflexivity|]. split; [reflexivity|].
  split; [reflexivity|].
  exact (selectFailover_first_available w eq_refl eq_refl).
Defined.

(** ** The 401, 403 and 5xx handlers *)

Lemma getNextAccount_skips w e a r :
  store_ok (accounts w) = true ->
  map_get e (accounts w) = Some a ->
  truthyB (isRateLimited a) = true ->
  expired (now w) a = false ->
  fst (getNextAccount w) = Some r ->
  email r <> e.
Proof.
  intros Hok Hget Hlim Hexp Hres.
  destruct (proj1 (store_ok_spec _) Hok) as [Hnd Hk].
  pose proof (getNextAccount_in_candidates w r Hok Hres) as Hin.
  apply candidates_inv in Hin. destruct Hin as (k & b & Hin & Hr & Hav).
  pose proof (keyed_In k b _ Hk Hin) as Hemail.
  intros Heq. rewrite Hr, email_clearOne, Hemail in Heq. rewrite Heq in Hin.
  pose proof (In_map_get e b _ Hnd Hin) as Hgetb.
  assert (Hba : b = a) by congruence. rewrite Hba in Hr.
  unfold clearOne in Hr. rewrite Hexp in Hr. rewrite Hr in Hav.
  unfold isAvailable in Hav. rewrite Hlim in Hav. discriminate.
Qed.

Lemma getNextAccount_keeps w e a :
  store_ok (accounts w) = true ->
  map_get e (accounts w) = Some a ->
  expired (now w) a = false ->
  map_get e (accounts (snd (getNextAccount w))) = Some a.
Proof.
  intros Hok Hget Hexp.
  rewrite (getNextAccount_store w Hok), map_get_clearStore, Hget.
  cbn [option_map]. unfold clearOne. now rewrite Hexp.
Qed.

Lemma switchOrFail_cases n :
  (exists r, n = Some r /\ switchOrFail n = mkResponse Switch (Some r) None)
  \/ (n = None /\ switchOrFail n = mkResponse Fail None None).
Proof. destruct n as [r|]; [left; exists r|right]; auto. Qed.

(** X10. The 403 handler disables a stored account for one hour: the
    account is left rate limited until the clock read + 3 600 000 ms with
    [failureCount] 3, its other fields unchanged.  In a well-formed store,
    as long as that hour has not passed when the replacement is selected,
    the answer is a switch to an account stored under another email, or
    [fail] when the selection finds none. *)
Theorem handle403_disables (w : World) (e : string) (a : AntigravityAccount)
    (retryAfterMs : option Z) :
  store_ok (accounts w) = true ->
  map_get e (accounts w) = Some a ->
  (readAt w 1 < readAt w 0 + 60 * 60 * 1000)%Z ->
  let res := handleResponse 403 e retryAfterMs w in
  (exists a',
      map_get e (accounts (snd res)) = Some a'
      /\ isRateLimited a' = Some true
      /\ rateLimitedUntil a' = Some (readAt w 0 + 60 * 60 * 1000)%Z
      /\ failureCount a' = Some 3
      /\ requestCount a' = requestCount a /\ lastUsed a' = lastUsed a
      /\ accessToken a' = accessToken a /\ expiresAt a' = expiresAt a)
  /\ ((exists r, fst res = mkResponse Switch (Some r) None /\ email r <> e)
      \/ fst res = mkResponse Fail None None).
Proof.
  intros Hok Hget Hcool res.
  set (a1 := spread a (mkPatch None None None None None
                         (Some CIRCUIT_BREAKER_THRESHOLD) (Some true)
                         (Some (Some (readAt w 0 + 60 * 60 * 1000)%Z)) None)).
  set (w1 := with_accounts (map_set e a1 (accounts w)) (tick w)).
  assert (Hres : res = (switchOrFail (fst (getNextAccount w1)),
                        snd (getNextAccount w1))).
  { unfold res, handleResponse. simpl. unfold handle403, bind, dateNow.
    unfold updateAccount. cbn [accounts tick]. rewrite Hget.
    unfold w1, a1, readAt. cbn [Nat.add].
    now destruct (getNextAccount _). }
  assert (Hok1 : store_ok (accounts w1) = true)
    by (apply store_ok_map_set; auto).
  assert (Hget1 : map_get e (accounts w1) = Some a1)
    by apply map_get_set_eq.
  assert (Hexp : expired (now w1) a1 = false).
  { apply (not_expired_before _ _ (readAt w 0 + 60 * 60 * 1000)%Z);
      [reflexivity | exact Hcool]. }
  rewrite Hres. cbn [fst snd]. split.
  - exists a1. split; [now apply getNextAccount_keeps|]. repeat split.
  - destruct (switchOrFail_cases (fst (getNextAccount w1)))
      as [(r & Hr & Hsw)|[_ Hf]]; [left|right; exact Hf].
    exists r. split; [exact Hsw|].
    now apply (getNextAccount_skips w1 e a1 r).
Qed.

Lemma handle403_disables_witness :
  let w := sampleWorld twoAccounts RoundRobin in
  store_ok (accounts w) = true
  /\ map_get "alice@example.com" (accounts w) = Some alice
  /\ (readAt w 1 < readAt w 0 + 60 * 60 * 1000)%Z
  /\ exists a',
      map_get "alice@example.com"
        (accounts (snd (handleResponse 403 "alice@example.com" None w)))
      = Some a'
      /\ isRateLimited a' = Some true /\ failureCount a' = Some 3.
Proof.
  intros w.
  assert (Hcool : (readAt w 1 < readAt w 0 + 60 * 60 * 1000)%Z)
    by (vm_compute; reflexivity).
  split; [reflexivity|]. split; [reflexivity|]. split; [exact Hcool|].
  destruct (proj1 (handle403_disables w "alice@example.com" alice None
                     eq_refl eq_refl Hcool))
    as (a' & Hget & Hlim & _ & Hfc & _).
  exists a'. auto.
Defined.

Lemma handleResponse_401 e retryAfterMs w :
  handleResponse 401 e retryAfterMs w =
  (let* result := handle401 e in
   if fst result then ret (mkResponse Retry None (Some 1000%Z))
   else ret (switchOrFail (snd result))) w.
Proof. reflexivity. Qed.

(** X11. The 401 handler on a stored account.  While the incremented
    [failureCount] is below 3 it stores the count and [lastUsed] without
    touching the rate limit and answers with a retry after 1000 ms.  Once
    the incremented count reaches 3 it stores it and then reports a failure
    on top, so the account ends rate limited for the default cooldown with
    [failureCount] two above the count before the call; in a well-formed
    store, as long as the cooldown has not run out when the replacement is
    selected, the answer is a switch to an account stored under another
    email, or [fail]. *)
Theorem handle401_retries_then_switches (w : World) (e : string)
    (a : AntigravityAccount) (retryAfterMs : option Z) :
  store_ok (accounts w) = true ->
  map_get e (accounts w) = Some a ->
  let res := handleResponse 401 e retryAfterMs w in
  (or_zero (failureCount a) + 1 < MAX_401_RETRIES ->
   fst res = mkResponse Retry None (Some 1000%Z)
   /\ exists a',
       map_get e (accounts (snd res)) = Some a'
       /\ failureCount a' = Some (or_zero (failureCount a) + 1)
       /\ lastUsed a' = Some (readAt w 0)
       /\ isRateLimited a' = isRateLimited a
       /\ rateLimitedUntil a' = rateLimitedUntil a)
  /\ (MAX_401_RETRIES <= or_zero (failureCount a) + 1 ->
      (readAt w 3 < readAt w 2 + RATE_LIMIT_COOLDOWN_MS)%Z ->
      (exists a',
          map_get e (accounts (snd res)) = Some a'
          /\ failureCount a' = Some (or_zero (failureCount a) + 2)
          /\ isRateLimited a' = Some true
          /\ rateLimitedUntil a'
             = Some (readAt w 2 + RATE_LIMIT_COOLDOWN_MS)%Z)
      /\ ((exists r, fst res = mkResponse Switch (Some r) None
                     /\ email r <> e)
          \/ fst res = mkResponse Fail None None)).
Proof.
  intros Hok Hget res.
  set (a1 := spread a (mkPatch None None None (Some (readAt w 0)) None
                         (Some (or_zero (failureCount a) + 1))
                         None None None)).
  set (w1 := with_accounts (map_set e a1 (accounts w)) (tick w)).
  assert (Hget1 : map_get e (accounts w1) = Some a1)
    by apply map_get_set_eq.
  assert (Hok1 : store_ok (accounts w1) = true)
    by (apply store_ok_map_set; auto).
  split.
  - intros Hlt. apply Nat.ltb_lt in Hlt.
    assert (Hres : res = (mkResponse Retry None (Some 1000%Z), w1)).
    { unfold res. rewrite handleResponse_401.
      unfold bind, handle401, bind, getAccount, dateNow, updateAccount.
      rewrite Hget. cbn [accounts tick]. rewrite Hget, Hlt. reflexivity. }
    rewrite Hres. cbn [fst snd]. split; [reflexivity|].
    exists a1. split; [exact Hget1|]. repeat split.
  - intros Hge Hcool. apply Nat.ltb_ge in Hge.
    set (a2 := rateLimitedBy a1 (readAt w 1)
                 (readAt w 2 + RATE_LIMIT_COOLDOWN_MS)%Z).
    set (w2 := with_accounts (map_set e a2 (accounts w1)) (tick (tick w1))).
    assert (Hrf : reportFailure e false RATE_LIMIT_COOLDOWN_MS w1 = (true, w2)).
    { rewrite (reportFailure_present w1 e a1 false _ Hget1).
      assert (Hb : (CIRCUIT_BREAKER_THRESHOLD <=? or_zero (failureCount a1) + 1)
                   = true).
      { apply Nat.leb_le. apply Nat.ltb_ge in Hge.
        unfold a1, MAX_401_RETRIES, CIRCUIT_BREAKER_THRESHOLD in *.
        cbn [failureCount spread overOpt p_failureCount or_zero]. lia. }
      rewrite Hb. reflexivity. }
    assert (Hres : res = (switchOrFail (fst (getNextAccount w2)),
                          snd (getNextAccount w2))).
    { unfold res. rewrite handleResponse_401.
      unfold bind, handle401, bind, getAccount, dateNow, updateAccount.
      rewrite Hget. cbn [accounts tick]. rewrite Hget, Hge.
      change (with_accounts _ _) with w1 at 1.
      rewrite Hrf. now destruct (getNextAccount w2). }
    assert (Hget2 : map_get e (accounts w2) = Some a2)
      by apply map_get_set_eq.
    assert (Hok2 : store_ok (accounts w2) = true)
      by (apply store_ok_map_set; auto).
    assert (Hexp : expired (now w2) a2 = false).
    { apply (not_expired_before _ _ (readAt w 2 + RATE_LIMIT_COOLDOWN_MS)%Z);
        [reflexivity | exact Hcool]. }
    rewrite Hres. cbn [fst snd]. split.
    + exists a2. split; [now apply getNextAccount_keeps|].
      split; [|split; reflexivity].
      unfold a2, rateLimitedBy, a1.
      cbn [failureCount spread overOpt p_failureCount or_zero].
      f_equal. lia.
    + destruct (switchOrFail_cases (fst (getNextAccount w2)))
        as [(r & Hr & Hsw)|[_ Hf]]; [left|right; exact Hf].
      exists r. split; [exact Hsw|].
      now apply (getNextAccount_skips w2 e a2 r).
Qed.

Lemma handle401_retries_then_switches_witness :
  let w := sampleWorld twoAccounts RoundRobin in
  store_ok (accounts w) = true
  /\ map_get "alice@example.com" (accounts w) = Some alice
  /\ or_zero (failureCount alice) + 1 < MAX_401_RETRIES
  /\ fst (handleResponse 401 "alice@example.com" None w)
     = mkResponse Retry None (Some 1000%Z).
Proof.
  intros w.
  assert (Hlt : or_zero (failureCount alice) + 1 < MAX_401_RETRIES)
    by (vm_compute; lia).
  split; [reflexivity|]. split; [reflexivity|]. split; [exact Hlt|].
  apply (proj1 (handle401_retries_then_switches w "alice@example.com" alice
                  None eq_refl eq_refl) Hlt).
Defined.

(** X12. A server error for an email that is not in the store is answered
    with a retry after 1000 ms and changes nothing, so that repeating it
    never trips the breaker and never switches; a 401 for such an email is
    not retried: the handler goes straight to selecting another account. *)
Theorem unknown_account_5xx_retries_forever (w : World) (e : string)
    (status : Z) (retryAfterMs : option Z) :
  map_get e (accounts w) = None ->
  (500 <= status < 600)%Z ->
  handleResponse status e retryAfterMs w
  = (mkResponse Retry None (Some 1000%Z), w)
  /\ handleResponse 401 e retryAfterMs w
     = (switchOrFail (fst (getNextAccount w)), snd (getNextAccount w)).
Proof.
  intros Hget Hrange. split.
  - rewrite handleResponse_5xx by exact Hrange.
    unfold bind, handle5xx, bind, getAccount, updateAccount.
    rewrite Hget. cbn. now rewrite Hget.
  - rewrite handleResponse_401.
    unfold bind, handle401, bind, getAccount. rewrite Hget.
    now destruct (getNextAccount w).
Qed.

Lemma unknown_account_5xx_retries_forever_witness :
  let w := sampleWorld twoAccounts RoundRobin in
  map_get "ghost@example.com" (accounts w) = None
  /\ (500 <= 502 < 600)%Z
  /\ handleResponse 502 "ghost@example.com" None w
     = (mkResponse Retry None (Some 1000%Z), w).
Proof.
  intros w. split; [reflexivity|]. split; [lia|].
  apply (proj1 (unknown_account_5xx_retries_forever w "ghost@example.com"
                  502 None eq_refl ltac:(lia))).
Defined.

(** ** What no handler does to the store *)

Section StoreRelation.

Variable R : Store -> Store -> Prop.
Hypothesis R_refl : forall s, R s s.
Hypothesis R_trans : forall s1 s2 s3, R s1 s2 -> R s2 s3 -> R s1 s3.
Hypothesis R_update :
  forall s e a u,
    p_requestCount u = None -> map_get e s = Some a ->
    R s (map_set e (spread a u) s).

Lemma rel_ret {A : Type} (x : A) : storeRel R (ret x).
Proof. intros w. apply R_refl. Qed.

Lemma rel_bind {A B : Type} (m : M A) (f : A -> M B) :
  storeRel R m -> (forall x, storeRel R (f x)) -> storeRel R (bind m f).
Proof.
  intros Hm Hf w. unfold bind. specialize (Hm w).
  destruct (m w) as [x w1]. cbn [snd] in Hm.
  eapply R_trans; [exact Hm | apply Hf].
Qed.

Lemma rel_dateNow : storeRel R dateNow.
Proof. intros w. apply R_refl. Qed.

Lemma rel_getAccount e : storeRel R (getAccount e).
Proof. intros w. apply R_refl. Qed.

Lemma rel_getAll : storeRel R getAll.
Proof. intros w. apply R_refl. Qed.

Lemma rel_updateAccount e u :
  p_requestCount u = None -> storeRel R (updateAccount e u).
Proof.
  intros Hu w. unfold updateAccount.
  destruct (map_get e (accounts w)) as [a|] eqn:Hget; cbn [snd].
  - now apply R_update.
  - apply R_refl.
Qed.

Lemma rel_clearLoop t snapshot :
  forall cleared, storeRel R (clearLoop t snapshot cleared).
Proof.
  induction snapshot as [|account rest IH]; intros cleared; cbn [clearLoop].
  - apply rel_ret.
  - destruct (expired t account); [|apply IH].
    apply rel_bind; [now apply rel_updateAccount|]. intros _. apply IH.
Qed.

Lemma rel_clearExpiredRateLimits : storeRel R clearExpiredRateLimits.
Proof.
  unfold clearExpiredRateLimits.
  apply rel_bind; [apply rel_getAll|]. intros snapshot.
  apply rel_bind; [apply rel_dateNow|]. intros t. apply rel_clearLoop.
Qed.

Lemma rel_getNextAccount : storeRel R getNextAccount.
Proof.
  unfold getNextAccount.
  apply rel_bind; [apply rel_clearExpiredRateLimits|]. intros _.
  apply rel_bind; [apply rel_getAll|]. intros accts.
  destruct (length _ =? 0).
  - apply rel_bind; [|intros _; apply rel_ret].
    destruct (0 <? length _); [|apply rel_ret].
    apply rel_bind; [apply rel_dateNow|]. intros _. apply rel_ret.
  - intros w. destruct (strategy w); apply R_refl.
Qed.

Lemma rel_bind_with {A B : Type} (P : A -> Prop) (m : M A) (f : A -> M B) :
  storeRel R m -> (forall w, P (fst (m w))) ->
  (forall x, P x -> storeRel R (f x)) -> storeRel R (bind m f).
Proof.
  intros Hm HP Hf w. unfold bind. specialize (Hm w). specialize (HP w).
  destruct (m w) as [x w1]. cbn [fst snd] in *.
  eapply R_trans; [exact Hm | now apply Hf].
Qed.

Lemma rel_reportFailure e b c : storeRel R (reportFailure e b c).
Proof.
  unfold reportFailure. apply rel_bind; [apply rel_getAccount|].
  intros [a|]; [|apply rel_ret].
  apply rel_bind; [apply rel_dateNow|]. intros used.
  apply (rel_bind_with (fun u => p_requestCount u = None)).
  - destruct (b || _); [|apply rel_ret].
    apply rel_bind; [apply rel_dateNow|]. intros t. apply rel_ret.
  - intros w. now destruct (b || _).
  - intros u Hu. apply rel_bind; [now apply rel_updateAccount|].
    intros _. apply rel_ret.
Qed.

Lemma rel_handle429 e r : storeRel R (handle429 e r).
Proof.
  unfold handle429. apply rel_bind; [apply rel_reportFailure|].
  intros _. apply rel_getNextAccount.
Qed.

Lemma rel_handle401 e : storeRel R (handle401 e).
Proof.
  unfold handle401. apply rel_bind; [apply rel_getAccount|].
  intros [a|].
  - apply rel_bind; [apply rel_dateNow|]. intros t.
    apply rel_bind; [now apply rel_updateAccount|]. intros _.
    destruct (_ <? _); [apply rel_ret|].
    apply rel_bind; [apply rel_reportFailure|]. intros _.
    apply rel_bind; [apply rel_getNextAccount|]. intros n. apply rel_ret.
  - apply rel_bind; [apply rel_getNextAccount|]. intros n. apply rel_ret.
Qed.

Lemma rel_handle403 e : storeRel R (handle403 e).
Proof.
  unfold handle403. apply rel_bind; [apply rel_dateNow|]. intros t.
  apply rel_bind; [now apply rel_updateAccount|]. intros _.
  apply rel_getNextAccount.
Qed.

Lemma rel_handle5xx e : storeRel R (handle5xx e).
Proof.
  unfold handle5xx. apply rel_bind; [apply rel_getAccount|]. intros account.
  destruct (_ <? _).
  - apply rel_bind; [now apply rel_updateAccount|]. intros _. apply rel_ret.
  - apply rel_bind; [apply rel_reportFailure|]. intros _. apply rel_ret.
Qed.

Lemma rel_handleResponse status e r :
  ~ (200 <= status < 300)%Z -> storeRel R (handleResponse status e r).
Proof.
  intros H2xx. unfold handleResponse.
  replace ((200 <=? status)%Z && (status <? 300)%Z) with false.
  2:{ symmetry. apply andb_false_iff.
      destruct (Z.leb_spec 200 status); [right|left; reflexivity].
      apply Z.ltb_ge. lia. }
  destruct (status =? 429)%Z.
  { apply rel_bind; [apply rel_handle429|]. intros n. apply rel_ret. }
  destruct (status =? 401)%Z.
  { apply rel_bind; [apply rel_handle401|]. intros res.
    destruct (fst res); apply rel_ret. }
  destruct (status =? 403)%Z.
  { apply rel_bind; [apply rel_handle403|]. intros n. apply rel_ret. }
  destruct ((500 <=? status)%Z && (status <? 600)%Z).
  { apply rel_bind; [apply rel_handle5xx|]. intros res.
    destruct (fst res); [apply rel_ret|].
    apply rel_bind; [apply rel_getNextAccount|]. intros n. apply rel_ret. }
  apply rel_bind; [apply rel_reportFailure|]. intros _. apply rel_ret.
Qed.

Lemma rel_updateAccountTokens e access expires :
  storeRel R (updateAccountTokens e access expires).
Proof.
  unfold updateAccountTokens. apply rel_bind; [apply rel_dateNow|].
  intros t. now apply rel_updateAccount.
Qed.

Lemma rel_refreshAllTokens refresher : storeRel R (refreshAllTokens refresher).
Proof.
  unfold refreshAllTokens.
  apply rel_bind.
  - unfold getAccountsNeedingRefresh.
    apply rel_bind; [apply rel_getAll|]. intros accts.
    apply rel_bind; [apply rel_dateNow|]. intros t. apply rel_ret.
  - intros selected. destruct (length selected =? 0); [apply rel_ret|].
    induction selected as [|account rest IH]; cbn [refreshLoop];
      [apply rel_ret|].
    apply rel_bind; [|intros _; exact IH].
    unfold refreshOne. destruct (refresher _) as [[access expires]|].
    + apply rel_updateAccountTokens.
    + apply rel_bind; [apply rel_reportFailure|]. intros _. apply rel_ret.
Qed.

End StoreRelation.

Lemma sameRequestCounts_refl s : sameRequestCounts s s.
Proof. intros k. reflexivity. Qed.

Lemma sameRequestCounts_trans s1 s2 s3 :
  sameRequestCounts s1 s2 -> sameRequestCounts s2 s3 ->
  sameRequestCounts s1 s3.
Proof. intros H12 H23 k. now rewrite H23, H12. Qed.

Lemma sameRequestCounts_update s e a u :
  p_requestCount u = None -> map_get e s = Some a ->
  sameRequestCounts s (map_set e (spread a u) s).
Proof.
  intros Hu Hget k. destruct (String.eqb e k) eqn:E.
  - apply String.eqb_eq in E. subst k.
    rewrite map_get_set_eq, Hget. cbn. now rewrite Hu.
  - apply String.eqb_neq in E. now rewrite map_get_set_ne.
Qed.

Lemma sameKeys_refl s : sameKeys s s.
Proof. split; auto. Qed.

Lemma sameKeys_trans s1 s2 s3 :
  sameKeys s1 s2 -> sameKeys s2 s3 -> sameKeys s1 s3.
Proof.
  intros [K12 O12] [K23 O23]. split; [congruence | auto].
Qed.

Lemma sameKeys_update s e a u :
  map_get e s = Some a -> sameKeys s (map_set e (spread a u) s).
Proof.
  intros Hget. split.
  - apply map_set_keys. congruence.
  - intros Hok. now apply store_ok_map_set.
Qed.

Lemma reportSuccess_world w e a :
  map_get e (accounts w) = Some a ->
  reportSuccess e w =
  (tt,
   with_accounts
     (map_set e
        (spread a (mkPatch None None None (Some (now w))
                     (Some (or_zero (requestCount a) + 1)) (Some 0)
                     (Some false) (Some None) None))
        (accounts w))
     (tick w)).
Proof.
  intros Hget. unfold reportSuccess, bind, getAccount, dateNow, updateAccount.
  rewrite Hget. cbn [accounts tick]. now rewrite Hget.
Qed.

Lemma handleResponse_2xx status e r w :
  (200 <= status < 300)%Z ->
  handleResponse status e r w
  = (mkResponse Continue None None, snd (reportSuccess e w)).
Proof.
  intros [Hlo Hhi]. unfold handleResponse.
  replace (200 <=? status)%Z with true by (symmetry; apply Z.leb_le; lia).
  replace (status <? 300)%Z with true by (symmetry; apply Z.ltb_lt; lia).
  cbn [andb]. unfold bind, ret. now destruct (reportSuccess e w).
Qed.

(** X13. [requestCount] changes only when a success is reported.  A
    selection, a tick of the refresh sweep and the answer to any status
    outside 2xx leave the [requestCount] of every stored account as it was;
    the answer to a 2xx status adds exactly one to the count of the reported
    account and leaves the other accounts unchanged. *)
Theorem requestCount_only_on_success (w : World) (status : Z) (e : string)
    (retryAfterMs : option Z) :
  sameRequestCounts (accounts w) (accounts (snd (getNextAccount w)))
  /\ (forall refresher,
        sameRequestCounts (accounts w)
          (accounts (snd (refreshAllTokens refresher w))))
  /\ (~ (200 <= status < 300)%Z ->
      sameRequestCounts (accounts w)
        (accounts (snd (handleResponse status e retryAfterMs w))))
  /\ ((200 <= status < 300)%Z ->
      forall a,
        map_get e (accounts w) = Some a ->
        let w' := snd (handleResponse status e retryAfterMs w) in
        option_map requestCount (map_get e (accounts w'))
        = Some (Some (or_zero (requestCount a) + 1))
        /\ forall k, k <> e ->
                     map_get k (accounts w') = map_get k (accounts w)).
Proof.
  split; [|split; [|split]].
  - apply (rel_getNextAccount sameRequestCounts sameRequestCounts_refl
             sameRequestCounts_trans sameRequestCounts_update).
  - intros refresher.
    apply (rel_refreshAllTokens sameRequestCounts sameRequestCounts_refl
             sameRequestCounts_trans sameRequestCounts_update).
  - intros H2xx.
    apply (rel_handleResponse sameRequestCounts sameRequestCounts_refl
             sameRequestCounts_trans sameRequestCounts_update); auto.
  - intros H2xx a Hget w'. unfold w'.
    rewrite handleResponse_2xx by exact H2xx.
    rewrite (reportSuccess_world w e a Hget). cbn [snd accounts with_accounts].
    split.
    + now rewrite map_get_set_eq.
    + intros k Hne. apply map_get_set_ne. congruence.
Qed.

Lemma requestCount_only_on_success_witness :
  let w := sampleWorld twoAccounts RoundRobin in
  (~ (200 <= 429 < 300)%Z)
  /\ sameRequestCounts (accounts w)
       (accounts (snd (handleResponse 429 "alice@example.com" None w))).
Proof.
  intros w. assert (H : ~ (200 <= 429 < 300)%Z) by lia.
  split; [exact H|].
  apply (proj1 (proj2 (proj2 (requestCount_only_on_success w 429
                                "alice@example.com" None))) H).
Defined.

(** X14. No operation of the rotation engine adds, removes or reorders an
    account: a selection, a tick of the refresh sweep and the answer to any
    status leave the keys of the store and their order as they were, and a
    well-formed store well formed. *)
Theorem handlers_keep_keys (w : World) (status : Z) (e : string)
    (retryAfterMs : option Z) (refresher : string -> option (string * Z)) :
  sameKeys (accounts w) (accounts (snd (getNextAccount w)))
  /\ sameKeys (accounts w) (accounts (snd (refreshAllTokens refresher w)))
  /\ sameKeys (accounts w)
       (accounts (snd (handleResponse status e retryAfterMs w))).
Proof.
  assert (Hupd : forall s e' a u,
             p_requestCount u = None -> map_get e' s = Some a ->
             sameKeys s (map_set e' (spread a u) s))
    by (intros; now apply sameKeys_update).
  split; [|split].
  - apply (rel_getNextAccount sameKeys sameKeys_refl sameKeys_trans Hupd).
  - apply (rel_refreshAllTokens sameKeys sameKeys_refl sameKeys_trans Hupd).
  - destruct (Z.leb_spec 200 status) as [Hlo|Hlo];
      [destruct (Z.ltb_spec status 300) as [Hhi|Hhi]|].
    + rewrite handleResponse_2xx by lia. cbn [snd].
      destruct (map_get e (accounts w)) as [a|] eqn:Hget.
      * rewrite (reportSuccess_world w e a Hget).
        cbn [snd accounts with_accounts]. now apply sameKeys_update.
      * unfold reportSuccess, bind, getAccount. rewrite Hget.
        apply sameKeys_refl.
    + apply (rel_handleResponse sameKeys sameKeys_refl sameKeys_trans Hupd).
      lia.
    + apply (rel_handleResponse sameKeys sameKeys_refl sameKeys_trans Hupd).
      lia.
Qed.

(** ** Chat commands *)

Lemma agDisable_world w e a :
  isEmpty e = false ->
  map_get e (accounts w) = Some a ->
  agDisable e w =
  (Disabled e,
   with_accounts
     (map_set e
        (spread a (mkPatch None None None None None None (Some true)
                     (Some (Some (now w + 24 * 60 * 60 * 1000)%Z)) None))
        (accounts w))
     (tick w)).
Proof.
  intros Hne Hget.
  unfold agDisable, rotatorGetAccount, bind, getAccount, dateNow, updateAccount.
  rewrite Hne, Hget. cbn [accounts tick]. now rewrite Hget.
Qed.

Lemma agEnable_world w e a :
  isEmpty e = false ->
  map_get e (accounts w) = Some a ->
  agEnable e w =
  (Enabled e,
   with_accounts (map_set e (spread a clearPatch) (accounts w)) w).
Proof.
  intros Hne Hget.
  unfold agEnable, rotatorGetAccount, bind, getAccount, updateAccount.
  rewrite Hne, Hget. now rewrite Hget.
Qed.

(** X15. [/ag-disable e] with a stored email answers [Disabled] and leaves
    the account rate limited until the clock read + 24 h, its counters and
    tokens unchanged; in a well-formed store the next selection, made before
    that deadline, does not return the account.  With an email that is not
    stored the answer is [AccountNotFound] and nothing changes; without an
    argument the answer is the usage text and nothing changes. *)
Theorem agDisable_excludes (w : World) (e : string) :
  store_ok (accounts w) = true ->
  agDisable "" w = (DisableUsage, w)
  /\ (isEmpty e = false -> map_get e (accounts w) = None ->
      agDisable e w = (AccountNotFound e, w))
  /\ (isEmpty e = false ->
      forall a,
        map_get e (accounts w) = Some a ->
        let w' := snd (agDisable e w) in
        fst (agDisable e w) = Disabled e
        /\ (exists a',
               map_get e (accounts w') = Some a'
               /\ isRateLimited a' = Some true
               /\ rateLimitedUntil a'
                  = Some (readAt w 0 + 24 * 60 * 60 * 1000)%Z
               /\ failureCount a' = failureCount a
               /\ requestCount a' = requestCount a
               /\ accessToken a' = accessToken a
               /\ priority a' = priority a)
        /\ ((readAt w 1 < readAt w 0 + 24 * 60 * 60 * 1000)%Z ->
            forall r, fst (getNextAccount w') = Some r -> email r <> e)).
Proof.
  intros Hok. split; [reflexivity|]. split.
  - intros Hne Hget.
    unfold agDisable, rotatorGetAccount, bind, getAccount.
    now rewrite Hne, Hget.
  - intros Hne a Hget w'. unfold w'.
    rewrite (agDisable_world w e a Hne Hget). cbn [fst snd].
    split; [reflexivity|]. split.
    + eexists. split; [apply map_get_set_eq|]. repeat split.
    + intros Hcool r Hres.
      eapply getNextAccount_skips; [| | | |exact Hres].
      * now apply store_ok_map_set.
      * apply map_get_set_eq.
      * reflexivity.
      * eapply not_expired_before; [reflexivity|exact Hcool].
Qed.

Lemma agDisable_excludes_witness :
  let w := sampleWorld twoAccounts Priority in
  store_ok (accounts w) = true
  /\ isEmpty "bob@example.com" = false
  /\ map_get "bob@example.com" (accounts w) = Some bob
  /\ fst (agDisable "bob@example.com" w) = Disabled "bob@example.com".
Proof.
  intros w. split; [reflexivity|]. split; [reflexivity|].
  split; [reflexivity|].
  apply (proj2 (proj2 (agDisable_excludes w "bob@example.com" eq_refl))
           eq_refl bob eq_refl).
Defined.

(** X16. [/ag-enable e] with a stored email answers [Enabled] and leaves the
    account without rate limit and with [failureCount] 0, its other fields
    unchanged; in a well-formed store it is a candidate of the next
    selection.  Enabling after disabling therefore does not restore the
    account as it was: whatever its failures and rate limit were, it ends
    with none.  An unknown email is answered [AccountNotFound], nothing
    changed. *)
Theorem agEnable_restores (w : World) (e : string) :
  store_ok (accounts w) = true ->
  isEmpty e = false ->
  (map_get e (accounts w) = None -> agEnable e w = (AccountNotFound e, w))
  /\ (forall a,
        map_get e (accounts w) = Some a ->
        fst (agEnable e w) = Enabled e
        /\ map_get e (accounts (snd (agEnable e w)))
           = Some (spread a clearPatch)
        /\ In (spread a clearPatch) (candidates (snd (agEnable e w)))
        /\ map_get e
             (accounts (snd ((let* _ := agDisable e in agEnable e) w)))
           = Some (spread a clearPatch)).
Proof.
  intros Hok Hne. split.
  - intros Hget. unfold agEnable, rotatorGetAccount, bind, getAccount.
    now rewrite Hne, Hget.
  - intros a Hget. rewrite (agEnable_world w e a Hne Hget). cbn [fst snd].
    split; [reflexivity|]. split; [apply map_get_set_eq|]. split.
    + apply (candidates_In_free _ e); [apply map_get_set_eq|reflexivity].
    + unfold bind. rewrite (agDisable_world w e a Hne Hget).
      erewrite agEnable_world; [|exact Hne|apply map_get_set_eq].
      cbn [snd accounts with_accounts]. rewrite map_get_set_eq.
      reflexivity.
Qed.

Lemma agEnable_restores_witness :
  let w := sampleWorld [("carol@example.com", carol)] RoundRobin in
  store_ok (accounts w) = true
  /\ isEmpty "carol@example.com" = false
  /\ map_get "carol@example.com" (accounts w) = Some carol
  /\ fst (agEnable "carol@example.com" w) = Enabled "carol@example.com".
Proof.
  intros w. split; [reflexivity|]. split; [reflexivity|].
  split; [reflexivity|].
  apply (proj2 (agEnable_restores w "carol@example.com" eq_refl eq_refl)
           carol eq_refl).
Defined.

Lemma effPriority_clearOne t a : effPriority (clearOne t a) = effPriority a.
Proof. unfold clearOne. now destruct (expired t a). Qed.

(** X17. [/ag-switch e] with a stored email answers [SwitchedTo], lifts the
    rate limit of the account, resets its [failureCount] and gives it
    priority 999; in a well-formed store under the priority strategy, when
    every other account has an effective priority below 999, the next
    selection returns that account. *)
Theorem agSwitch_forces_selection (w : World) (e : string)
    (a : AntigravityAccount) :
  store_ok (accounts w) = true ->
  isEmpty e = false ->
  map_get e (accounts w) = Some a ->
  let forced := spread a (mkPatch None None (Some 999%Z) None None (Some 0)
                            (Some false) (Some None) None) in
  let w' := snd (agSwitch e w) in
  fst (agSwitch e w) = SwitchedTo e
  /\ map_get e (accounts w') = Some forced
  /\ (strategy w = Priority ->
      (forall k b, In (k, b) (accounts w) -> k <> e ->
                   (effPriority b < 999)%Z) ->
      fst (getNextAccount w') = Some forced).
Proof.
  intros Hok Hne Hget forced w'.
  assert (Hw : agSwitch e w
               = (SwitchedTo e,
                  with_accounts (map_set e forced (accounts w)) w)).
  { unfold agSwitch, rotatorGetAccount, bind, getAccount, updateAccount.
    rewrite Hne. cbn [negb]. rewrite Hget. now rewrite Hget. }
  unfold w'. rewrite Hw. cbn [fst snd].
  set (w1 := with_accounts (map_set e forced (accounts w)) w).
  assert (Hget1 : map_get e (accounts w1) = Some forced)
    by apply map_get_set_eq.
  split; [reflexivity|]. split; [exact Hget1|].
  intros Hstrat Hothers.
  assert (Hok1 : store_ok (accounts w1) = true)
    by (apply store_ok_map_set; auto).
  destruct (proj1 (store_ok_spec _) Hok1) as [Hnd1 Hk1].
  assert (Hin : In forced (candidates w1))
    by (apply (candidates_In_free w1 e); auto).
  rewrite (getNextAccount_result w1 Hok1).
  assert (Hstrat1 : strategy w1 = Priority) by exact Hstrat.
  rewrite Hstrat1.
  assert (Hne1 : candidates w1 <> [])
    by (intros Hnil; now rewrite Hnil in Hin).
  destruct (array_sort_head_first_max effPriority (candidates w1) Hne1)
    as (before & r & after & Hsplit & Hhead & Hlt & Hle).
  assert (Hmax : (999 <= effPriority r)%Z).
  { change 999%Z with (effPriority forced).
    rewrite Hsplit in Hin. apply in_app_or in Hin.
    destruct Hin as [Hin|[<-|Hin]].
    - specialize (Hlt _ Hin). lia.
    - lia.
    - now apply Hle. }
  assert (Hr : r = forced).
  { assert (Hinr : In r (candidates w1))
      by (rewrite Hsplit; apply in_or_app; right; now left).
    apply candidates_inv in Hinr.
    destruct Hinr as (k & b & Hinb & Hrb & _).
    pose proof (In_map_get k b _ Hnd1 Hinb) as Hgetb.
    destruct (String.eqb e k) eqn:E.
    - apply String.eqb_eq in E. rewrite <- E in Hgetb.
      assert (b = forced) by congruence. subst b.
      rewrite Hrb. unfold clearOne.
      now rewrite not_limited_not_expired.
    - apply String.eqb_neq in E. exfalso.
      unfold w1 in Hgetb. cbn [accounts with_accounts] in Hgetb.
      rewrite map_get_set_ne in Hgetb by exact E.
      apply map_get_In in Hgetb.
      assert (k <> e) as Hke by congruence.
      specialize (Hothers k b Hgetb Hke).
      rewrite Hrb, effPriority_clearOne in Hmax. lia. }
  destruct (candidates w1); [congruence|].
  unfold selectPriority. now rewrite Hhead, Hr.
Qed.

Lemma agSwitch_forces_selection_witness :
  let w := sampleWorld twoAccounts Priority in
  store_ok (accounts w) = true
  /\ isEmpty "alice@example.com" = false
  /\ map_get "alice@example.com" (accounts w) = Some alice
  /\ fst (agSwitch "alice@example.com" w) = SwitchedTo "alice@example.com".
Proof.
  intros w. split; [reflexivity|]. split; [reflexivity|].
  split; [reflexivity|].
  apply (proj1 (agSwitch_forces_selection w "alice@example.com" alice
                  eq_refl eq_refl eq_refl)).
Defined.

Lemma getNextAccount_time w :
  store_ok (accounts w) = true ->
  clock (snd (getNextAccount w)) = clock w
  /\ strategy (snd (getNextAccount w)) = strategy w
  /\ (candidates w <> [] -> reads (snd (getNextAccount w)) = S (reads w)).
Proof.
  intros Hok. unfold getNextAccount, bind.
  rewrite (clearExpiredRateLimits_full w Hok).
  unfold getAll. cbn [accounts with_accounts]. fold (candidates w).
  destruct (candidates w) as [|c cs].
  - cbn [length Nat.eqb].
    destruct (0 <? length _); cbn; repeat split; auto; congruence.
  - cbn [length Nat.eqb strategy with_accounts tick].
    destruct (strategy w) eqn:Es; cbn; rewrite ?Es; auto.
Qed.

Lemma sole_account_selected w e a :
  accounts w = [(e, a)] -> email a = e ->
  truthyB (isRateLimited a) = false ->
  fst (getNextAccount w) = Some a
  /\ accounts (snd (getNextAccount w)) = [(e, a)]
  /\ clock (snd (getNextAccount w)) = clock w
  /\ reads (snd (getNextAccount w)) = S (reads w).
Proof.
  intros Hacc Hemail Hfree.
  assert (Hok : store_ok (accounts w) = true).
  { rewrite Hacc. unfold store_ok. cbn. rewrite Hemail.
    now rewrite String.eqb_refl. }
  assert (Hclear : clearStore (now w) (accounts w) = [(e, a)]).
  { rewrite Hacc. cbn. unfold clearOne.
    now rewrite not_limited_not_expired. }
  assert (Hcand : candidates w = [a]).
  { unfold candidates. rewrite Hclear. cbn. unfold isAvailable.
    now rewrite Hfree. }
  destruct (getNextAccount_time w Hok) as (Hclock & _ & Hreads).
  split; [|split; [|split]].
  - rewrite (getNextAccount_result w Hok), Hcand.
    destruct (strategy w); try reflexivity.
    cbn [length]. destruct (currentRoundRobinIndex w); reflexivity.
  - now rewrite (getNextAccount_store w Hok).
  - exact Hclock.
  - apply Hreads. now rewrite Hcand.
Qed.

(** X18. [/ag-switch] without an argument, when the store holds a single
    account that is not rate limited: the command answers
    [NoOtherAccounts] and makes the account available again, but (as long
    as the 5 s cooldown has not run out when the replacement is looked for)
    the attempt stays on the record: [failureCount] is one higher,
    [lastUsed] is set, and the deadline of the 5 s rate limit is left in
    [rateLimitedUntil]. *)
Theorem agSwitch_sole_account (w : World) (e : string)
    (a : AntigravityAccount) :
  accounts w = [(e, a)] ->
  email a = e ->
  truthyB (isRateLimited a) = false ->
  (readAt w 3 < readAt w 2 + 5000)%Z ->
  fst (agSwitch "" w) = NoOtherAccounts
  /\ exists a',
      accounts (snd (agSwitch "" w)) = [(e, a')]
      /\ isRateLimited a' = Some false
      /\ rateLimitedUntil a' = Some (readAt w 2 + 5000)%Z
      /\ failureCount a' = Some (or_zero (failureCount a) + 1)
      /\ lastUsed a' = Some (readAt w 1)
      /\ requestCount a' = requestCount a.
Proof.
  intros Hacc Hemail Hfree Hcool.
  destruct (sole_account_selected w e a Hacc Hemail Hfree)
    as (Hr1 & Hacc1 & Hclock1 & Hreads1).
  unfold agSwitch. cbn [isEmpty String.eqb negb]. unfold bind.
  destruct (getNextAccount w) as [r1 w1]. cbn [fst snd] in *. subst r1.
  rewrite Hemail.
  assert (Hget1 : map_get e (accounts w1) = Some a).
  { rewrite Hacc1. cbn. now rewrite String.eqb_refl. }
  rewrite (reportFailure_present w1 e a true 5000 Hget1).
  cbn [orb].
  set (a2 := spread a _).
  set (w2 := with_accounts _ (tick (tick w1))).
  assert (Hacc2 : accounts w2 = [(e, a2)]).
  { unfold w2. cbn [accounts with_accounts]. rewrite Hacc1. cbn.
    now rewrite String.eqb_refl. }
  assert (Hu2 : rateLimitedUntil a2 = Some (readAt w 2 + 5000)%Z).
  { unfold a2, now, readAt. cbn. now rewrite Hclock1, Hreads1. }
  assert (Hnow2 : now w2 = readAt w 3).
  { unfold w2, now, readAt. cbn. now rewrite Hclock1, Hreads1. }
  assert (Hok2 : store_ok (accounts w2) = true).
  { rewrite Hacc2. unfold store_ok. cbn. rewrite Hemail.
    now rewrite String.eqb_refl. }
  assert (Hexp2 : expired (now w2) a2 = false).
  { rewrite Hnow2. eapply not_expired_before; [exact Hu2|exact Hcool]. }
  assert (Hclear2 : clearStore (now w2) (accounts w2) = [(e, a2)]).
  { rewrite Hacc2. unfold clearStore. cbn [map fst snd]. unfold clearOne.
    now rewrite Hexp2. }
  assert (Hcand2 : candidates w2 = []).
  { unfold candidates. rewrite Hclear2. reflexivity. }
  pose proof (getNextAccount_result w2 Hok2) as Hres3.
  pose proof (getNextAccount_store w2 Hok2) as Hacc3.
  rewrite Hcand2 in Hres3. rewrite Hclear2 in Hacc3.
  destruct (getNextAccount w2) as [r3 w3]. cbn [fst snd] in *. subst r3.
  unfold updateAccount. rewrite Hacc3. cbn [map_get].
  rewrite String.eqb_refl. cbn [fst snd ret accounts with_accounts map_set].
  rewrite String.eqb_refl.
  split; [reflexivity|]. eexists. split; [reflexivity|].
  split; [reflexivity|]. split.
  - cbn. exact Hu2.
  - split; [reflexivity|]. split; [|reflexivity].
    cbn. unfold now. now rewrite Hclock1, Hreads1.
Qed.

Lemma agSwitch_sole_account_witness :
  let w := sampleWorld [("alice@example.com", alice)] RoundRobin in
  accounts w = [("alice@example.com", alice)]
  /\ (readAt w 3 < readAt w 2 + 5000)%Z
  /\ fst (agSwitch "" w) = NoOtherAccounts.
Proof.
  intros w.
  assert (Hcool : (readAt w 3 < readAt w 2 + 5000)%Z)
    by (vm_compute; reflexivity).
  split; [reflexivity|]. split; [exact Hcool|].
  apply (proj1 (agSwitch_sole_account w "alice@example.com" alice
                  eq_refl eq_refl eq_refl Hcool)).
Defined.

(** ** Forced refresh *)

Section ForcedRefreshProperties.

Variable refreshAccessToken : string -> option (string * Z).

Lemma forceRefreshLoop_cons account rest w :
  forceRefreshLoop refreshAccessToken (account :: rest) w =
  (let (ok, w1) := forceOne refreshAccessToken account w in
   let (results, w2) := forceRefreshLoop refreshAccessToken rest w1 in
   ((email account, ok) :: results, w2)).
Proof.
  cbn [forceRefreshLoop]. unfold bind, forceOne. reflexivity.
Qed.

Lemma touchesOnly_forceOne account :
  touchesOnly (forceOne refreshAccessToken account) (email account).
Proof.
  unfold forceOne.
  destruct (refreshAccessToken (refreshToken account)) as [[access expires]|].
  - apply touchesOnly_bind; [apply touchesOnly_updateAccountTokens|].
    intros _. apply touchesOnly_ret.
  - apply touchesOnly_ret.
Qed.

Lemma forceOne_result account w :
  fst (forceOne refreshAccessToken account w)
  = refreshSucceeds refreshAccessToken account.
Proof.
  unfold forceOne, refreshSucceeds.
  destruct (refreshAccessToken (refreshToken account)) as [[access expires]|];
    [|reflexivity].
  unfold bind. now destruct (updateAccountTokens _ _ _ w).
Qed.

Lemma forceOne_effect s w :
  map_get (email s) (accounts w) = Some s ->
  exists s',
    map_get (email s) (accounts (snd (forceOne refreshAccessToken s w)))
    = Some s'
    /\ forceRefreshed refreshAccessToken s s'.
Proof.
  intros Hget. unfold forceOne, forceRefreshed.
  destruct (refreshAccessToken (refreshToken s)) as [[access expires]|].
  - unfold updateAccountTokens, bind, dateNow, updateAccount, ret.
    cbn [accounts tick]. rewrite Hget. cbn [snd accounts with_accounts].
    rewrite map_get_set_eq. eexists. split; [reflexivity|]. repeat split.
  - exists s. split; auto.
Qed.

Lemma forceRefreshLoop_results all :
  forall w,
    fst (forceRefreshLoop refreshAccessToken all w)
    = map (fun a => (email a, refreshSucceeds refreshAccessToken a)) all.
Proof.
  induction all as [|x rest IH]; intros w; [reflexivity|].
  rewrite forceRefreshLoop_cons.
  pose proof (forceOne_result x w) as Hx.
  destruct (forceOne refreshAccessToken x w) as [ok w1]. cbn [fst] in Hx.
  specialize (IH w1).
  destruct (forceRefreshLoop refreshAccessToken rest w1) as [results w2].
  cbn [fst map] in *. now rewrite Hx, IH.
Qed.

Lemma forceRefreshLoop_frame all :
  forall w k,
    ~ In k (map email all) ->
    map_get k (accounts (snd (forceRefreshLoop refreshAccessToken all w)))
    = map_get k (accounts w).
Proof.
  induction all as [|x rest IH]; intros w k Hnotin; [reflexivity|].
  rewrite forceRefreshLoop_cons.
  pose proof (touchesOnly_forceOne x w k) as Hx.
  destruct (forceOne refreshAccessToken x w) as [ok w1]. cbn [snd] in Hx.
  specialize (IH w1 k).
  destruct (forceRefreshLoop refreshAccessToken rest w1) as [results w2].
  cbn [snd] in *. rewrite IH.
  - apply Hx. intros ->. apply Hnotin. now left.
  - intros Hin. apply Hnotin. now right.
Qed.

Lemma forceRefreshLoop_effect all :
  forall w s,
    NoDup (map email all) -> In s all ->
    map_get (email s) (accounts w) = Some s ->
    exists s',
      map_get (email s)
        (accounts (snd (forceRefreshLoop refreshAccessToken all w)))
      = Some s'
      /\ forceRefreshed refreshAccessToken s s'.
Proof.
  induction all as [|x rest IH]; intros w s Hnd Hin Hget; [destruct Hin|].
  cbn [map] in Hnd. inversion Hnd as [|? ? Hnotin Hnd']; subst.
  rewrite forceRefreshLoop_cons. destruct Hin as [->|Hin].
  - destruct (forceOne_effect s w Hget) as (s' & Hget' & Href).
    pose proof (forceRefreshLoop_frame rest
                  (snd (forceOne refreshAccessToken s w)) (email s) Hnotin)
      as Hframe.
    destruct (forceOne refreshAccessToken s w) as [ok w1]. cbn [snd] in *.
    destruct (forceRefreshLoop refreshAccessToken rest w1) as [results w2].
    cbn [snd] in *. exists s'. split; [congruence | exact Href].
  - assert (Hne : email s <> email x).
    { intros Heq. apply Hnotin. rewrite <- Heq. now apply in_map. }
    pose proof (touchesOnly_forceOne x w (email s) Hne) as Hx.
    destruct (forceOne refreshAccessToken x w) as [ok w1]. cbn [snd] in Hx.
    destruct (IH w1 s Hnd' Hin) as (s' & Hget' & Href); [congruence|].
    destruct (forceRefreshLoop refreshAccessToken rest w1) as [results w2].
    cbn [snd] in *. exists s'. auto.
Qed.

End ForcedRefreshProperties.

(** X19. The forced refresh ([refreshAllTokens] of the exposed API, the
    loop of [/ag-refresh]) goes through every stored account, rate limited
    or not and whatever its expiry: its result lists the emails in the
    order of the store, each with whether the refresher succeeded.  In a
    well-formed store an account whose refresh succeeds gets the new token
    and expiry and [failureCount] 0 while its rate limit and its
    [requestCount] stay; an account whose refresh fails is left exactly as
    it was (no failure is reported, unlike in the sweep). *)
Theorem forceRefreshAll_refreshes_everything
    (refreshAccessToken : string -> option (string * Z)) (w : World) :
  store_ok (accounts w) = true ->
  fst (forceRefreshAll refreshAccessToken w)
  = map (fun a => (email a, refreshSucceeds refreshAccessToken a))
        (map_values (accounts w))
  /\ forall k a,
      map_get k (accounts w) = Some a ->
      exists a',
        map_get k (accounts (snd (forceRefreshAll refreshAccessToken w)))
        = Some a'
        /\ forceRefreshed refreshAccessToken a a'.
Proof.
  intros Hok. destruct (proj1 (store_ok_spec _) Hok) as [Hnd Hk].
  unfold forceRefreshAll, getAllAccounts, bind, getAll. split.
  - apply forceRefreshLoop_results.
  - intros k a Hget. apply map_get_In in Hget.
    pose proof (keyed_In k a _ Hk Hget) as He. rewrite <- He.
    apply forceRefreshLoop_effect.
    + now rewrite values_emails.
    + unfold map_values. apply in_map_iff. now exists (k, a).
    + rewrite He. now apply In_map_get.
Qed.

Lemma forceRefreshAll_refreshes_everything_witness :
  let w := sampleWorld [("carol@example.com", carol);
                        ("bob@example.com", bob)] RoundRobin in
  store_ok (accounts w) = true
  /\ fst (forceRefreshAll alwaysFresh w)
     = [("carol@example.com", true); ("bob@example.com", true)].
Proof.
  intros w. split; [reflexivity|].
  rewrite (proj1 (forceRefreshAll_refreshes_everything alwaysFresh w eq_refl)).
  reflexivity.
Defined.

(** ** The first rotator and the provider *)

Lemma legacy_getNextAccount_result w :
  Legacy.getNextAccount w =
  match List.filter isAvailable (map_values (accounts w)) with
  | [] => (None, w)
  | c :: cs =>
      match strategy w with
      | RoundRobin => selectRoundRobin (c :: cs) w
      | Priority => (selectPriority (c :: cs), w)
      | LeastUsed => (selectLeastUsed (c :: cs), w)
      | Failover => (selectFailover (c :: cs), w)
      end
  end.
Proof.
  unfold Legacy.getNextAccount, bind, getAll.
  now destruct (List.filter isAvailable (map_values (accounts w))).
Qed.

Lemma legacy_getNextAccount_In w r :
  fst (Legacy.getNextAccount w) = Some r ->
  In r (List.filter isAvailable (map_values (accounts w))).
Proof.
  rewrite legacy_getNextAccount_result.
  destruct (List.filter isAvailable (map_values (accounts w))) as [|c cs];
    [discriminate|].
  destruct (selector_In w c cs) as (r' & Hsel & Hin).
  intros Hres.
  assert (Some r = Some r') as Heq.
  { rewrite <- Hres, <- Hsel. unfold selectRoundRobin.
    destruct (strategy w); reflexivity. }
  now injection Heq as ->.
Qed.

Lemma legacy_getNextAccount_same w :
  let w' := snd (Legacy.getNextAccount w) in
  accounts w' = accounts w /\ clock w' = clock w /\ reads w' = reads w
  /\ strategy w' = strategy w.
Proof.
  rewrite legacy_getNextAccount_result.
  destruct (List.filter isAvailable _); [cbn; auto|].
  destruct (strategy w) eqn:Es; cbn; rewrite ?Es; auto.
Qed.

(** X20. The first rotator's [getNextAccount] only reads: for every
    strategy the stored accounts and the clock are as before the call.  It
    returns null exactly when every stored account is rate limited, and an
    account it returns is a stored account that is not rate limited. *)
Theorem legacy_getNextAccount_reads_only (w : World) :
  let w' := snd (Legacy.getNextAccount w) in
  accounts w' = accounts w /\ clock w' = clock w /\ reads w' = reads w
  /\ strategy w' = strategy w
  /\ (fst (Legacy.getNextAccount w) = None <->
      forall a, In a (map_values (accounts w)) ->
                truthyB (isRateLimited a) = true)
  /\ (forall r, fst (Legacy.getNextAccount w) = Some r ->
                In r (map_values (accounts w))
                /\ truthyB (isRateLimited r) = false).
Proof.
  destruct (legacy_getNextAccount_same w) as (H1 & H2 & H3 & H4).
  repeat (split; [assumption|]). split.
  - split.
    + intros Hnone a Hin.
      destruct (truthyB (isRateLimited a)) eqn:E; auto. exfalso.
      rewrite legacy_getNextAccount_result in Hnone.
      destruct (List.filter isAvailable (map_values (accounts w)))
        as [|c cs] eqn:Hf.
      * assert (In a []) as Habs; [|destruct Habs].
        rewrite <- Hf. apply filter_In. split; auto.
        unfold isAvailable. now rewrite E.
      * destruct (selector_In w c cs) as (r' & Hsel & _).
        unfold selectRoundRobin in Hnone.
        destruct (strategy w); cbn [fst] in Hnone; congruence.
    + intros Hall.
      destruct (fst (Legacy.getNextAccount w)) as [r|] eqn:Hres; auto.
      apply legacy_getNextAccount_In in Hres. apply filter_In in Hres.
      destruct Hres as [Hin Hav]. unfold isAvailable in Hav.
      rewrite (Hall r Hin) in Hav. discriminate.
  - intros r Hres. apply legacy_getNextAccount_In in Hres.
    apply filter_In in Hres. destruct Hres as [Hin Hav]. split; auto.
    unfold isAvailable in Hav. now apply negb_true_iff in Hav.
Qed.

Lemma legacy_getNextAccount_reads_only_witness :
  let w := sampleWorld [("carol@example.com", carol);
                        ("bob@example.com", bob)] Priority in
  fst (Legacy.getNextAccount w) = Some bob
  /\ In bob (map_values (accounts w))
  /\ truthyB (isRateLimited bob) = false.
Proof.
  intros w. split; [reflexivity|].
  apply (proj2 (proj2 (proj2 (proj2 (proj2
           (legacy_getNextAccount_reads_only w))))) bob).
  reflexivity.
Defined.

Lemma legacy_reportFailure_world w e a b :
  map_get e (accounts w) = Some a ->
  Legacy.reportFailure e b w =
  (tt,
   with_accounts
     (map_set e
        (spread a (mkPatch None None None None None
                     (Some (or_zero (failureCount a) + 1))
                     (if b then Some true else None) None None))
        (accounts w)) w).
Proof.
  intros Hget. unfold Legacy.reportFailure, bind, getAccount, updateAccount.
  rewrite Hget. now rewrite Hget.
Qed.

Lemma legacy_failTimes_effect n :
  forall w e a,
    map_get e (accounts w) = Some a ->
    exists a',
      map_get e (accounts (snd (Legacy.failTimes n e w))) = Some a'
      /\ or_zero (failureCount a') = or_zero (failureCount a) + n
      /\ isRateLimited a' = isRateLimited a
      /\ rateLimitedUntil a' = rateLimitedUntil a
      /\ requestCount a' = requestCount a.
Proof.
  induction n as [|n IH]; intros w e a Hget.
  - exists a. cbn. repeat split; auto.
  - cbn [Legacy.failTimes]. unfold bind.
    rewrite (legacy_reportFailure_world w e a false Hget).
    set (a1 := spread a _). set (w1 := with_accounts _ w).
    destruct (IH w1 e a1) as (a' & Hget' & Hfc & Hlim & Hun & Hrc).
    { apply map_get_set_eq. }
    exists a'. split; [exact Hget'|]. rewrite Hfc, Hlim, Hun, Hrc.
    unfold a1. cbn. repeat split; auto. lia.
Qed.

(** X21. The first rotator has neither circuit breaker nor expiry.  Any
    number of consecutive failures that are not rate-limit reports only
    adds that number to [failureCount] and leaves the rate limit of the
    account as it was; and in a well-formed store an account that is rate
    limited is never returned by a selection, whatever its
    [rateLimitedUntil] and whatever the clock. *)
Theorem legacy_no_breaker_no_expiry (w : World) (e : string)
    (a : AntigravityAccount) (n : nat) :
  map_get e (accounts w) = Some a ->
  (exists a',
      map_get e (accounts (snd (Legacy.failTimes n e w))) = Some a'
      /\ or_zero (failureCount a') = or_zero (failureCount a) + n
      /\ isRateLimited a' = isRateLimited a
      /\ rateLimitedUntil a' = rateLimitedUntil a)
  /\ (store_ok (accounts w) = true ->
      truthyB (isRateLimited a) = true ->
      forall r, fst (Legacy.getNextAccount w) = Some r -> email r <> e).
Proof.
  intros Hget. split.
  - destruct (legacy_failTimes_effect n w e a Hget)
      as (a' & H1 & H2 & H3 & H4 & _).
    exists a'. auto.
  - intros Hok Hlim r Hres.
    destruct (proj1 (store_ok_spec _) Hok) as [Hnd Hk].
    apply legacy_getNextAccount_In in Hres. apply filter_In in Hres.
    destruct Hres as [Hin Hav].
    unfold map_values in Hin. apply in_map_iff in Hin.
    destruct Hin as ([k b] & Heq & Hin). cbn in Heq. subst b.
    pose proof (keyed_In k r _ Hk Hin) as Hemail.
    intros Heq. rewrite Hemail in Heq. rewrite Heq in Hin.
    pose proof (In_map_get e r _ Hnd Hin) as Hgetr.
    assert (r = a) by congruence. subst r.
    unfold isAvailable in Hav. rewrite Hlim in Hav. discriminate.
Qed.

Lemma legacy_no_breaker_no_expiry_witness :
  let w := sampleWorld twoAccounts Failover in
  map_get "alice@example.com" (accounts w) = Some alice
  /\ exists a',
      map_get "alice@example.com"
        (accounts (snd (Legacy.failTimes 5 "alice@example.com" w))) = Some a'
      /\ or_zero (failureCount a') = or_zero (failureCount alice) + 5
      /\ isRateLimited a' = isRateLimited alice
      /\ rateLimitedUntil a' = rateLimitedUntil alice.
Proof.
  intros w. split; [reflexivity|].
  apply (proj1 (legacy_no_breaker_no_expiry w "alice@example.com" alice 5
                  eq_refl)).
Defined.

Section ProviderProperties.

Variable refreshAccessToken : string -> option (string * Z).

Lemma legacy_loop_sound remaining :
  forall w,
    store_ok (accounts w) = true ->
    forall c,
      fst (Legacy.getCredentialLoop refreshAccessToken remaining w) = Some c ->
      exists a',
        map_get (Legacy.c_email c)
          (accounts
             (snd (Legacy.getCredentialLoop refreshAccessToken remaining w)))
        = Some a'
        /\ accessToken a' = Legacy.c_accessToken c
        /\ projectId a' = Legacy.c_projectId c
        /\ truthyB (isRateLimited a') = false.
Proof.
  induction remaining as [|n IH]; intros w Hok c; [discriminate|].
  cbn [Legacy.getCredentialLoop]. unfold bind.
  destruct (legacy_getNextAccount_same w) as (Hacc & _ & _ & _).
  pose proof (legacy_getNextAccount_In w) as Hin.
  destruct (Legacy.getNextAccount w) as [[r|] w0]; cbn [fst snd] in *;
    [|discriminate].
  specialize (Hin r eq_refl). apply filter_In in Hin.
  destruct Hin as [Hin Hav].
  assert (Hfree : truthyB (isRateLimited r) = false)
    by (unfold isAvailable in Hav; now apply negb_true_iff in Hav).
  destruct (proj1 (store_ok_spec _) Hok) as [Hnd Hk].
  assert (Hget : map_get (email r) (accounts w0) = Some r).
  { rewrite Hacc. unfold map_values in Hin. apply in_map_iff in Hin.
    destruct Hin as ([k b] & Heq & Hin). cbn in Heq. subst b.
    rewrite (keyed_In k r _ Hk Hin). now apply In_map_get. }
  unfold dateNow. cbn [fst snd].
  destruct (expiresAt r <? clock w0 (reads w0))%Z.
  - destruct (refreshAccessToken (refreshToken r)) as [[access expires]|].
    + unfold updateAccount, ret. cbn [accounts tick]. rewrite Hget.
      cbn [fst snd accounts with_accounts]. intros [= <-].
      cbn [Legacy.c_email Legacy.c_accessToken Legacy.c_projectId].
      rewrite map_get_set_eq. eexists. split; [reflexivity|].
      repeat split. exact Hfree.
    + assert (Hget' : map_get (email r) (accounts (tick w0)) = Some r)
        by exact Hget.
      rewrite (legacy_reportFailure_world (tick w0) (email r) r false Hget').
      apply IH. cbn [accounts with_accounts tick].
      apply store_ok_map_set; [now rewrite Hacc | exact Hget].
  - unfold ret. cbn [fst snd accounts tick]. intros [= <-].
    cbn [Legacy.c_email Legacy.c_accessToken Legacy.c_projectId].
    exists r. auto.
Qed.

Lemma head_available_map_set s a a1 :
  store_ok s = true ->
  head (List.filter isAvailable (map_values s)) = Some a ->
  isAvailable a1 = true -> email a1 = email a ->
  head (List.filter isAvailable (map_values (map_set (email a) a1 s)))
  = Some a1
  /\ map_get (email a) s = Some a.
Proof.
  intros Hok Hhead Hav1 Hemail.
  apply store_ok_spec in Hok. destruct Hok as [Hnd Hk].
  induction s as [|[k b] s IH]; [discriminate|].
  inversion Hnd as [|? ? Hnotin Hnd']; subst.
  pose proof (Forall_inv Hk) as Hkb. pose proof (Forall_inv_tail Hk) as Hk'.
  cbn in Hkb. cbn [map_values map snd List.filter] in Hhead.
  cbn [map_set map_get].
  destruct (isAvailable b) eqn:Eb.
  - cbn [head] in Hhead. injection Hhead as ->.
    rewrite Hkb, String.eqb_refl. cbn. rewrite Hav1. auto.
  - destruct (String.eqb (email a) k) eqn:E.
    + exfalso. apply String.eqb_eq in E.
      destruct (filter_head_split isAvailable (map_values s) a Hhead)
        as (before & after & Hsplit & _ & _).
      apply Hnotin. rewrite <- E.
      assert (In a (map_values s)) as Hina
          by (rewrite Hsplit; apply in_or_app; right; now left).
      unfold map_values in Hina. apply in_map_iff in Hina.
      destruct Hina as ([k' a'] & Heq & Hina). cbn in Heq. subst a'.
      unfold keyed in Hk'. rewrite Forall_forall in Hk'.
      specialize (Hk' (k', a) Hina). cbn in Hk'. rewrite Hk'.
      apply in_map_iff. now exists (k', a).
    + cbn [map_values map snd List.filter]. rewrite Eb.
      now apply IH.
Qed.

Lemma legacy_loop_same_account remaining :
  forall w a,
    store_ok (accounts w) = true ->
    strategy w = Failover ->
    head (List.filter isAvailable (map_values (accounts w))) = Some a ->
    refreshAccessToken (refreshToken a) = None ->
    (forall i, (expiresAt a < clock w i)%Z) ->
    let res := Legacy.getCredentialLoop refreshAccessToken remaining w in
    fst res = None
    /\ exists a',
        map_get (email a) (accounts (snd res)) = Some a'
        /\ or_zero (failureCount a') = or_zero (failureCount a) + remaining
        /\ forall k, k <> email a ->
                     map_get k (accounts (snd res)) = map_get k (accounts w).
Proof.
  induction remaining as [|n IH]; intros w a Hok Hstrat Hhead Hfail Hexp res.
  - unfold res. cbn. split; auto.
    destruct (head_available_map_set (accounts w) a a Hok Hhead) as [_ Hget];
      auto.
    { destruct (filter_head_split isAvailable _ a Hhead)
        as (_ & _ & _ & Hav & _). exact Hav. }
    exists a. repeat split; auto.
  - assert (Hav : isAvailable a = true).
    { destruct (filter_head_split isAvailable _ a Hhead)
        as (_ & _ & _ & Hav & _). exact Hav. }
    destruct (head_available_map_set (accounts w) a a Hok Hhead Hav eq_refl)
      as [_ Hget].
    set (a1 := spread a (mkPatch None None None None None
                           (Some (or_zero (failureCount a) + 1))
                           None None None)).
    set (w1 := with_accounts (map_set (email a) a1 (accounts w)) (tick w)).
    assert (Hstep : res = Legacy.getCredentialLoop refreshAccessToken n w1).
    { unfold res. cbn [Legacy.getCredentialLoop]. unfold bind.
      rewrite legacy_getNextAccount_result.
      destruct (List.filter isAvailable (map_values (accounts w)))
        as [|c cs]; [discriminate|].
      rewrite Hstrat. cbn [head selectFailover] in *.
      injection Hhead as ->. unfold dateNow. cbn [fst snd].
      replace (expiresAt a <? clock w (reads w))%Z with true
        by (symmetry; apply Z.ltb_lt; apply Hexp).
      rewrite Hfail.
      assert (Hget' : map_get (email a) (accounts (tick w)) = Some a)
        by exact Hget.
      now rewrite (legacy_reportFailure_world (tick w) (email a) a false Hget').
    }
    rewrite Hstep.
    assert (Hav1 : isAvailable a1 = true) by exact Hav.
    destruct (head_available_map_set (accounts w) a a1 Hok Hhead Hav1 eq_refl)
      as [Hhead1 _].
    destruct (IH w1 a1) as (Hnone & a' & Hget' & Hfc & Hframe); auto.
    + apply store_ok_map_set; auto.
    + split; [exact Hnone|]. exists a'. split; [exact Hget'|]. split.
      * rewrite Hfc. unfold a1. cbn. lia.
      * intros k Hne. rewrite (Hframe k Hne).
        unfold w1. cbn [accounts with_accounts].
        apply map_get_set_ne. congruence.
Qed.

End ProviderProperties.

(** X22. [getCredential] of the provider hands out only credentials of a
    usable account: in a well-formed store, when it returns a credential,
    the account stored under the credential's email when the call returns
    is not rate limited and holds exactly the access token (and project)
    that was handed out; and when every stored account is rate limited it
    returns null at once, leaving the world as it was. *)
Theorem legacy_getCredential_sound
    (refreshAccessToken : string -> option (string * Z)) (w : World) :
  store_ok (accounts w) = true ->
  ((forall a, In a (map_values (accounts w)) ->
              truthyB (isRateLimited a) = true) ->
   Legacy.getCredential refreshAccessToken w = (None, w))
  /\ (forall c,
        fst (Legacy.getCredential refreshAccessToken w) = Some c ->
        exists a',
          map_get (Legacy.c_email c)
            (accounts (snd (Legacy.getCredential refreshAccessToken w)))
          = Some a'
          /\ accessToken a' = Legacy.c_accessToken c
          /\ projectId a' = Legacy.c_projectId c
          /\ truthyB (isRateLimited a') = false).
Proof.
  intros Hok. split.
  - intros Hall. unfold Legacy.getCredential.
    cbn [Legacy.getCredentialLoop]. unfold bind.
    rewrite legacy_getNextAccount_result.
    rewrite filter_none; [reflexivity|].
    intros a Hin. unfold isAvailable. now rewrite (Hall a Hin).
  - intros c. now apply legacy_loop_sound.
Qed.

Lemma legacy_getCredential_sound_witness :
  let w := sampleWorld [("carol@example.com",
                         limitedUntil "carol@example.com" 1 3 99999999)]
             RoundRobin in
  store_ok (accounts w) = true
  /\ Legacy.getCredential alwaysFresh w = (None, w).
Proof.
  intros w. split; [reflexivity|].
  apply (proj1 (legacy_getCredential_sound alwaysFresh w eq_refl)).
  intros a [<-|[]]. reflexivity.
Defined.

(** X23. [getCredential] does not move on after a failed refresh when the
    strategy is failover: in a well-formed store whose first available
    account has an expired token that the refresher cannot renew, all three
    attempts select that same account, the call returns null, the account
    is left with three more failures (and still not rate limited by them),
    and no other account is touched or tried. *)
Theorem legacy_getCredential_retries_same_account
    (refreshAccessToken : string -> option (string * Z)) (w : World)
    (a : AntigravityAccount) :
  store_ok (accounts w) = true ->
  strategy w = Failover ->
  head (List.filter isAvailable (map_values (accounts w))) = Some a ->
  refreshAccessToken (refreshToken a) = None ->
  (forall i, (expiresAt a < clock w i)%Z) ->
  let res := Legacy.getCredential refreshAccessToken w in
  fst res = None
  /\ exists a',
      map_get (email a) (accounts (snd res)) = Some a'
      /\ or_zero (failureCount a') = or_zero (failureCount a) + 3
      /\ forall k, k <> email a ->
                   map_get k (accounts (snd res)) = map_get k (accounts w).
Proof.
  intros Hok Hstrat Hhead Hfail Hexp.
  exact (legacy_loop_same_account refreshAccessToken 3 w a
           Hok Hstrat Hhead Hfail Hexp).
Qed.

Lemma legacy_getCredential_retries_same_account_witness :
  let w := sampleWorld [("alice@example.com", stale);
                        ("bob@example.com", bob)] Failover in
  store_ok (accounts w) = true
  /\ head (List.filter isAvailable (map_values (accounts w))) = Some stale
  /\ (forall i, (expiresAt stale < clock w i)%Z)
  /\ fst (Legacy.getCredential neverFresh w) = None.
Proof.
  intros w.
  assert (Hexp : forall i, (expiresAt stale < clock w i)%Z).
  { intros i. change (5 < 1000000 + Z.of_nat i)%Z. lia. }
  split; [reflexivity|]. split; [reflexivity|]. split; [exact Hexp|].
  apply (proj1 (legacy_getCredential_retries_same_account neverFresh w stale
                  eq_refl eq_refl eq_refl eq_refl Hexp)).
Defined.

(** ** [refreshOAuth] *)

Lemma getNextAccount_stored w r :
  store_ok (accounts w) = true ->
  fst (getNextAccount w) = Some r ->
  truthyB (isRateLimited r) = false
  /\ map_get (email r) (accounts (snd (getNextAccount w))) = Some r
  /\ store_ok (accounts (snd (getNextAccount w))) = true.
Proof.
  intros Hok Hres.
  assert (Hok' : store_ok (accounts (snd (getNextAccount w))) = true).
  { apply (rel_getNextAccount sameKeys sameKeys_refl sameKeys_trans
             (fun s e a u _ H => sameKeys_update s e a u H) w); exact Hok. }
  destruct (proj1 (store_ok_spec _) Hok') as [Hnd' Hk'].
  pose proof (getNextAccount_store w Hok) as Hacc.
  pose proof (getNextAccount_in_candidates w r Hok Hres) as Hin.
  destruct (proj1 (candidates_after w _ "" r Hacc) Hin) as [Hfree Hval].
  split; [exact Hfree|]. split; [|exact Hok'].
  unfold map_values in Hval. apply in_map_iff in Hval.
  destruct Hval as ([k b] & Heq & Hinb). cbn in Heq. subst b.
  rewrite (keyed_In k r _ Hk' Hinb). now apply In_map_get.
Qed.

Lemma store_ok_reportFailure w e b c :
  store_ok (accounts w) = true ->
  store_ok (accounts (snd (reportFailure e b c w))) = true.
Proof.
  intros Hok.
  apply (rel_reportFailure sameKeys sameKeys_refl sameKeys_trans
           (fun s e a u _ H => sameKeys_update s e a u H) e b c w).
  exact Hok.
Qed.

(** X24. [refreshOAuth] in a well-formed store.  It throws "no available
    accounts" exactly when the selection returns null.  A credential it
    returns always belongs to an account that, when the call returns, is
    stored under the credential's email, is not rate limited and holds
    exactly the returned access token, refresh token and expiry.  And when
    the token of the selected account is not within 5 minutes of its expiry,
    that account's credential is returned and the call is counted as a
    success: its [requestCount] grows by one. *)
Theorem refreshOAuth_credentials
    (refreshAccessToken : string -> option (string * Z)) (w : World) :
  store_ok (accounts w) = true ->
  let res := refreshOAuth refreshAccessToken w in
  (fst res = NoAvailableAccounts <-> fst (getNextAccount w) = None)
  /\ (forall access refresh expires e project,
        fst res = OAuthCredential access refresh expires e project ->
        exists a',
          map_get e (accounts (snd res)) = Some a'
          /\ truthyB (isRateLimited a') = false
          /\ accessToken a' = access /\ refreshToken a' = refresh
          /\ expiresAt a' = expires /\ email a' = e)
  /\ (forall a,
        fst (getNextAccount w) = Some a ->
        (now (snd (getNextAccount w)) + TOKEN_EXPIRY_THRESHOLD_MS
         <= expiresAt a)%Z ->
        fst res = credentialOf a
        /\ exists a',
            map_get (email a) (accounts (snd res)) = Some a'
            /\ requestCount a' = Some (or_zero (requestCount a) + 1)).
Proof.
  intros Hok res. unfold res, refreshOAuth, bind.
  pose proof (getNextAccount_stored w) as Hsel.
  destruct (getNextAccount w) as [[a|] w1]; cbn [fst snd] in *.
  2:{ split; [split; auto|]. split; [discriminate|]. intros a; discriminate. }
  destruct (Hsel a Hok eq_refl) as (Hfree & Hget & Hok1). clear Hsel.
  unfold dateNow. cbn [fst snd].
  assert (Hget' : map_get (email a) (accounts (tick w1)) = Some a)
    by exact Hget.
  destruct (expiresAt a <? clock w1 (reads w1) + TOKEN_EXPIRY_THRESHOLD_MS)%Z
    eqn:Esoon.
  - assert (Hnot : forall a0 : AntigravityAccount,
               Some a = Some a0 ->
               (now w1 + TOKEN_EXPIRY_THRESHOLD_MS <= expiresAt a0)%Z ->
               False).
    { intros a0 [= <-] Hle. apply Z.ltb_lt in Esoon. unfold now in Hle. lia. }
    destruct (refreshAccessToken (refreshToken a)) as [[access expires]|].
    + unfold updateAccountTokens, bind, dateNow, updateAccount, ret.
      cbn [accounts tick fst snd]. rewrite Hget.
      cbn [fst snd accounts with_accounts].
      split; [split; discriminate|]. split.
      * intros acc ref exp e proj [= <- <- <- <- <-].
        rewrite map_get_set_eq. eexists. split; [reflexivity|].
        repeat split. exact Hfree.
      * intros a0 H1 H2. destruct (Hnot a0 H1 H2).
    + pose proof (store_ok_reportFailure (tick w1) (email a) false
                    RATE_LIMIT_COOLDOWN_MS Hok1) as Hok2.
      destruct (reportFailure (email a) false RATE_LIMIT_COOLDOWN_MS (tick w1))
        as [[|] w2]; cbn [fst snd] in *.
      * pose proof (getNextAccount_stored w2) as Hsel2.
        destruct (getNextAccount w2) as [[n|] w3]; cbn [fst snd] in *.
        -- destruct (Hsel2 n Hok2 eq_refl) as (Hfree2 & Hget2 & _).
           destruct (negb (String.eqb (email n) (email a))); cbn [fst snd ret].
           ++ split; [split; discriminate|]. split.
              ** unfold credentialOf.
                 intros acc ref exp e proj [= <- <- <- <- <-].
                 exists n. repeat split; auto.
              ** intros a0 H1 H2. destruct (Hnot a0 H1 H2).
           ++ split; [split; discriminate|]. split; [discriminate|].
              intros a0 H1 H2. destruct (Hnot a0 H1 H2).
        -- cbn [fst snd ret]. split; [split; discriminate|].
           split; [discriminate|].
           intros a0 H1 H2. destruct (Hnot a0 H1 H2).
      * cbn [fst snd ret]. split; [split; discriminate|].
        split; [discriminate|].
        intros a0 H1 H2. destruct (Hnot a0 H1 H2).
  - rewrite (reportSuccess_world (tick w1) (email a) a Hget').
    cbn [fst snd ret accounts with_accounts]. unfold credentialOf.
    split; [split; discriminate|]. split.
    + intros acc ref exp e proj [= <- <- <- <- <-].
      rewrite map_get_set_eq. eexists. split; [reflexivity|]. repeat split.
    + intros a0 [= <-] _. split; [reflexivity|].
      rewrite map_get_set_eq. eexists. split; reflexivity.
Qed.

Lemma refreshOAuth_credentials_witness :
  let w := sampleWorld twoAccounts Priority in
  store_ok (accounts w) = true
  /\ fst (getNextAccount w) = Some bob
  /\ (now (snd (getNextAccount w)) + TOKEN_EXPIRY_THRESHOLD_MS
      <= expiresAt bob)%Z
  /\ fst (refreshOAuth neverFresh w) = credentialOf bob.
Proof.
  intros w.
  assert (Hvalid : (now (snd (getNextAccount w)) + TOKEN_EXPIRY_THRESHOLD_MS
                    <= expiresAt bob)%Z)
    by (vm_compute; discriminate).
  split; [reflexivity|]. split; [reflexivity|]. split; [exact Hvalid|].
  apply (proj2 (proj2 (refreshOAuth_credentials neverFresh w eq_refl))
           bob eq_refl Hvalid).
Defined.

(** ** Loading, adding and removing *)

Lemma loadEntry_ok s acc :
  store_ok s = true -> store_ok (loadEntry s acc) = true.
Proof.
  intros Hok. unfold loadEntry.
  destruct (isEmptyEmail (email acc)); auto.
  now apply store_ok_map_set_own.
Qed.

Lemma fold_loadEntry_ok json :
  forall s, store_ok s = true -> store_ok (fold_left loadEntry json s) = true.
Proof.
  induction json as [|acc json IH]; intros s Hok; cbn; auto.
  apply IH. now apply loadEntry_ok.
Qed.

Lemma find_append {A : Type} (f : A -> bool) l1 l2 :
  List.find f (l1 ++ l2)
  = match List.find f l1 with Some x => Some x | None => List.find f l2 end.
Proof.
  induction l1 as [|x l1 IH]; cbn; auto. now destruct (f x).
Qed.

Lemma fold_loadEntry_get json e :
  forall s,
    map_get e (fold_left loadEntry json s) =
    match List.find (fun acc => negb (isEmptyEmail (email acc))
                                && String.eqb (email acc) e) (rev json) with
    | Some acc => Some acc
    | None => map_get e s
    end.
Proof.
  induction json as [|acc json IH]; intros s; [reflexivity|].
  cbn [fold_left rev]. rewrite IH, find_append.
  destruct (List.find _ (rev json)) as [found|]; [reflexivity|].
  cbn [List.find]. unfold loadEntry.
  destruct (isEmptyEmail (email acc)) eqn:Eempty; cbn [negb andb];
    [reflexivity|].
  destruct (String.eqb (email acc) e) eqn:E.
  - apply String.eqb_eq in E. subst e. apply map_get_set_eq.
  - apply String.eqb_neq in E. now apply map_get_set_ne.
Qed.

(** X25. Whatever array of accounts the accounts file holds, the map that
    [load] builds is well formed: its keys are distinct and every account is
    stored under its own email.  Entries with an empty email are dropped,
    and an email that occurs several times is stored once, with the record
    of its last occurrence. *)
Theorem load_builds_well_formed_store (json : list AntigravityAccount)
    (e : string) :
  store_ok (loadAccounts json) = true
  /\ map_get "" (loadAccounts json) = None
  /\ map_get e (loadAccounts json)
     = List.find (fun acc => negb (isEmptyEmail (email acc))
                             && String.eqb (email acc) e) (rev json).
Proof.
  unfold loadAccounts. split; [now apply fold_loadEntry_ok|].
  assert (Hget : forall k,
             map_get k (fold_left loadEntry json [])
             = List.find (fun acc => negb (isEmptyEmail (email acc))
                                     && String.eqb (email acc) k) (rev json)).
  { intros k. rewrite fold_loadEntry_get. now destruct (List.find _ _). }
  split; [|apply Hget].
  rewrite Hget.
  destruct (List.find _ (rev json)) as [acc|] eqn:Hf; auto.
  apply find_some in Hf. destruct Hf as [_ Hf].
  apply andb_true_iff in Hf. destruct Hf as [Hne Heq].
  unfold isEmptyEmail in Hne. rewrite Heq in Hne. discriminate.
Qed.

Lemma map_delete_snoc k v s :
  map_get k s = None -> map_delete k (s ++ [(k, v)]) = (true, s).
Proof.
  induction s as [|[k' a] s IH]; cbn.
  - now rewrite String.eqb_refl.
  - destruct (String.eqb k k'); [discriminate|].
    intros H. now rewrite IH.
Qed.

(** X26. Adding an account under an email that is not yet stored and then
    removing that email gives back the world as it was, and the removal
    returns [true]. *)
Theorem addAccount_then_removeAccount (w : World)
    (account : AntigravityAccount) :
  map_get (email account) (accounts w) = None ->
  (let* _ := addAccount account in removeAccount (email account)) w
  = (true, w).
Proof.
  intros Hnew. unfold bind, addAccount, removeAccount.
  cbn [accounts with_accounts]. rewrite (map_set_absent _ _ _ Hnew).
  rewrite (map_delete_snoc _ _ _ Hnew). destruct w; reflexivity.
Qed.

Lemma addAccount_then_removeAccount_witness :
  let w := sampleWorld twoAccounts RoundRobin in
  map_get (email carol) (accounts w) = None
  /\ (let* _ := addAccount carol in removeAccount (email carol)) w
     = (true, w).
Proof.
  intros w. split; [reflexivity|].
  apply (addAccount_then_removeAccount w carol). reflexivity.
Defined.
